(** * Batch coprocessor dispatch (store/copr, store/tikv): model and proofs

    A shallow embedding of [store/copr/batch_coprocessor.go] and
    [store/tikv/batch_request_sender.go], and of the label rules of
    package [label] that the first file carries at its end.

    Conventions.
    - Go's [uint64] store identifiers and [int] counters are [Z].
    - Go's [float64] is the kernel's binary64 type [float]; conversions,
      division, addition and comparisons are the IEEE 754 ones the Go
      compiler emits.
    - Go maps are stdpp's [gmap].  The order in which a [range] statement
      visits a map is not specified by Go; the model takes it from a
      schedule, see [shuffle].
    - A Go panic (index out of range, nil dereference, closing a closed
      channel) is the outcome [Panicked]. *)

From Stdlib Require Import ZArith Floats String List Bool Lia.
From Stdlib Require Import Permutation.
From stdpp Require Import gmap strings list fin_maps pretty.

Local Open Scope Z_scope.

(** ** Outcomes of a Go function call *)

Inductive outcome (A : Type) : Type :=
| Returned (a : A)
| Panicked
| OutOfFuel.
Arguments Returned {A} a.
Arguments Panicked {A}.
Arguments OutOfFuel {A}.

(** ** Map iteration order *)

(** [insertAt n x l] puts [x] at position [n] of [l] (at the end when [l]
    is shorter). *)
Fixpoint insertAt {A : Type} (n : nat) (x : A) (l : list A) : list A :=
  match n, l with
  | O, _ => x :: l
  | S n', y :: l' => y :: insertAt n' x l'
  | S _, [] => [x]
  end.

(** [shuffle seed l] is a permutation of [l] chosen by [seed]; every
    permutation of [l] is [shuffle seed l] for some [seed].  A [range] over
    a map [m] visits [shuffle seed (map_to_list m)]. *)
Fixpoint shuffle {A : Type} (seed : list nat) (l : list A) : list A :=
  match l with
  | [] => []
  | x :: l' =>
      match seed with
      | [] => x :: shuffle [] l'
      | n :: seed' => insertAt n x (shuffle seed' l')
      end
  end.

(** ** Data model (store/tikv) *)

Definition MaxUint64 : Z := 18446744073709551615.

(** [kv.KeyRange]: a pair of byte strings. *)
Record KeyRange : Type := mkKeyRange {
  StartKey : list Byte.byte;
  EndKey : list Byte.byte
}.

(** [tikv.KeyRanges] wraps a slice of key ranges. *)
Definition KeyRanges : Type := list KeyRange.

(** [tikv.RegionVerID]: region id with its two epoch counters. *)
Record RegionVerID : Type := mkRegionVerID {
  regionID : Z;
  regionConfVer : Z;
  regionVer : Z
}.

(** [*metapb.Region] and [*metapb.Peer] are opaque to the dispatcher; the
    model keeps the identity of the object pointed to. *)
Definition RegionMeta : Type := Z.
Definition PeerMeta : Type := Z.

(** [tikv.RegionInfo], batch_request_sender.go. *)
Record RegionInfo : Type := mkRegionInfo {
  Region : RegionVerID;
  Meta : RegionMeta;
  Ranges : KeyRanges;
  AllStores : list Z
}.

(** [tikv.RPCContext], the fields the dispatcher reads. *)
Record RPCContext : Type := mkRPCContext {
  Addr : string;
  ctxMeta : RegionMeta;
  Peer : PeerMeta;
  Store : Z
}.

Inductive CmdType : Type :=
| CmdBatchCop
| CmdOther (n : Z).

(** [batchCopTask], batch_coprocessor.go.  [ctx] is a pointer and may be
    nil. *)
Record batchCopTask : Type := mkBatchCopTask {
  storeAddr : string;
  cmdType : CmdType;
  ctx : option RPCContext;
  regionInfos : list RegionInfo
}.

#[global] Instance byte_eq_dec : EqDecision Byte.byte := Byte.byte_eq_dec.
#[global] Instance KeyRange_eq_dec : EqDecision KeyRange.
Proof. solve_decision. Defined.
#[global] Instance RegionVerID_eq_dec : EqDecision RegionVerID.
Proof. solve_decision. Defined.
#[global] Instance RegionInfo_eq_dec : EqDecision RegionInfo.
Proof. solve_decision. Defined.
#[global] Instance RPCContext_eq_dec : EqDecision RPCContext.
Proof. solve_decision. Defined.
#[global] Instance CmdType_eq_dec : EqDecision CmdType.
Proof. solve_decision. Defined.
#[global] Instance batchCopTask_eq_dec : EqDecision batchCopTask.
Proof. solve_decision. Defined.

(** ** The task balancer: [balanceBatchCopTask] *)

Module Balance.

(** [float64(n)] for a Go [int] n. *)
Definition float64 (z : Z) : float :=
  if z <? 0 then PrimFloat.opp (PrimFloat.of_uint63 (Uint63.of_Z (- z)))
  else PrimFloat.of_uint63 (Uint63.of_Z z).

(** [len(m)] as a Go [int]. *)
Definition lenZ {A : Type} (l : list A) : Z := Z.of_nat (length l).

Section Balancer.

(** [RegionVerID.String], declared in store/tikv/region_cache.go and not
    part of the sources at hand: the key of a region in a candidate map. *)
Variable regionKey : RegionVerID -> string.

(** The seed of the [k]-th [range] over a map that the call executes. *)
Variable mapOrder : nat -> list nat.

(** First loop: one task per primary store, holding the pinned region.
    [task.regionInfos[0]] and [.AllStores[0]] panic when out of range;
    [None] stands for that panic. *)
Fixpoint pinTasks (originalTasks : list batchCopTask)
    (storeTaskMap : gmap Z batchCopTask) : option (gmap Z batchCopTask) :=
  match originalTasks with
  | [] => Some storeTaskMap
  | task :: rest =>
      match regionInfos task with
      | [] => None
      | ri0 :: _ =>
          match AllStores ri0 with
          | [] => None
          | s0 :: _ =>
              let batchTask :=
                {| storeAddr := storeAddr task;
                   cmdType := cmdType task;
                   ctx := None;
                   regionInfos := [ri0] |} in
              pinTasks rest (<[s0 := batchTask]> storeTaskMap)
          end
      end
  end.

(** [task.regionInfos[0].AllStores[0]]. *)
Definition primaryStore (task : batchCopTask) : option Z :=
  match regionInfos task with
  | [] => None
  | ri0 :: _ => head (AllStores ri0)
  end.

(** The inner counting loop of lines 126-130. *)
Fixpoint countValid (storeTaskMap : gmap Z batchCopTask) (stores : list Z)
    (validStoreNum : Z) : Z :=
  match stores with
  | [] => validStoreNum
  | storeID :: rest =>
      match storeTaskMap !! storeID with
      | Some _ => countValid storeTaskMap rest (validStoreNum + 1)
      | None => countValid storeTaskMap rest validStoreNum
      end
  end.

Definition validStoreNumOf (storeTaskMap : gmap Z batchCopTask)
    (ri : RegionInfo) : Z :=
  if (length (AllStores ri) <=? 1)%nat then 1
  else countValid storeTaskMap (AllStores ri) 0.

(** [storeTaskMap[id].regionInfos = append(storeTaskMap[id].regionInfos, ri)].
    The map holds pointers, so the update is in place; dereferencing a
    missing entry is a nil dereference. *)
Definition appendRegion (id : Z) (ri : RegionInfo)
    (storeTaskMap : gmap Z batchCopTask) : option (gmap Z batchCopTask) :=
  match storeTaskMap !! id with
  | Some t =>
      Some (<[id := {| storeAddr := storeAddr t; cmdType := cmdType t;
                       ctx := ctx t;
                       regionInfos := regionInfos t ++ [ri] |}]> storeTaskMap)
  | None => None
  end.

(** Lines 142-154: enter [ri] in the candidate map of every store of
    [ri.AllStores]; [None] is the early [return originalTasks]. *)
Fixpoint putCandidate (taskKey : string) (ri : RegionInfo) (stores : list Z)
    (storeCandidateTaskMap : gmap Z (gmap string RegionInfo))
    : option (gmap Z (gmap string RegionInfo)) :=
  match stores with
  | [] => Some storeCandidateTaskMap
  | storeID :: rest =>
      match storeCandidateTaskMap !! storeID with
      | Some candidateMap =>
          match candidateMap !! taskKey with
          | Some _ => None
          | None =>
              putCandidate taskKey ri rest
                (<[storeID := <[taskKey := ri]> candidateMap]>
                   storeCandidateTaskMap)
          end
      | None =>
          putCandidate taskKey ri rest
            (<[storeID := {[taskKey := ri]}]> storeCandidateTaskMap)
      end
  end.

(** The variables the second loop updates. *)
Record collectState : Type := mkCollect {
  cStoreTaskMap : gmap Z batchCopTask;
  cCandidates : gmap Z (gmap string RegionInfo);
  cTotalCandidateStoreNum : Z;
  cTotalCandidateCopTaskNum : Z
}.

(** What the second loop does next. *)
Inductive collected : Type :=
| GiveUp                       (* return originalTasks, line 146 *)
| NilDeref                     (* storeTaskMap[taskStoreID] is nil *)
| Collected (st : collectState).

(** Lines 118-155 for one region [ri] at an index other than 0. *)
Definition placeRegion (taskStoreID : Z) (ri : RegionInfo)
    (st : collectState) : collected :=
  let validStoreNum := validStoreNumOf (cStoreTaskMap st) ri in
  if validStoreNum =? 1 then
    match appendRegion taskStoreID ri (cStoreTaskMap st) with
    | Some m =>
        Collected {| cStoreTaskMap := m;
                     cCandidates := cCandidates st;
                     cTotalCandidateStoreNum := cTotalCandidateStoreNum st;
                     cTotalCandidateCopTaskNum := cTotalCandidateCopTaskNum st |}
    | None => NilDeref
    end
  else
    match putCandidate (regionKey (Region ri)) ri (AllStores ri)
            (cCandidates st) with
    | Some c =>
        Collected {| cStoreTaskMap := cStoreTaskMap st;
                     cCandidates := c;
                     cTotalCandidateStoreNum :=
                       cTotalCandidateStoreNum st + validStoreNum;
                     cTotalCandidateCopTaskNum :=
                       cTotalCandidateCopTaskNum st + 1 |}
    | None => GiveUp
    end.

(** The loop over [task.regionInfos] from index 1 on. *)
Fixpoint placeRegions (taskStoreID : Z) (ris : list RegionInfo)
    (st : collectState) : collected :=
  match ris with
  | [] => Collected st
  | ri :: rest =>
      match placeRegion taskStoreID ri st with
      | Collected st' => placeRegions taskStoreID rest st'
      | stop => stop
      end
  end.

(** The loop over [originalTasks], lines 115-157.  The first loop has
    already indexed [regionInfos[0].AllStores[0]] of every task, so the
    [None] branch is not reached after it. *)
Fixpoint collectTasks (originalTasks : list batchCopTask)
    (st : collectState) : collected :=
  match originalTasks with
  | [] => Collected st
  | task :: rest =>
      match primaryStore task with
      | None => NilDeref
      | Some taskStoreID =>
          match placeRegions taskStoreID (tail (regionInfos task)) st with
          | Collected st' => collectTasks rest st'
          | stop => stop
          end
      end
  end.

(** [len(storeCandidateTaskMap[id])]; a missing entry is a nil map of
    length 0. *)
Definition lenCandidates (cands : gmap Z (gmap string RegionInfo)) (id : Z)
    : Z :=
  match cands !! id with
  | Some m => Z.of_nat (size m)
  | None => 0
  end.

(** [len(storeTaskMap[id].regionInfos)]; [None] is the nil dereference. *)
Definition lenRegionInfos (storeTaskMap : gmap Z batchCopTask) (id : Z)
    : option Z :=
  match storeTaskMap !! id with
  | Some t => Some (lenZ (regionInfos t))
  | None => None
  end.

(** The projected load of a store,
    [float64(len(cands[id]))/avg + float64(len(tasks[id].regionInfos))]. *)
Definition projectedLoad (cands : gmap Z (gmap string RegionInfo))
    (avgStorePerTask : float) (id : Z) (nRegions : Z) : float :=
  (float64 (lenCandidates cands id) / avgStorePerTask + float64 nRegions)%float.

(** One iteration of the [range storeTaskMap] of [findNextStore],
    lines 164-177.  [t] is the entry the range yields for [storeID]. *)
Definition findNextStoreStep (cands : gmap Z (gmap string RegionInfo))
    (avgStorePerTask : float) (acc : Z * float)
    (entry : Z * batchCopTask) : Z * float :=
  let '(store, possibleTaskNum) := acc in
  let '(storeID, t) := entry in
  if (store =? MaxUint64) && (0 <? lenCandidates cands storeID) then
    (storeID, projectedLoad cands avgStorePerTask storeID (lenZ (regionInfos t)))
  else
    let num := (float64 (lenCandidates cands storeID) / avgStorePerTask)%float in
    if (num =? 0)%float then (store, possibleTaskNum)
    else
      let num := (num + float64 (lenZ (regionInfos t)))%float in
      if (num <? possibleTaskNum)%float then (storeID, num)
      else (store, possibleTaskNum).

(** [findNextStore], lines 160-180, visiting the map in the order [seed]
    selects. *)
Definition findNextStore (seed : list nat)
    (storeTaskMap : gmap Z batchCopTask)
    (cands : gmap Z (gmap string RegionInfo)) (avgStorePerTask : float)
    : Z * float :=
  fold_left (findNextStoreStep cands avgStorePerTask)
    (shuffle seed (map_to_list storeTaskMap)) (MaxUint64, 0%float).

(** Lines 192-197: delete [key] from the candidate map of every store of
    [ri.AllStores] that has one, counting down [totalCandidateStoreNum]
    once per such store. *)
Fixpoint dropCandidate (key : string) (stores : list Z)
    (cands : gmap Z (gmap string RegionInfo)) (total : Z)
    : gmap Z (gmap string RegionInfo) * Z :=
  match stores with
  | [] => (cands, total)
  | id :: rest =>
      match cands !! id with
      | Some m => dropCandidate key rest (<[id := delete key m]> cands) (total - 1)
      | None => dropCandidate key rest cands total
      end
  end.

(** Lines 201-206: move on to another store of [ri.AllStores] whose
    projected load is not above the current one.  [None] is the nil
    dereference of [storeTaskMap[id]] for a store without a task. *)
Fixpoint reselect (storeTaskMap : gmap Z batchCopTask)
    (cands : gmap Z (gmap string RegionInfo)) (avgStorePerTask : float)
    (stores : list Z) (store : Z) (possibleTaskNum : float)
    : option (Z * float) :=
  match stores with
  | [] => Some (store, possibleTaskNum)
  | id :: rest =>
      if negb (id =? store) && (0 <? lenCandidates cands id) then
        match lenRegionInfos storeTaskMap id with
        | None => None
        | Some n =>
            let load := projectedLoad cands avgStorePerTask id n in
            if (load <=? possibleTaskNum)%float then
              reselect storeTaskMap cands avgStorePerTask rest id load
            else
              reselect storeTaskMap cands avgStorePerTask rest store
                possibleTaskNum
        end
      else
        reselect storeTaskMap cands avgStorePerTask rest store possibleTaskNum
  end.

(** The variables of the main loop, lines 184-210.  [bRanges] counts the
    [range] statements over maps executed so far. *)
Record balanceState : Type := mkBalance {
  bStoreTaskMap : gmap Z batchCopTask;
  bCandidates : gmap Z (gmap string RegionInfo);
  bTotalCandidateStoreNum : Z;
  bTotalCandidateCopTaskNum : Z;
  bAvgStorePerTask : float;
  bStore : Z;
  bPossibleTaskNum : float;
  bRanges : nat
}.

(** Line 186-188. *)
Definition refreshStore (st : balanceState) : balanceState :=
  if lenCandidates (bCandidates st) (bStore st) =? 0 then
    let '(store, possibleTaskNum) :=
      findNextStore (mapOrder (bRanges st)) (bStoreTaskMap st)
        (bCandidates st) (bAvgStorePerTask st) in
    {| bStoreTaskMap := bStoreTaskMap st;
       bCandidates := bCandidates st;
       bTotalCandidateStoreNum := bTotalCandidateStoreNum st;
       bTotalCandidateCopTaskNum := bTotalCandidateCopTaskNum st;
       bAvgStorePerTask := bAvgStorePerTask st;
       bStore := store;
       bPossibleTaskNum := possibleTaskNum;
       bRanges := S (bRanges st) |}
  else st.

(** The entry the [range storeCandidateTaskMap[store]] of line 189 yields
    first, if the map is not empty. *)
Definition firstCandidate (st : balanceState) : option (string * RegionInfo) :=
  match bCandidates st !! bStore st with
  | Some m => head (shuffle (mapOrder (bRanges st)) (map_to_list m))
  | None => None
  end.

(** The body of that range, lines 190-208, for the entry [(key, ri)]. *)
Definition assignCandidate (key : string) (ri : RegionInfo)
    (st : balanceState) : option balanceState :=
  match appendRegion (bStore st) ri (bStoreTaskMap st) with
  | None => None
  | Some tasks =>
      let num := bTotalCandidateCopTaskNum st - 1 in
      let '(cands, total) :=
        dropCandidate key (AllStores ri) (bCandidates st)
          (bTotalCandidateStoreNum st) in
      if 0 <? num then
        match lenRegionInfos tasks (bStore st) with
        | None => None
        | Some n =>
            let possibleTaskNum :=
              projectedLoad cands (bAvgStorePerTask st) (bStore st) n in
            let avg := (float64 total / float64 num)%float in
            match reselect tasks cands avg (AllStores ri) (bStore st)
                    possibleTaskNum with
            | None => None
            | Some (store, possibleTaskNum') =>
                Some {| bStoreTaskMap := tasks;
                        bCandidates := cands;
                        bTotalCandidateStoreNum := total;
                        bTotalCandidateCopTaskNum := num;
                        bAvgStorePerTask := avg;
                        bStore := store;
                        bPossibleTaskNum := possibleTaskNum';
                        bRanges := S (bRanges st) |}
            end
        end
      else
        Some {| bStoreTaskMap := tasks;
                bCandidates := cands;
                bTotalCandidateStoreNum := total;
                bTotalCandidateCopTaskNum := num;
                bAvgStorePerTask := bAvgStorePerTask st;
                bStore := bStore st;
                bPossibleTaskNum := bPossibleTaskNum st;
                bRanges := S (bRanges st) |}
  end.

Definition skipRange (st : balanceState) : balanceState :=
  {| bStoreTaskMap := bStoreTaskMap st;
     bCandidates := bCandidates st;
     bTotalCandidateStoreNum := bTotalCandidateStoreNum st;
     bTotalCandidateCopTaskNum := bTotalCandidateCopTaskNum st;
     bAvgStorePerTask := bAvgStorePerTask st;
     bStore := bStore st;
     bPossibleTaskNum := bPossibleTaskNum st;
     bRanges := S (bRanges st) |}.

(** The loop [for totalCandidateStoreNum > 0], lines 185-210; one unit of
    fuel per iteration. *)
Fixpoint balanceLoop (fuel : nat) (st : balanceState) : outcome balanceState :=
  match fuel with
  | O => OutOfFuel
  | S fuel' =>
      if 0 <? bTotalCandidateStoreNum st then
        let st1 := refreshStore st in
        match firstCandidate st1 with
        | None => balanceLoop fuel' (skipRange st1)
        | Some (key, ri) =>
            match assignCandidate key ri st1 with
            | None => Panicked
            | Some st2 => balanceLoop fuel' st2
            end
        end
      else Returned st
  end.

(** [balanceBatchCopTask], lines 102-217. *)
Definition balanceBatchCopTask (fuel : nat) (originalTasks : list batchCopTask)
    : outcome (list batchCopTask) :=
  match pinTasks originalTasks ∅ with
  | None => Panicked
  | Some storeTaskMap =>
      match collectTasks originalTasks
              {| cStoreTaskMap := storeTaskMap;
                 cCandidates := ∅;
                 cTotalCandidateStoreNum := 0;
                 cTotalCandidateCopTaskNum := 0 |} with
      | GiveUp => Returned originalTasks
      | NilDeref => Panicked
      | Collected c =>
          let avgStorePerTask :=
            (float64 (cTotalCandidateStoreNum c)
             / float64 (cTotalCandidateCopTaskNum c))%float in
          if cTotalCandidateStoreNum c =? 0 then Returned originalTasks
          else
            let '(store, possibleTaskNum) :=
              findNextStore (mapOrder 0) (cStoreTaskMap c) (cCandidates c)
                avgStorePerTask in
            match balanceLoop fuel
                    {| bStoreTaskMap := cStoreTaskMap c;
                       bCandidates := cCandidates c;
                       bTotalCandidateStoreNum := cTotalCandidateStoreNum c;
                       bTotalCandidateCopTaskNum := cTotalCandidateCopTaskNum c;
                       bAvgStorePerTask := avgStorePerTask;
                       bStore := store;
                       bPossibleTaskNum := possibleTaskNum;
                       bRanges := 1 |} with
            | Returned st =>
                Returned
                  (map snd (shuffle (mapOrder (bRanges st))
                              (map_to_list (bStoreTaskMap st))))
            | Panicked => Panicked
            | OutOfFuel => OutOfFuel
            end
      end
  end.

End Balancer.
(** *** Properties of a balanced draft *)

(** The regions of a draft behind the first (pinned) one of each task, in
    the order the second loop visits them. *)
Definition nonPinnedRegions (tasks : list batchCopTask) : list RegionInfo :=
  flat_map (fun t => tail (regionInfos t)) tasks.

(** [t] starts with the pinned region of a task of the draft and is bound
    to the address and command of that task. *)
Definition keepsPin (originalTasks : list batchCopTask) (t : batchCopTask)
    : Prop :=
  exists t0 ri0,
    t0 ∈ originalTasks /\
    head (regionInfos t0) = Some ri0 /\
    head (regionInfos t) = Some ri0 /\
    storeAddr t = storeAddr t0 /\ cmdType t = cmdType t0.

(** Every region of [t] behind the first one is a region of the draft that
    was not pinned. *)
Definition restNotPinned (originalTasks : list batchCopTask)
    (t : batchCopTask) : Prop :=
  Forall (fun r => r ∈ nonPinnedRegions originalTasks) (tail (regionInfos t)).

(** All regions of a list of tasks. *)
Definition allRegions (tasks : list batchCopTask) : list RegionInfo :=
  flat_map regionInfos tasks.

(** The regions of the tasks of a store-task map. *)
Definition regionsOf (storeTaskMap : gmap Z batchCopTask) : list RegionInfo :=
  flat_map (fun e => regionInfos (snd e)) (map_to_list storeTaskMap).

(** Every task of the draft has a first region and that region a first
    store: the draft can be indexed as the first loop does. *)
Definition wellFormedDraft (tasks : list batchCopTask) : Prop :=
  Forall (fun t => is_Some (primaryStore t)) tasks.

(** The stores that get a task: the primary stores of the draft. *)
Definition participating (tasks : list batchCopTask) : list Z :=
  omap primaryStore tasks.

(** The valid stores of a region: the stores of [AllStores] that
    participate. *)
Definition validStores (tasks : list batchCopTask) (ri : RegionInfo)
    : list Z :=
  filter (fun s => s ∈ participating tasks) (AllStores ri).

(** The number the code calls [validStoreNum]. *)
Definition validStoreCount (tasks : list batchCopTask) (ri : RegionInfo) : Z :=
  if (length (AllStores ri) <=? 1)%nat then 1
  else lenZ (validStores tasks ri).

(** The regions that go to the candidate maps, in the order of the second
    loop. *)
Definition candidateRegions (tasks : list batchCopTask) : list RegionInfo :=
  filter (fun ri => validStoreCount tasks ri <> 1) (nonPinnedRegions tasks).

(** The stores of [ri.AllStores] that are keys of a store-task map. *)
Definition validStoresIn (storeTaskMap : gmap Z batchCopTask)
    (ri : RegionInfo) : list Z :=
  filter (fun s => is_Some (storeTaskMap !! s)) (AllStores ri).

(** [t] with [ri] appended to its regions. *)
Definition withRegion (t : batchCopTask) (ri : RegionInfo) : batchCopTask :=
  {| storeAddr := storeAddr t; cmdType := cmdType t; ctx := ctx t;
     regionInfos := regionInfos t ++ [ri] |}.

Section Insertions.
Variable regionKey : RegionVerID -> string.

(** The insertions [candidateMap[taskKey] = ri] of a region, as pairs of
    the store whose candidate map is written and the key. *)
Definition insertionsOf (ri : RegionInfo) : list (Z * string) :=
  map (fun s => (s, regionKey (Region ri))) (AllStores ri).

(** All insertions into candidate maps that the second loop attempts when
    it is not cut short. *)
Definition candidateInsertions (tasks : list batchCopTask)
    : list (Z * string) :=
  flat_map insertionsOf (candidateRegions tasks).

End Insertions.

(** The pinned regions of a draft: the first region of each task. *)
Definition pinnedRegions (tasks : list batchCopTask) : list RegionInfo :=
  omap (fun t => head (regionInfos t)) tasks.

(** Every store of every candidate region participates: no candidate has
    a replica on a store without a task. *)
Definition fullyValid (tasks : list batchCopTask) : Prop :=
  forall r, r ∈ candidateRegions tasks ->
  forall s, s ∈ AllStores r -> s ∈ participating tasks.


(** *** Invariants of the balancer *)

(** A task of the store-task map: it keeps the pinned region of a task of
    the draft in front, and what follows was not pinned. *)
Definition goodTask (originalTasks : list batchCopTask) (t : batchCopTask)
    : Prop :=
  keepsPin originalTasks t /\ restNotPinned originalTasks t.

(** The candidate maps hold regions of the draft that were not pinned. *)
Definition goodCands (originalTasks : list batchCopTask)
    (cands : gmap Z (gmap string RegionInfo)) : Prop :=
  forall s m k r, cands !! s = Some m -> m !! k = Some r ->
    r ∈ nonPinnedRegions originalTasks.

Definition goodCollect (originalTasks : list batchCopTask)
    (st : collectState) : Prop :=
  map_Forall (fun _ t => goodTask originalTasks t) (cStoreTaskMap st) /\
  goodCands originalTasks (cCandidates st).

Definition goodBalance (originalTasks : list batchCopTask)
    (st : balanceState) : Prop :=
  map_Forall (fun _ t => goodTask originalTasks t) (bStoreTaskMap st) /\
  goodCands originalTasks (bCandidates st).

(** The maps that stand for [storeTaskMap] of a draft [tasks]: their keys
    are the participating stores. *)
Definition keysOf (tasks : list batchCopTask) (m : gmap Z batchCopTask) : Prop :=
  forall s, is_Some (m !! s) <-> s ∈ participating tasks.

(** [holds cands s k r]: the candidate map of store [s] has [r] under
    the key [k]. *)
Definition holds (cands : gmap Z (gmap string RegionInfo)) (s : Z)
    (k : string) (r : RegionInfo) : Prop :=
  exists m, cands !! s = Some m /\ m !! k = Some r.

(** The candidate maps hold the regions of [rem], each under its key in
    the map of each of its stores, and no two of these entries collide. *)
Definition candInv (regionKey : RegionVerID -> string)
    (rem : list RegionInfo) (cands : gmap Z (gmap string RegionInfo)) : Prop :=
  NoDup (flat_map (insertionsOf regionKey) rem) /\
  forall s k r, holds cands s k r <->
    r ∈ rem /\ k = regionKey (Region r) /\ s ∈ AllStores r.

(** The sum of [f] over a list of regions. *)
Definition sumZ (f : RegionInfo -> Z) (l : list RegionInfo) : Z :=
  foldr (fun r acc => f r + acc) 0 l.

(** What the second loop has built when it has visited the regions
    [visited]: the candidate maps hold the candidates among them and the
    counters count them. *)
Definition collectInv (regionKey : RegionVerID -> string)
    (tasks : list batchCopTask) (visited : list RegionInfo)
    (st : collectState) : Prop :=
  let cs := filter (fun ri => validStoreCount tasks ri <> 1) visited in
  keysOf tasks (cStoreTaskMap st) /\
  candInv regionKey cs (cCandidates st) /\
  cTotalCandidateStoreNum st = sumZ (validStoreCount tasks) cs /\
  cTotalCandidateCopTaskNum st = lenZ cs.

(** The state of the main loop when the candidates [rem] are still to be
    assigned.  The counter never exceeds the number of entries the
    candidate maps of participating stores hold, and equals it when every
    store of every candidate participates. *)
Definition loopInv (regionKey : RegionVerID -> string)
    (tasks : list batchCopTask) (rem : list RegionInfo) (st : balanceState)
    : Prop :=
  keysOf tasks (bStoreTaskMap st) /\
  candInv regionKey rem (bCandidates st) /\
  (forall r, r ∈ rem -> r ∈ candidateRegions tasks) /\
  exists D, 0 <= D /\
    bTotalCandidateStoreNum st = sumZ (validStoreCount tasks) rem - D /\
    (fullyValid tasks -> D = 0).

(** The number of stores of a region, as the main loop counts them
    down. *)
Definition storeCount (r : RegionInfo) : Z := lenZ (AllStores r).

(** No task of the map has an RPC context. *)
Definition noContext (m : gmap Z batchCopTask) : Prop :=
  map_Forall (fun _ t => ctx t = None) m.

End Balance.

(** ** Errors (github.com/pingcap/errors, context, io, grpc status) *)

Inductive GrpcCode : Type :=
| CodeOK
| CodeCanceled
| CodeUnknown
| CodeDeadlineExceeded
| CodeUnavailable.

(** The error values the dispatcher tells apart.  [Traced e] is [e] with
    a stack attached by [errors.Trace]; [errors.Cause] looks through it. *)
Inductive error : Type :=
| ContextCanceled
| IoEOF
| GrpcStatus (code : GrpcCode)
| ErrorString (msg : string)
| ErrTiDBShuttingDown
| ErrTiFlashServerTimeout
| ErrQueryInterrupted
| Traced (e : error).

#[global] Instance GrpcCode_eq_dec : EqDecision GrpcCode.
Proof. solve_decision. Defined.
#[global] Instance error_eq_dec : EqDecision error.
Proof. solve_decision. Defined.

(** [errors.Cause]. *)
Fixpoint errorsCause (e : error) : error :=
  match e with
  | Traced e' => errorsCause e'
  | _ => e
  end.

(** [errors.Trace]: nil stays nil. *)
Definition errorsTrace (e : option error) : option error :=
  match e with
  | Some e' => Some (Traced e')
  | None => None
  end.

(** [status.Code] of a non-nil error. *)
Definition statusCode (e : error) : GrpcCode :=
  match e with
  | GrpcStatus c => c
  | _ => CodeUnknown
  end.

(** ** Requests and responses *)

Inductive BackoffType : Type :=
| BoTiFlashRPC
| BoTiKVRPC
| BoRegionMiss.

#[global] Instance BackoffType_eq_dec : EqDecision BackoffType.
Proof. solve_decision. Defined.

(** [backoffType.String]. *)
Definition backoffName (ty : BackoffType) : string :=
  match ty with
  | BoTiFlashRPC => "tiflashRPC"
  | BoTiKVRPC => "tikvRPC"
  | BoRegionMiss => "regionMiss"
  end.

Inductive StoreType : Type :=
| TiKV
| TiFlash
| TiDB.

(** [kv.Request], the fields [sendBatch] and its workers read. *)
Record kvRequest : Type := mkKvRequest {
  reqTp : Z;
  reqStartTs : Z;
  reqData : list Byte.byte;
  reqKeyRanges : list KeyRange;
  KeepOrder : bool;
  Desc : bool;
  reqStoreType : StoreType;
  reqSchemaVar : Z;
  reqIsolationLevel : Z;
  reqPriority : Z;
  reqNotFillCache : bool;
  reqTaskID : Z
}.

(** [coprocessor.RegionInfo]. *)
Record pbRegionInfo : Type := mkPbRegionInfo {
  pbRegionId : Z;
  pbConfVer : Z;
  pbVersion : Z;
  pbRanges : KeyRanges
}.

(** [coprocessor.BatchRequest]. *)
Record BatchRequest : Type := mkBatchRequest {
  brTp : Z;
  brStartTs : Z;
  brData : list Byte.byte;
  brSchemaVer : Z;
  brRegions : list pbRegionInfo
}.

(** [kvrpcpb.Context], the fields [handleTaskOnce] sets. *)
Record kvrpcpbContext : Type := mkKvrpcpbContext {
  pbIsolationLevel : Z;
  pbPriority : Z;
  pbNotFillCache : bool;
  pbRecordTimeStat : bool;
  pbRecordScanStat : bool;
  pbTaskId : Z
}.

(** [tikvrpc.Request]; [rpcStamp] is the region and peer [SetContext]
    writes. *)
Record Request : Type := mkRequest {
  rpcType : CmdType;
  rpcBody : BatchRequest;
  rpcContext : kvrpcpbContext;
  rpcStoreTp : StoreType;
  rpcStamp : option (RegionMeta * PeerMeta)
}.

(** [coprocessor.BatchResponse]. *)
Record BatchResponse : Type := mkBatchResponse {
  Data : list Byte.byte;
  OtherError : string
}.

(** [tikvrpc.Response]: what [Resp] holds.  For a batch coprocessor
    command it is a [*BatchCopStreamResponse] with the first message of
    the stream, nil when the stream ended at once. *)
Inductive Response : Type :=
| BatchCopStreamResponse (first : option BatchResponse)
| OtherResponse.

(** Go's [int64] arithmetic wraps around. *)
Definition wrapInt64 (z : Z) : Z :=
  (z + 2 ^ 63) mod 2 ^ 64 - 2 ^ 63.

(** [time.Millisecond], a [time.Duration]: an [int64] number of
    nanoseconds. *)
Definition Millisecond : Z := 1000000.

(** [time.Duration(ms) * time.Millisecond]: the product is an [int64]
    and wraps. *)
Definition durationOfMS (ms : Z) : Z := wrapInt64 (ms * Millisecond).

(** [CopRuntimeStats], the fields [handleBatchCopResponse] fills.
    [BackoffTime] and the values of [BackoffSleep] are of type
    [time.Duration]. *)
Record CopRuntimeStats : Type := mkCopRuntimeStats {
  BackoffTime : Z;
  BackoffSleep : gmap string Z;
  BackoffTimes : gmap string Z;
  CalleeAddress : string
}.

Definition newCopRuntimeStats : CopRuntimeStats :=
  {| BackoffTime := 0; BackoffSleep := ∅; BackoffTimes := ∅;
     CalleeAddress := "" |}.

(** [batchCopResponse]. *)
Record batchCopResponse : Type := mkBatchCopResponse {
  pbResp : option BatchResponse;
  detail : option CopRuntimeStats;
  startKey : list Byte.byte;
  err : option error;
  respSize : Z;
  respTime : Z
}.

(** [GetData]: [rs.pbResp.Data] dereferences [pbResp]. *)
Definition GetData (rs : batchCopResponse) : outcome (list Byte.byte) :=
  match pbResp rs with
  | Some r => Returned (Data r)
  | None => Panicked
  end.

(** [GetStartKey]. *)
Definition GetStartKey (rs : batchCopResponse) : list Byte.byte := startKey rs.

(** [GetCopRuntimeStats]. *)
Definition GetCopRuntimeStats (rs : batchCopResponse) : option CopRuntimeStats :=
  detail rs.

(** [RespTime]. *)
Definition RespTime (rs : batchCopResponse) : Z := respTime rs.

(** [copTask], the fields [buildBatchCopTasks] sets. *)
Record copTask : Type := mkCopTask {
  ctRegion : RegionVerID;
  ctRanges : KeyRanges;
  ctCmdType : CmdType;
  ctStoreType : StoreType
}.

(** ** Calls out of the dispatcher *)

(** What a goroutine of the dispatcher does to the rest of the system, in
    the order it does it.  A trace lists the latest event first. *)
Inductive Event : Type :=
| EvSendRequest (addr : string) (req : Request) (timeout : Z)
| EvCancel
| EvSetRPCError (e : error)
| EvRecordStats (cmd : CmdType)
| EvLoadShuttingDown
| EvNeedReloadRegion (rpcCtx : RPCContext)
| EvOnSendFail (store : Z) (regions : list RegionInfo) (needReload : bool)
    (e : error)
| EvBackoff (ty : BackoffType) (e : error)
| EvSplitKeyRanges (ranges : KeyRanges)
| EvGetTiFlashRPCContext (region : RegionVerID)
    (answer : option RPCContext + error)
| EvGetAllValidTiFlashStores (region : RegionVerID) (store : Z)
| EvObserveTasks (n : Z)
| EvRecv
| EvStreamClose
| EvSendToRespCh (resp : batchCopResponse)
| EvFinishSeen
| EvGoRun (tasks : list batchCopTask)
| EvWgDone
| EvCompareAndSwapClosed (swapped : bool)
| EvCloseFinishCh
| EvCancelAll
| EvWgWait
| EvCheckVisibility (startTs : Z).

(** The rest of the system: the region cache, the RPC client, the
    backoffer, the Go runtime.  Every answer may depend on all that
    happened before. *)
Record Env : Type := mkEnv {
  envRegionKey : RegionVerID -> string;
  envMapOrder : list Event -> nat -> list nat;
  envSetContext : Request -> RegionMeta -> PeerMeta -> option error;
  envSendRequest : list Event -> Response + error;
  envShuttingDown : list Event -> Z;
  envNeedReloadRegion : list Event -> bool;
  envBackoff : list Event -> option error;
  envSplitKeyRanges : list Event -> list (RegionVerID * KeyRanges) + error;
  envGetTiFlashRPCContext :
    list Event -> RegionVerID -> option RPCContext + error;
  envGetAllValidTiFlashStores : list Event -> list Z;
  envRecv : list Event -> BatchResponse + error;
  envSelectSend : list Event -> bool;
  envTotalSleep : list Event -> Z;
  envBackoffTimes : list Event -> list (BackoffType * Z);
  envBackoffSleepMS : list Event -> list (BackoffType * Z);
  envCheckVisibility : list Event -> option error
}.

(** A computation of a goroutine: from the trace so far to an outcome and
    the trace after it. *)
Definition M (A : Type) : Type := list Event -> outcome A * list Event.

Definition ret {A : Type} (a : A) : M A := fun tr => (Returned a, tr).

Definition bind {A B : Type} (m : M A) (k : A -> M B) : M B :=
  fun tr =>
    match m tr with
    | (Returned a, tr') => k a tr'
    | (Panicked, tr') => (Panicked, tr')
    | (OutOfFuel, tr') => (OutOfFuel, tr')
    end.

Notation "x <- m ;; k" := (bind m (fun x => k))
  (at level 100, m at next level, right associativity).
Notation "m ;;; k" := (bind m (fun _ => k))
  (at level 100, right associativity).

(** A call that returns nothing the caller reads. *)
Definition emit (e : Event) : M unit := fun tr => (Returned tt, e :: tr).

(** A call whose answer the caller reads; the callee sees the call. *)
Definition call {A : Type} (e : Event) (answer : list Event -> A) : M A :=
  fun tr => (Returned (answer (e :: tr)), e :: tr).

Definition panic {A : Type} : M A := fun tr => (Panicked, tr).
Definition outOfFuel {A : Type} : M A := fun tr => (OutOfFuel, tr).

(** [bo.Backoff(ty, e)]. *)
Definition Backoff (env : Env) (ty : BackoffType) (e : error)
    : M (option error) :=
  call (EvBackoff ty e) (envBackoff env).

(** A call that records the answer it got; the callee answers from what
    happened before the call. *)
Definition callLogged {A : Type} (mk : A -> Event) (answer : list Event -> A)
    : M A :=
  fun tr => (Returned (answer tr), mk (answer tr) :: tr).

(** ** The request sender (store/tikv/batch_request_sender.go) *)

(** What the sender reads of a [*Backoffer]: whether its context carries
    an [*RPCCanceller]. *)
Record Backoffer : Type := mkBackoffer {
  boHasCanceller : bool
}.

(** What [SendReqToAddr] reads of the sender: whether [Stats] is set. *)
Record RegionBatchRequestSender : Type := mkSender {
  ssHasStats : bool
}.

(** The [cancel] function handed back to the caller. *)
Inductive cancelFunc : Type :=
| CancelNothing
| CancelRPC.

Definition runCancel (c : cancelFunc) : M unit :=
  match c with
  | CancelNothing => ret tt
  | CancelRPC => emit EvCancel
  end.

(** [tikvrpc.SetContext] writes region and peer into the request. *)
Definition stampRequest (req : Request) (rpcCtx : RPCContext) : Request :=
  {| rpcType := rpcType req; rpcBody := rpcBody req;
     rpcContext := rpcContext req; rpcStoreTp := rpcStoreTp req;
     rpcStamp := Some (ctxMeta rpcCtx, Peer rpcCtx) |}.

(** [onSendFailForBatchRegions], lines 76-88. *)
Definition onSendFailForBatchRegions (env : Env) (bo : Backoffer)
    (rpcCtx : RPCContext) (regionInfos : list RegionInfo) (err : error)
    : M (option error) :=
  if bool_decide (errorsCause err = ContextCanceled)
     || bool_decide (statusCode (errorsCause err) = CodeCanceled)
  then ret (errorsTrace (Some err))
  else
    shuttingDown <- call EvLoadShuttingDown (envShuttingDown env) ;;
    if 0 <? shuttingDown then ret (Some ErrTiDBShuttingDown)
    else
      needReload <- call (EvNeedReloadRegion rpcCtx) (envNeedReloadRegion env) ;;
      emit (EvOnSendFail (Store rpcCtx) regionInfos needReload err) ;;;
      e <- Backoff env BoTiFlashRPC
             (ErrorString "send tikv request error, try next peer later") ;;
      ret (errorsTrace e).

(** [SendReqToAddr], lines 48-74.  The result is
    [(resp, retry, cancel, err)]. *)
Definition SendReqToAddr (env : Env) (ss : RegionBatchRequestSender)
    (bo : Backoffer) (rpcCtx : option RPCContext)
    (regionInfos : list RegionInfo) (req : Request) (timeout : Z)
    : M (option Response * bool * cancelFunc * option error) :=
  match rpcCtx with
  | None => panic
  | Some rpcCtx =>
      match envSetContext env req (ctxMeta rpcCtx) (Peer rpcCtx) with
      | Some e => ret (None, false, CancelNothing, errorsTrace (Some e))
      | None =>
          let req := stampRequest req rpcCtx in
          let cancel := if boHasCanceller bo then CancelRPC else CancelNothing in
          r <- call (EvSendRequest (Addr rpcCtx) req timeout)
                 (envSendRequest env) ;;
          (if ssHasStats ss then emit (EvRecordStats (rpcType req))
           else ret tt) ;;;
          match r with
          | inr err =>
              runCancel cancel ;;;
              emit (EvSetRPCError err) ;;;
              e <- onSendFailForBatchRegions env bo rpcCtx regionInfos err ;;
              match e with
              | Some e' =>
                  ret (None, false, CancelNothing, errorsTrace (Some e'))
              | None => ret (None, true, CancelNothing, None)
              end
          | inl resp => ret (Some resp, false, cancel, None)
          end
      end
  end.

(** ** The planner: [buildBatchCopTasks] *)

(** [append(batchCop.regionInfos, ri)] on the task stored for an
    address. *)
Definition addRegionInfo (t : batchCopTask) (ri : RegionInfo) : batchCopTask :=
  {| storeAddr := storeAddr t; cmdType := cmdType t; ctx := ctx t;
     regionInfos := regionInfos t ++ [ri] |}.

(** The loop of lines 243-269 over the cop tasks of one pass.  The result
    is the error of line 246, or the map and [needRetry]. *)
Fixpoint resolveTasks (env : Env) (tasks : list copTask)
    (storeTaskMap : gmap string batchCopTask) (needRetry : bool)
    : M (gmap string batchCopTask * bool + error) :=
  match tasks with
  | [] => ret (inl (storeTaskMap, needRetry))
  | task :: rest =>
      answer <- callLogged (EvGetTiFlashRPCContext (ctRegion task))
                  (fun tr => envGetTiFlashRPCContext env tr (ctRegion task)) ;;
      match answer with
      | inr e => ret (inr (Traced e))
      | inl None => resolveTasks env rest storeTaskMap true
      | inl (Some rpcCtx) =>
          allStores <- call (EvGetAllValidTiFlashStores (ctRegion task)
                               (Store rpcCtx))
                         (envGetAllValidTiFlashStores env) ;;
          let ri := {| Region := ctRegion task; Meta := ctxMeta rpcCtx;
                       Ranges := ctRanges task; AllStores := allStores |} in
          match storeTaskMap !! Addr rpcCtx with
          | Some batchCop =>
              resolveTasks env rest
                (<[Addr rpcCtx := addRegionInfo batchCop ri]> storeTaskMap)
                needRetry
          | None =>
              let batchTask :=
                {| storeAddr := Addr rpcCtx; cmdType := CmdBatchCop;
                   ctx := Some rpcCtx; regionInfos := [ri] |} in
              resolveTasks env rest (<[Addr rpcCtx := batchTask]> storeTaskMap)
                needRetry
          end
      end
  end.

(** The iterations of the balancer's main loop never exceed the number of
    regions that are not pinned, plus the one that leaves the loop. *)
Definition balanceFuel (tasks : list batchCopTask) : nat :=
  S (length (Balance.nonPinnedRegions tasks)).

(** The error handed to the backoffer when a region has no TiFlash peer
    in the cache. *)
Definition regionMissError : error :=
  ErrorString "Cannot find region with TiFlash peer".

(** What one pass of the [for] loop of [buildBatchCopTasks] ends in. *)
Inductive pass : Type :=
| PassFailed (e : error)
| PassRetry
| PassDone (tasks : list batchCopTask).

(** The cop tasks [appendTask] collects from [SplitKeyRanges],
    lines 224-232. *)
Definition copTasksOf (storeType : StoreType)
    (located : list (RegionVerID * KeyRanges)) : list copTask :=
  map (fun '(region, rs) =>
         {| ctRegion := region; ctRanges := rs;
            ctCmdType := CmdBatchCop; ctStoreType := storeType |})
    located.

(** Lines 279-291: the tasks of the map, in the order the [range] yields
    them, go through the balancer; their number is observed. *)
Definition balancePass (env : Env) (storeTaskMap : gmap string batchCopTask)
    : M pass :=
  fun tr =>
    let order := envMapOrder env tr in
    let batchTasks := map snd (shuffle (order O) (map_to_list storeTaskMap)) in
    match Balance.balanceBatchCopTask (envRegionKey env)
            (fun k => order (S k)) (balanceFuel batchTasks) batchTasks with
    | Returned balanced =>
        (Returned (PassDone balanced),
         EvObserveTasks (Balance.lenZ balanced) :: tr)
    | Panicked => (Panicked, tr)
    | OutOfFuel => (OutOfFuel, tr)
    end.

(** One pass, lines 224-291.  Logging and the clock are left out. *)
Definition planPass (env : Env) (ranges : KeyRanges) (storeType : StoreType)
    : M pass :=
  split <- call (EvSplitKeyRanges ranges) (envSplitKeyRanges env) ;;
  match split with
  | inr e => ret (PassFailed (Traced e))
  | inl located =>
      resolved <- resolveTasks env (copTasksOf storeType located) ∅ false ;;
      match resolved with
      | inr e => ret (PassFailed e)
      | inl (storeTaskMap, true) =>
          e <- Backoff env BoRegionMiss regionMissError ;;
          match e with
          | Some e' => ret (PassFailed (Traced e'))
          | None => ret PassRetry
          end
      | inl (storeTaskMap, false) => balancePass env storeTaskMap
      end
  end.

(** [buildBatchCopTasks], lines 219-293: passes until one does not ask
    for a retry.  One unit of fuel per pass. *)
Fixpoint buildBatchCopTasks (env : Env) (fuel : nat) (ranges : KeyRanges)
    (storeType : StoreType) : M (list batchCopTask + error) :=
  match fuel with
  | O => outOfFuel
  | S fuel' =>
      p <- planPass env ranges storeType ;;
      match p with
      | PassFailed e => ret (inr e)
      | PassRetry => buildBatchCopTasks env fuel' ranges storeType
      | PassDone tasks => ret (inl tasks)
      end
  end.

(** ** The stream consumer and the task handler *)

(** [sendToRespCh], lines 554-561: the [select] sends or sees [finishCh]
    closed; the result is [exit]. *)
Definition sendToRespCh (env : Env) (resp : batchCopResponse) : M bool :=
  fun tr =>
    if envSelectSend env tr then (Returned false, EvSendToRespCh resp :: tr)
    else (Returned true, EvFinishSeen :: tr).

(** The loop of lines 542-546 over [bo.GetBackoffTimes()]. *)
Fixpoint fillBackoff (times sleepMS : list (BackoffType * Z))
    (stats : CopRuntimeStats) : CopRuntimeStats :=
  match times with
  | [] => stats
  | (backoff, n) :: rest =>
      let ms :=
        match List.find (fun e => bool_decide (fst e = backoff)) sleepMS with
        | Some (_, ms) => ms
        | None => 0
        end in
      fillBackoff rest sleepMS
        {| BackoffTime := BackoffTime stats;
           BackoffSleep := <[backoffName backoff := durationOfMS ms]>
                             (BackoffSleep stats);
           BackoffTimes := <[backoffName backoff := n]> (BackoffTimes stats);
           CalleeAddress := CalleeAddress stats |}
  end.

(** [handleBatchCopResponse], lines 523-552. *)
Definition handleBatchCopResponse (env : Env) (response : BatchResponse)
    (task : batchCopTask) : M (option error) :=
  if negb (String.eqb (OtherError response) "") then
    ret (errorsTrace (Some (ErrorString
           (String.append "other error: " (OtherError response)))))
  else
    fun tr =>
      let stats :=
        fillBackoff (envBackoffTimes env tr) (envBackoffSleepMS env tr)
          {| BackoffTime := durationOfMS (envTotalSleep env tr);
             BackoffSleep := ∅; BackoffTimes := ∅;
             CalleeAddress := "" |} in
      let resp :=
        {| pbResp := Some response;
           detail := Some {| BackoffTime := BackoffTime stats;
                             BackoffSleep := BackoffSleep stats;
                             BackoffTimes := BackoffTimes stats;
                             CalleeAddress := storeAddr task |};
           startKey := []; err := None; respSize := 0; respTime := 0 |} in
      (_ <- sendToRespCh env resp ;; ret None) tr.

(** The [for] loop of [handleStreamedBatchCopResponse], lines 497-520;
    one unit of fuel per message of the stream. *)
Fixpoint streamLoop (env : Env) (fuel : nat) (resp : BatchResponse)
    (task : batchCopTask) : M (option error) :=
  match fuel with
  | O => outOfFuel
  | S fuel' =>
      e <- handleBatchCopResponse env resp task ;;
      match e with
      | Some e' => ret (errorsTrace (Some e'))
      | None =>
          r <- call EvRecv (envRecv env) ;;
          match r with
          | inl resp' => streamLoop env fuel' resp' task
          | inr e' =>
              if bool_decide (errorsCause e' = IoEOF) then ret None
              else
                err1 <- Backoff env BoTiKVRPC
                          (ErrorString "recv stream response error") ;;
                match err1 with
                | Some _ => ret (errorsTrace (Some e'))
                | None => ret (Some ErrTiFlashServerTimeout)
                end
          end
      end
  end.

(** [handleStreamedBatchCopResponse], lines 490-521.  [response.Close()]
    is deferred. *)
Definition handleStreamedBatchCopResponse (env : Env) (fuel : nat)
    (first : option BatchResponse) (task : batchCopTask) : M (option error) :=
  match first with
  | None => emit EvStreamClose ;;; ret None
  | Some resp =>
      e <- streamLoop env fuel resp task ;;
      emit EvStreamClose ;;;
      ret e
  end.

(** What the workers read of the iterator. *)
Record workerConfig : Type := mkWorkerConfig {
  wReq : kvRequest;
  wBackoffer : Backoffer
}.

(** [retryBatchCopTask], lines 435-443. *)
Definition retryBatchCopTask (env : Env) (fuel : nat) (cfg : workerConfig)
    (batchTask : batchCopTask) : M (list batchCopTask + error) :=
  let ranges := flat_map Ranges (regionInfos batchTask) in
  buildBatchCopTasks env fuel ranges (reqStoreType (wReq cfg)).

(** The wire request of lines 447-475. *)
Definition batchRequestOf (cfg : workerConfig) (task : batchCopTask) : Request :=
  {| rpcType := cmdType task;
     rpcBody :=
       {| brTp := reqTp (wReq cfg);
          brStartTs := reqStartTs (wReq cfg);
          brData := reqData (wReq cfg);
          brSchemaVer := reqSchemaVar (wReq cfg);
          brRegions :=
            map (fun ri =>
                   {| pbRegionId := regionID (Region ri);
                      pbConfVer := regionConfVer (Region ri);
                      pbVersion := regionVer (Region ri);
                      pbRanges := Ranges ri |})
              (regionInfos task) |};
     rpcContext :=
       {| pbIsolationLevel := reqIsolationLevel (wReq cfg);
          pbPriority := reqPriority (wReq cfg);
          pbNotFillCache := reqNotFillCache (wReq cfg);
          pbRecordTimeStat := true;
          pbRecordScanStat := true;
          pbTaskId := reqTaskID (wReq cfg) |};
     rpcStoreTp := TiFlash;
     rpcStamp := None |}.

(** [tikv.ReadTimeoutUltraLong], in seconds. *)
Definition ReadTimeoutUltraLong : Z := 3600.

(** [handleTaskOnce], lines 445-488.  The result is the pair
    [(tasks, err)] of the Go function. *)
Definition handleTaskOnce (env : Env) (fuel : nat) (cfg : workerConfig)
    (task : batchCopTask) : M (list batchCopTask * option error) :=
  let req := batchRequestOf cfg task in
  sent <- SendReqToAddr env {| ssHasStats := false |} (wBackoffer cfg)
            (ctx task) (regionInfos task) req ReadTimeoutUltraLong ;;
  let '(resp, retry, cancel, e) := sent in
  if retry then
    r <- retryBatchCopTask env fuel cfg task ;;
    match r with
    | inl tasks => ret (tasks, None)
    | inr e' => ret ([], Some e')
    end
  else
    match e with
    | Some e' => ret ([], errorsTrace (Some e'))
    | None =>
        match resp with
        | Some (BatchCopStreamResponse first) =>
            e' <- handleStreamedBatchCopResponse env fuel first task ;;
            runCancel cancel ;;;
            ret ([], e')
        | _ => panic
        end
    end.

(** The loop of [handleTask], lines 421-430, at index [idx] of [tasks];
    one unit of fuel per task handled. *)
Fixpoint handleTaskLoop (env : Env) (fuel : nat) (cfg : workerConfig)
    (tasks : list batchCopTask) (idx : nat) : M unit :=
  match fuel with
  | O => outOfFuel
  | S fuel' =>
      match tasks !! idx with
      | None => ret tt
      | Some t =>
          once <- handleTaskOnce env fuel' cfg t ;;
          let '(more, e) := once in
          match e with
          | Some e' =>
              _ <- sendToRespCh env
                     {| pbResp := None; detail := Some newCopRuntimeStats;
                        startKey := []; err := errorsTrace (Some e');
                        respSize := 0; respTime := 0 |} ;;
              ret tt
          | None => handleTaskLoop env fuel' cfg (tasks ++ more) (S idx)
          end
      end
  end.

(** [handleTask], lines 420-432. *)
Definition handleTask (env : Env) (fuel : nat) (cfg : workerConfig)
    (task : batchCopTask) : M unit :=
  handleTaskLoop env fuel cfg [task] O ;;;
  emit EvWgDone.

(** The responses a goroutine has put on [respChan], oldest first. *)
Fixpoint sentResponses (tr : list Event) : list batchCopResponse :=
  match tr with
  | [] => []
  | EvSendToRespCh resp :: tr' => sentResponses tr' ++ [resp]
  | _ :: tr' => sentResponses tr'
  end.

(** ** The iterator *)

(** [batchCopIterator], the fields that [Next] and [Close] read and
    write.  [respChan] lists the buffered responses, oldest first;
    [respChanClosed] and [finishChClosed] tell whether the channel has been
    closed. *)
Record batchCopIterator : Type := mkIterator {
  itReq : kvRequest;
  itTasks : list batchCopTask;
  respChan : list batchCopResponse;
  respChanClosed : bool;
  finishChClosed : bool;
  closed : Z
}.

Definition setClosed (it : batchCopIterator) (v : Z) : batchCopIterator :=
  {| itReq := itReq it; itTasks := itTasks it; respChan := respChan it;
     respChanClosed := respChanClosed it;
     finishChClosed := finishChClosed it; closed := v |}.

Definition setFinishChClosed (it : batchCopIterator) : batchCopIterator :=
  {| itReq := itReq it; itTasks := itTasks it; respChan := respChan it;
     respChanClosed := respChanClosed it;
     finishChClosed := true; closed := closed it |}.

Definition setRespChan (it : batchCopIterator) (q : list batchCopResponse)
    : batchCopIterator :=
  {| itReq := itReq it; itTasks := itTasks it; respChan := q;
     respChanClosed := respChanClosed it;
     finishChClosed := finishChClosed it; closed := closed it |}.

(** [atomic.CompareAndSwapUint32(&b.closed, 0, 1)] followed by
    [close(b.finishCh)] when it swapped, lines 401-403 and 412-414.
    Closing a closed channel panics. *)
Definition closeFinishOnce (it : batchCopIterator) : M batchCopIterator :=
  if closed it =? 0 then
    emit (EvCompareAndSwapClosed true) ;;;
    if finishChClosed it then panic
    else emit EvCloseFinishCh ;;; ret (setFinishChClosed (setClosed it 1))
  else
    emit (EvCompareAndSwapClosed false) ;;; ret it.

(** [Close], lines 411-418.  [wg.Wait()] returns once every worker has
    called [wg.Done()]. *)
Definition Close (it : batchCopIterator)
    : M (batchCopIterator * option error) :=
  it' <- closeFinishOnce it ;;
  emit EvCancelAll ;;;
  emit EvWgWait ;;;
  ret (it', None).

(** The case of the [select] of [recvFromRespCh] that the runtime picks.
    [SelTick killed] carries the value loaded from [vars.Killed]. *)
Inductive selectCase : Type :=
| SelRespChan
| SelTick (killed : Z)
| SelFinishCh
| SelCtxDone.

(** The response [recvFromRespCh] makes up when the query was killed. *)
Definition interruptedResponse : batchCopResponse :=
  {| pbResp := None; detail := None; startKey := [];
     err := Some ErrQueryInterrupted; respSize := 0; respTime := 0 |}.

(** [recvFromRespCh], lines 383-408, under the picks [choices] of the
    runtime: a pick of a case that is not ready is passed over.  The
    result is [(resp, ok, exit)]. *)
Fixpoint recvFromRespCh (choices : list selectCase) (it : batchCopIterator)
    : M (batchCopIterator * (option batchCopResponse * bool * bool)) :=
  match choices with
  | [] => outOfFuel
  | SelRespChan :: rest =>
      match respChan it with
      | resp :: q => ret (setRespChan it q, (Some resp, true, false))
      | [] =>
          if respChanClosed it then ret (it, (None, false, false))
          else recvFromRespCh rest it
      end
  | SelTick killed :: rest =>
      if killed =? 1 then ret (it, (Some interruptedResponse, true, false))
      else recvFromRespCh rest it
  | SelFinishCh :: rest =>
      if finishChClosed it then ret (it, (None, false, true))
      else recvFromRespCh rest it
  | SelCtxDone :: rest =>
      it' <- closeFinishOnce it ;;
      ret (it', (None, false, true))
  end.

(** [Next], lines 359-381.  The result is [(resultSubset, err)]. *)
Definition Next (env : Env) (choices : list selectCase)
    (it : batchCopIterator)
    : M (batchCopIterator * (option batchCopResponse * option error)) :=
  r <- recvFromRespCh choices it ;;
  let '(it', (resp, ok, exit)) := r in
  if negb ok || exit then ret (it', (None, None))
  else
    match resp with
    | None => panic
    | Some resp' =>
        match err resp' with
        | Some e => ret (it', (None, errorsTrace (Some e)))
        | None =>
            e <- call (EvCheckVisibility (reqStartTs (itReq it')))
                   (envCheckVisibility env) ;;
            match e with
            | Some e' => ret (it', (None, errorsTrace (Some e')))
            | None => ret (it', (Some resp', None))
            end
        end
    end.

(** [kv.Response]: what [sendBatch] returns. *)
Inductive kvResponse : Type :=
| copErrorResponse (e : error)
| batchCopIteratorResponse (it : batchCopIterator).

(** Modelled from the spec: [copErrorResponse.Next], declared in
    store/copr/coprocessor.go and not part of the sources at hand: "iterator
    construction returns an error result immediately on first next". *)
Definition copErrorResponse_Next (e : error)
    : option batchCopResponse * option error :=
  (None, Some e).

(** The iterator of lines 305-316: both channels fresh, [closed] zero. *)
Definition newIterator (req : kvRequest) (tasks : list batchCopTask)
    : batchCopIterator :=
  {| itReq := req; itTasks := tasks; respChan := [];
     respChanClosed := false; finishChClosed := false; closed := 0 |}.

(** [copBuildTaskMaxBackoff] bounds the sleep of the planner's backoffer,
    not the number of passes; the model takes the number of passes it may
    follow as [fuel]. *)

(** [sendBatch], lines 295-319. *)
Definition sendBatch (env : Env) (fuel : nat) (req : kvRequest)
    : M kvResponse :=
  if KeepOrder req || Desc req then
    ret (copErrorResponse
           (ErrorString
              "batch coprocessor cannot prove keep order or desc property"))
  else
    r <- buildBatchCopTasks env fuel (reqKeyRanges req) (reqStoreType req) ;;
    match r with
    | inr e => ret (copErrorResponse e)
    | inl tasks =>
        let it := newIterator req tasks in
        emit (EvGoRun tasks) ;;;
        ret (batchCopIteratorResponse it)
    end.

(** [run], lines 346-355: the workers it starts, one per task, each with a
    backoffer whose context carries the iterator's [rpcCancel]. *)
Definition run (env : Env) (fuel : nat) (it : batchCopIterator)
    : list (M unit) :=
  map (handleTask env fuel
         {| wReq := itReq it; wBackoffer := {| boHasCanceller := true |} |})
    (itTasks it).

(** ** Reading traces *)

(** The error is one the sender does not retry: its cause is
    [context.Canceled] or a gRPC status with code [Canceled]. *)
Definition isCanceled (e : error) : bool :=
  bool_decide (errorsCause e = ContextCanceled)
  || bool_decide (statusCode (errorsCause e) = CodeCanceled).

(** The trace of [SendReqToAddr] once [SendRequest] has failed with [e]:
    the request went out, statistics were recorded if attached, the
    in-flight RPC was cancelled if a canceller was registered, and the
    error was kept with [SetRPCError]. *)
Definition failedSendTrace (ss : RegionBatchRequestSender) (bo : Backoffer)
    (rpcCtx : RPCContext) (req : Request) (timeout : Z) (e : error)
    (tr : list Event) : list Event :=
  [EvSetRPCError e]
  ++ (if boHasCanceller bo then [EvCancel] else [])
  ++ (if ssHasStats ss then [EvRecordStats (rpcType req)] else [])
  ++ EvSendRequest (Addr rpcCtx) (stampRequest req rpcCtx) timeout :: tr.

(** The stream hands out the messages [msgs] after [resp], none with an
    other-error, and then fails with [e]; [tr] is the trace when [resp] is
    about to be handled. *)
Fixpoint streamDelivers (env : Env) (task : batchCopTask) (resp : BatchResponse)
    (msgs : list BatchResponse) (e : error) (tr : list Event) : Prop :=
  OtherError resp = "" /\
  let tr1 := EvRecv :: snd (handleBatchCopResponse env resp task tr) in
  match msgs with
  | [] => envRecv env tr1 = inr e
  | m :: rest => envRecv env tr1 = inl m /\ streamDelivers env task m rest e tr1
  end.

(** The trace when that failure has been received. *)
Fixpoint streamTrace (env : Env) (task : batchCopTask) (resp : BatchResponse)
    (msgs : list BatchResponse) (tr : list Event) : list Event :=
  let tr1 := EvRecv :: snd (handleBatchCopResponse env resp task tr) in
  match msgs with
  | [] => tr1
  | m :: rest => streamTrace env task m rest tr1
  end.

(** The number of [Recv] calls, of backoffs of a type and of closes of
    [finishCh] in a trace. *)
Definition isRecv (ev : Event) : bool :=
  match ev with
  | EvRecv => true
  | _ => false
  end.

Definition countRecv (tr : list Event) : nat :=
  length (List.filter isRecv tr).

Definition isBackoff (ty : BackoffType) (ev : Event) : bool :=
  match ev with
  | EvBackoff ty' _ => bool_decide (ty' = ty)
  | _ => false
  end.

Definition countBackoff (ty : BackoffType) (tr : list Event) : nat :=
  length (List.filter (isBackoff ty) tr).

Definition isCasWin (ev : Event) : bool :=
  match ev with
  | EvCompareAndSwapClosed true => true
  | _ => false
  end.

Definition isCloseFinishCh (ev : Event) : bool :=
  match ev with
  | EvCloseFinishCh => true
  | _ => false
  end.

(** How often the compare-and-swap on [closed] has succeeded, and how
    often [finishCh] has been closed. *)
Definition countCasWins (tr : list Event) : nat :=
  length (List.filter isCasWin tr).

Definition countFinishCloses (tr : list Event) : nat :=
  length (List.filter isCloseFinishCh tr).

(** What happens to an iterator in its life: the caller calls [Close] or
    [Next]; a worker puts a response on [respChan]; [run] closes
    [respChan]. *)
Inductive iterStep : Type :=
| CallClose
| CallNext (choices : list selectCase)
| WorkerSends (resp : batchCopResponse)
| RunClosesRespChan.

Definition setRespChanClosed (it : batchCopIterator) : batchCopIterator :=
  {| itReq := itReq it; itTasks := itTasks it; respChan := respChan it;
     respChanClosed := true;
     finishChClosed := finishChClosed it; closed := closed it |}.

Fixpoint runSteps (env : Env) (steps : list iterStep) (it : batchCopIterator)
    : M batchCopIterator :=
  match steps with
  | [] => ret it
  | CallClose :: rest =>
      r <- Close it ;; runSteps env rest (fst r)
  | CallNext choices :: rest =>
      r <- Next env choices it ;; runSteps env rest (fst r)
  | WorkerSends resp :: rest =>
      runSteps env rest (setRespChan it (respChan it ++ [resp]))
  | RunClosesRespChan :: rest =>
      runSteps env rest (setRespChanClosed it)
  end.

(** The lookups [GetTiFlashRPCContext] of a trace with their answers,
    oldest first. *)
Fixpoint lookupsOf (tr : list Event)
    : list (RegionVerID * (option RPCContext + error)) :=
  match tr with
  | [] => []
  | EvGetTiFlashRPCContext r a :: tr' => lookupsOf tr' ++ [(r, a)]
  | _ :: tr' => lookupsOf tr'
  end.

(** Every lookup of an RPC context in [seg], a stretch of trace that
    follows [tr], carries the answer the cache gives at that point. *)
Fixpoint cacheAnswered (env : Env) (tr seg : list Event) : Prop :=
  match seg with
  | [] => True
  | ev :: rest =>
      match ev with
      | EvGetTiFlashRPCContext r a =>
          a = envGetTiFlashRPCContext env (rest ++ tr) r
      | _ => True
      end /\ cacheAnswered env tr rest
  end.

(** A response is fit for [Next]: it has a payload, or it has an error and
    [Next] turns it into a Go error. *)
Definition carriesPayloadOrError (resp : batchCopResponse) : Prop :=
  is_Some (err resp) \/ is_Some (pbResp resp).

(** *** Invariants of the iterator and of the workers *)

(** [closed] is zero until the one successful compare-and-swap, which is
    followed by the one close of [finishCh]; [tr0] is the trace when the
    iterator was built. *)
Definition closeInv (tr0 : list Event) (it : batchCopIterator)
    (tr : list Event) : Prop :=
  (closed it = 0 /\ finishChClosed it = false /\
   countCasWins tr = countCasWins tr0 /\
   countFinishCloses tr = countFinishCloses tr0) \/
  (closed it <> 0 /\
   countCasWins tr = S (countCasWins tr0) /\
   countFinishCloses tr = S (countFinishCloses tr0)).

(** [m] puts only responses with [P] on [respChan]. *)
Definition sendsOnly {A : Type} (P : batchCopResponse -> Prop) (m : M A)
    : Prop :=
  forall tr out tr', m tr = (out, tr') ->
    Forall P (sentResponses tr) -> Forall P (sentResponses tr').

(** An event other than a send on [respChan]. *)
Definition notSend (ev : Event) : Prop :=
  match ev with
  | EvSendToRespCh _ => False
  | _ => True
  end.

(** A rendering of [RegionVerID.String] for the examples. *)
Definition showRegion (r : RegionVerID) : string :=
  String.append "region "
    (String.append (pretty (regionID r))
       (String.append "/" (String.append (pretty (regionVer r))
          (String.append "/" (pretty (regionConfVer r)))))).

Definition rinfo (id : Z) (stores : list Z) : RegionInfo :=
  {| Region := {| regionID := id; regionConfVer := 1; regionVer := 1 |};
     Meta := id; Ranges := []; AllStores := stores |}.
Definition task (addr : string) (ris : list RegionInfo) : batchCopTask :=
  {| storeAddr := addr; cmdType := CmdBatchCop; ctx := None; regionInfos := ris |}.

(** Two stores with a task each; three more regions of store 1 have
    replicas on stores 1 and 2 and on one further store that has no task. *)
Definition draftThirdReplica : list batchCopTask :=
  [ task "s1" [rinfo 10 [1]; rinfo 11 [1; 2; 3]; rinfo 12 [1; 2; 4];
               rinfo 13 [1; 2; 5]];
    task "s2" [rinfo 20 [2]] ].

(** Three regions with replicas on both participating stores. *)
Definition draftTwoStores : list batchCopTask :=
  [ task "s1" [rinfo 10 [1]; rinfo 11 [1; 2]; rinfo 12 [1; 2]; rinfo 13 [1; 2]];
    task "s2" [rinfo 20 [2]] ].

(** Region 11 is listed twice. *)
Definition draftRepeated : list batchCopTask :=
  [ task "s1" [rinfo 10 [1]; rinfo 11 [1; 2]; rinfo 11 [1; 2]];
    task "s2" [rinfo 20 [2]] ].

(** Region 11 sits in the task of store 1, but its only replica on a
    participating store is on store 2. *)
Definition draftStray : list batchCopTask :=
  [ task "s1" [rinfo 10 [1]; rinfo 11 [2; 3]; rinfo 12 [1; 2]];
    task "s2" [rinfo 20 [2]] ].

(** Three regions of store 1 have replicas on stores 1 and 2 and on
    store 3, which has no task. *)
Definition draftSharedThird : list batchCopTask :=
  [ task "s1" [rinfo 10 [1]; rinfo 11 [1; 2; 3]; rinfo 12 [1; 2; 3];
               rinfo 13 [1; 2; 3]];
    task "s2" [rinfo 20 [2]] ].

(** The order in which an unseeded [range] visits the maps. *)
Definition plainOrder : nat -> list nat := fun _ => [].

(** *** Environments for the examples *)

(** An environment given by the answers of the RPC client, the stream, the
    backoffer and the region cache; nothing else goes wrong in it. *)
Definition exampleEnv
    (send : list Event -> Response + error)
    (recv : list Event -> BatchResponse + error)
    (backoff : list Event -> option error)
    (lookup : list Event -> RegionVerID -> option RPCContext + error)
    (split : list Event -> list (RegionVerID * KeyRanges) + error)
    (allStores : list Event -> list Z) : Env :=
  {| envRegionKey := showRegion;
     envMapOrder := fun _ _ => [];
     envSetContext := fun _ _ _ => None;
     envSendRequest := send;
     envShuttingDown := fun _ => 0;
     envNeedReloadRegion := fun _ => false;
     envBackoff := backoff;
     envSplitKeyRanges := split;
     envGetTiFlashRPCContext := lookup;
     envGetAllValidTiFlashStores := allStores;
     envRecv := recv;
     envSelectSend := fun _ => true;
     envTotalSleep := fun _ => 0;
     envBackoffTimes := fun _ => [];
     envBackoffSleepMS := fun _ => [];
     envCheckVisibility := fun _ => None |}.

Definition ctxStore1 : RPCContext :=
  {| Addr := "s1"; ctxMeta := 10; Peer := 1; Store := 1 |}.

Definition region10 : RegionVerID :=
  {| regionID := 10; regionConfVer := 1; regionVer := 1 |}.

Definition payload (b : Byte.byte) : BatchResponse :=
  {| Data := [b]; OtherError := "" |}.

(** The connection breaks on every send; the backoffer lets retry. *)
Definition brokenSendEnv : Env :=
  exampleEnv (fun _ => inr (ErrorString "broken pipe"))
    (fun _ => inr IoEOF) (fun _ => None)
    (fun _ _ => inl (Some ctxStore1)) (fun _ => inl [(region10, [])])
    (fun _ => [1]).

(** The stream hands out one more message and then breaks. *)
Definition brokenStreamEnv : Env :=
  exampleEnv (fun _ => inl (BatchCopStreamResponse (Some (payload Byte.x01))))
    (fun tr => if (countRecv tr <=? 1)%nat then inl (payload Byte.x02)
               else inr (ErrorString "connection reset"))
    (fun _ => None)
    (fun _ _ => inl (Some ctxStore1)) (fun _ => inl [(region10, [])])
    (fun _ => [1]).

(** The cache has lost region 10 at the first lookup and knows it again
    afterwards; the stream ends after its first message. *)
Definition staleCacheEnv : Env :=
  exampleEnv (fun _ => inl (BatchCopStreamResponse (Some (payload Byte.x01))))
    (fun _ => inr IoEOF) (fun _ => None)
    (fun tr _ => if (length (lookupsOf tr) =? 0)%nat then inl None
                 else inl (Some ctxStore1))
    (fun _ => inl [(region10, [])])
    (fun _ => [1]).

Definition plainRequest : kvRequest :=
  {| reqTp := 103; reqStartTs := 42; reqData := []; reqKeyRanges := [];
     KeepOrder := false; Desc := false; reqStoreType := TiFlash;
     reqSchemaVar := 0; reqIsolationLevel := 0; reqPriority := 0;
     reqNotFillCache := false; reqTaskID := 7 |}.

Definition orderedRequest : kvRequest :=
  {| reqTp := 103; reqStartTs := 42; reqData := []; reqKeyRanges := [];
     KeepOrder := true; Desc := false; reqStoreType := TiFlash;
     reqSchemaVar := 0; reqIsolationLevel := 0; reqPriority := 0;
     reqNotFillCache := false; reqTaskID := 7 |}.

Definition plainWorker : workerConfig :=
  {| wReq := plainRequest; wBackoffer := {| boHasCanceller := true |} |}.

Definition taskStore1 : batchCopTask :=
  {| storeAddr := "s1"; cmdType := CmdBatchCop; ctx := Some ctxStore1;
     regionInfos := [ {| Region := region10; Meta := 10; Ranges := [];
                         AllStores := [1] |} ] |}.

Definition ctxStore2 : RPCContext :=
  {| Addr := "s2"; ctxMeta := 20; Peer := 2; Store := 2 |}.

(** [draftTwoStores] as the planner builds it, every task with the RPC
    context of its store. *)
Definition draftWithContexts : list batchCopTask :=
  [ {| storeAddr := "s1"; cmdType := CmdBatchCop; ctx := Some ctxStore1;
       regionInfos := [rinfo 10 [1]; rinfo 11 [1; 2]; rinfo 12 [1; 2];
                       rinfo 13 [1; 2]] |};
    {| storeAddr := "s2"; cmdType := CmdBatchCop; ctx := Some ctxStore2;
       regionInfos := [rinfo 20 [2]] |} ].

(** *** The balancer seen from its caller *)

(** What the first loop copies of a draft task: the store address, the
    command type and the first region. *)
Definition pinOf (t : batchCopTask) : string * CmdType * option RegionInfo :=
  (storeAddr t, cmdType t, head (regionInfos t)).

(** The pins of the tasks of a store-task map. *)
Definition pinsOf (storeTaskMap : gmap Z batchCopTask)
    : list (string * CmdType * option RegionInfo) :=
  map (fun e => pinOf (snd e)) (map_to_list storeTaskMap).

(** Every task of the map has a first region. *)
Definition allPinned (storeTaskMap : gmap Z batchCopTask) : Prop :=
  map_Forall (fun _ t => is_Some (head (regionInfos t))) storeTaskMap.

(** Every region of store 1 has its single replica there. *)
Definition draftSettled : list batchCopTask :=
  [ task "s1" [rinfo 10 [1]; rinfo 11 [1]; rinfo 12 [1]];
    task "s2" [rinfo 20 [2]] ].

(** A task without a region. *)
Definition draftEmptyTask : list batchCopTask :=
  [ task "s1" [rinfo 10 [1]]; task "s2" [] ].

(** ** Footprints: the calls a function makes *)

(** [m] extends the trace, and only by events with [Q]. *)
Definition onlyEvents {A : Type} (Q : Event -> Prop) (m : M A) : Prop :=
  forall tr out tr', m tr = (out, tr') ->
    exists seg, tr' = seg ++ tr /\ Forall Q seg.

(** The lookups of the planner in the region cache. *)
Definition lookupEvent (ev : Event) : Prop :=
  match ev with
  | EvGetTiFlashRPCContext _ _ | EvGetAllValidTiFlashStores _ _ => True
  | _ => False
  end.

(** The calls [buildBatchCopTasks] makes: to the region cache, to the
    backoffer with [BoRegionMiss], to the histogram of task counts. *)
Definition plannerEvent (ev : Event) : Prop :=
  match ev with
  | EvSplitKeyRanges _ | EvGetTiFlashRPCContext _ _
  | EvGetAllValidTiFlashStores _ _ | EvObserveTasks _
  | EvBackoff BoRegionMiss _ => True
  | _ => False
  end.

(** The calls [SendReqToAddr] makes. *)
Definition senderEvent (ev : Event) : Prop :=
  match ev with
  | EvSendRequest _ _ _ | EvCancel | EvSetRPCError _ | EvRecordStats _
  | EvLoadShuttingDown | EvNeedReloadRegion _ | EvOnSendFail _ _ _ _
  | EvBackoff BoTiFlashRPC _ => True
  | _ => False
  end.

(** A response with a payload and statistics and no error, as
    [handleBatchCopResponse] builds it; a response with an error and
    statistics and no payload, as [handleTask] builds it. *)
Definition isPayload (r : batchCopResponse) : Prop :=
  err r = None /\ is_Some (pbResp r) /\ is_Some (detail r).

Definition isFailure (r : batchCopResponse) : Prop :=
  is_Some (err r) /\ pbResp r = None /\ is_Some (detail r).

(** What the stream consumer does before it closes the stream. *)
Definition consumeEvent (ev : Event) : Prop :=
  match ev with
  | EvRecv | EvFinishSeen | EvBackoff BoTiKVRPC _ => True
  | EvSendToRespCh r => isPayload r
  | _ => False
  end.

(** One attempt at a task, [handleTaskOnce]: the sender, the planner when
    the task is retried, the stream consumer. *)
Definition attemptEvent (ev : Event) : Prop :=
  senderEvent ev \/ plannerEvent ev \/ consumeEvent ev \/ ev = EvStreamClose.

(** The passes of the planner in a trace: its calls of [SplitKeyRanges]. *)
Definition isSplit (ev : Event) : bool :=
  match ev with
  | EvSplitKeyRanges _ => true
  | _ => false
  end.

Definition countSplits (tr : list Event) : nat :=
  length (List.filter isSplit tr).

(** The draft of a pass: the tasks of the planner's map. *)
Definition draftOf (storeTaskMap : gmap string batchCopTask)
    : list batchCopTask :=
  map snd (map_to_list storeTaskMap).

(** A region of a task as [SplitKeyRanges] located it. *)
Definition locatedOf (ri : RegionInfo) : RegionVerID * KeyRanges :=
  (Region ri, Ranges ri).

(** A task as the planner builds it for the address [addr]. *)
Definition plannedFor (addr : string) (t : batchCopTask) : Prop :=
  storeAddr t = addr /\ cmdType t = CmdBatchCop /\ regionInfos t <> [] /\
  exists c, ctx t = Some c /\ Addr c = addr.

(** The closes of the stream in a trace. *)
Definition isStreamClose (ev : Event) : bool :=
  match ev with
  | EvStreamClose => true
  | _ => false
  end.

Definition countStreamCloses (tr : list Event) : nat :=
  length (List.filter isStreamClose tr).

(** The error [handleBatchCopResponse] makes of the other-error [msg] of
    a message, as the stream consumer returns it. *)
Definition otherError (msg : string) : error :=
  Traced (Traced (ErrorString (String.append "other error: " msg))).

(** ** [MemSize] *)

Definition setRespSize (rs : batchCopResponse) (v : Z) : batchCopResponse :=
  {| pbResp := pbResp rs; detail := detail rs; startKey := startKey rs;
     err := err rs; respSize := v; respTime := respTime rs |}.

Section MemSize.
(** [sizeofExecDetails] is a constant of store/copr/coprocessor.go;
    [pbSize] is the method [Size] of [coprocessor.BatchResponse]; [capStartKey] is
    [cap(rs.startKey)], which the contents of the slice do not
    determine. *)
Variable sizeofExecDetails : Z.
Variable pbSize : BatchResponse -> Z.
Variable capStartKey : Z.

(** [MemSize], lines 75-91: the response after the call, with
    [respSize] as the method leaves it, and the result. *)
Definition MemSize (rs : batchCopResponse) : batchCopResponse * Z :=
  if negb (respSize rs =? 0) then (rs, respSize rs)
  else
    let s1 := wrapInt64 (respSize rs + capStartKey) in
    let s2 :=
      match detail rs with
      | Some _ => wrapInt64 (s1 + sizeofExecDetails)
      | None => s1
      end in
    let s3 :=
      match pbResp rs with
      | Some r => wrapInt64 (s2 + pbSize r)
      | None => s2
      end in
    (setRespSize rs s3, s3).

End MemSize.

(** An iterator with two responses waiting on [respChan]. *)
Definition responseOf (b : Byte.byte) : batchCopResponse :=
  {| pbResp := Some (payload b); detail := None; startKey := []; err := None;
     respSize := 0; respTime := 0 |}.

Definition iteratorWithResponses : batchCopIterator :=
  setRespChan (newIterator plainRequest [taskStore1])
    [responseOf Byte.x01; responseOf Byte.x02].

(** * Label rules (package label, in the same source file) *)

Module LabelRule.

(** [Label]: the fields [Reset] reads and writes. *)
Record Label : Type := mkLabel {
  Key : string;
  Value : string
}.

#[global] Instance Label_eq_dec : EqDecision Label.
Proof. solve_decision. Defined.

(** A slice of labels: its backing array, [None] for a slice without one
    (nil, or the empty literal), and its length.  The code at hand never
    re-slices, so a slice starts at index 0 of its array, and the capacity
    of the slice is the length of the array. *)
Record LabelSlice : Type := mkSlice {
  base : option nat;
  len : nat
}.

(** The value of the field [Rule], an [interface{}]: nil, the
    [map[string]string] that [Reset] stores, or anything else a decoder
    may have put there. *)
Inductive ruleBody : Type :=
| BodyNil
| BodyStringMap (m : gmap string string)
| BodyOther (v : string).

(** [Rule]. *)
Record Rule : Type := mkRule {
  ID : string;
  Labels : LabelSlice;
  RuleType : string;
  Rule_ : ruleBody
}.

(** The heap: the rules that pointers of type [*Rule] point to, and the
    backing arrays of label slices. *)
Record Store : Type := mkStore {
  rules : gmap nat Rule;
  arrays : gmap nat (list Label)
}.

Definition arrayOf (arrs : gmap nat (list Label)) (s : LabelSlice)
    : list Label :=
  match base s with
  | Some b => default [] (arrs !! b)
  | None => []
  end.

(** The elements of a slice. *)
Definition elems (arrs : gmap nat (list Label)) (s : LabelSlice)
    : list Label :=
  take (len s) (arrayOf arrs s).

(** The labels of the rule at [r]. *)
Definition labelsOf (st : Store) (r : nat) : list Label :=
  match rules st !! r with
  | Some v => elems (arrays st) (Labels v)
  | None => []
  end.

(** A slice as the Go runtime keeps it: its array is allocated and holds
    at least [len] elements. *)
Definition wfSlice (arrs : gmap nat (list Label)) (s : LabelSlice) : Prop :=
  match base s with
  | Some b => exists a, arrs !! b = Some a /\ (len s <= length a)%nat
  | None => len s = 0%nat
  end.

Definition IDPrefix : string := "schema".
Definition ruleType : string := "key-range".

(** [fmt.Sprintf(TableIDFormat, ...)] and
    [fmt.Sprintf(PartitionIDFormat, ...)]. *)
Definition tableID (dbName tableName : string) : string :=
  String.append IDPrefix
    (String.append "/" (String.append dbName (String.append "/" tableName))).

Definition partitionID (dbName tableName partName : string) : string :=
  String.append (tableID dbName tableName) (String.append "/" partName).

(** [NewRule]: a pointer to a fresh zero [Rule]. *)
Definition NewRule (st : Store) : Store * nat :=
  let p := fresh (dom (rules st)) in
  ({| rules := <[p := {| ID := ""; Labels := {| base := None; len := 0 |};
                         RuleType := ""; Rule_ := BodyNil |}]> (rules st);
      arrays := arrays st |}, p).

(** [Clone], lines 644-648: [*newRule = *r] copies the struct, and with
    it the slice header of [Labels], not the array behind it. *)
Definition Clone (st : Store) (r : nat) : outcome (Store * nat) :=
  match rules st !! r with
  | None => Panicked
  | Some v =>
      let p := fresh (dom (rules st)) in
      Returned ({| rules := <[p := v]> (rules st); arrays := arrays st |}, p)
  end.

Section Reset.
(** [dbKey], [tableKey] and [partitionKey] are constants of
    util/label/labels.go.  [recordPrefixHex id] is
    [hex.EncodeToString(codec.EncodeBytes(nil,
    tablecodec.GenTableRecordPrefix(id)))].  [spare c] is the capacity
    [append] adds beyond the one element it needs when it moves a full
    array of capacity [c]; the Go runtime chooses it. *)
Variable dbKey tableKey partitionKey : string.
Variable recordPrefixHex : Z -> string.
Variable spare : nat -> nat.

(** [append(s, x)]: in place when the array has room, else into a new
    array. *)
Definition appendLabel (arrs : gmap nat (list Label)) (s : LabelSlice)
    (x : Label) : gmap nat (list Label) * LabelSlice :=
  let a := arrayOf arrs s in
  match base s with
  | Some b =>
      if (len s <? length a)%nat then
        (<[b := <[len s := x]> a]> arrs, {| base := Some b; len := S (len s) |})
      else
        let b' := fresh (dom arrs) in
        (<[b' := take (len s) a ++ x
                 :: replicate (spare (length a)) {| Key := ""; Value := "" |}]>
           arrs,
         {| base := Some b'; len := S (len s) |})
  | None =>
      let b' := fresh (dom arrs) in
      (<[b' := x :: replicate (spare 0) {| Key := ""; Value := "" |}]> arrs,
       {| base := Some b'; len := S (len s) |})
  end.

(** The flags [hasDBKey], [hasTableKey], [hasPartitionKey]. *)
Record seen : Type := mkSeen {
  hasDBKey : bool;
  hasTableKey : bool;
  hasPartitionKey : bool
}.

(** The body of the loop of lines 661-676 for one label: the [switch]
    takes the first case that matches. *)
Definition relabelOne (isPartition : bool)
    (dbName tableName partName0 : string) (l : Label) (f : seen)
    : Label * seen :=
  if bool_decide (Key l = dbKey) then
    ({| Key := Key l; Value := dbName |},
     {| hasDBKey := true; hasTableKey := hasTableKey f;
        hasPartitionKey := hasPartitionKey f |})
  else if bool_decide (Key l = tableKey) then
    ({| Key := Key l; Value := tableName |},
     {| hasDBKey := hasDBKey f; hasTableKey := true;
        hasPartitionKey := hasPartitionKey f |})
  else if bool_decide (Key l = partitionKey) then
    if isPartition then
      ({| Key := Key l; Value := partName0 |},
       {| hasDBKey := hasDBKey f; hasTableKey := hasTableKey f;
          hasPartitionKey := true |})
    else (l, f)
  else (l, f).

(** The value the loop leaves in a label. *)
Definition newValue (isPartition : bool)
    (dbName tableName partName0 : string) (l : Label) : string :=
  if bool_decide (Key l = dbKey) then dbName
  else if bool_decide (Key l = tableKey) then tableName
  else if bool_decide (Key l = partitionKey) && isPartition then partName0
  else Value l.

(** The loop over [r.Labels]. *)
Fixpoint relabel (isPartition : bool) (dbName tableName partName0 : string)
    (ls : list Label) (f : seen) : list Label * seen :=
  match ls with
  | [] => ([], f)
  | l :: rest =>
      let '(l', f1) := relabelOne isPartition dbName tableName partName0 l f in
      let '(rest', f2) :=
        relabel isPartition dbName tableName partName0 rest f1 in
      (l' :: rest', f2)
  end.

(** The writes [r.Labels[i].Value = ...] of the loop, on the array. *)
Definition writeBack (arrs : gmap nat (list Label)) (s : LabelSlice)
    (ls : list Label) : gmap nat (list Label) :=
  match base s with
  | Some b => <[b := ls ++ drop (len s) (arrayOf arrs s)]> arrs
  | None => arrs
  end.

(** [Reset], lines 651-694, on the rule [r] points to; it returns [r].
    [id + 1] is an [int64] addition. *)
Definition Reset (st : Store) (r : nat) (id : Z) (dbName tableName : string)
    (partName : list string) : outcome (Store * nat) :=
  match rules st !! r with
  | None => Panicked
  | Some v =>
      let isPartition := negb (length partName =? 0)%nat in
      let partName0 := hd "" partName in
      let newID :=
        if isPartition then partitionID dbName tableName partName0
        else tableID dbName tableName in
      if (len (Labels v) =? 0)%nat then
        Returned
          ({| rules := <[r := {| ID := newID; Labels := Labels v;
                                 RuleType := RuleType v;
                                 Rule_ := Rule_ v |}]> (rules st);
              arrays := arrays st |}, r)
      else
        let '(ls, f) :=
          relabel isPartition dbName tableName partName0
            (elems (arrays st) (Labels v))
            {| hasDBKey := false; hasTableKey := false;
               hasPartitionKey := false |} in
        let arrs1 := writeBack (arrays st) (Labels v) ls in
        let '(arrs2, s2) :=
          if hasDBKey f then (arrs1, Labels v)
          else appendLabel arrs1 (Labels v)
                 {| Key := dbKey; Value := dbName |} in
        let '(arrs3, s3) :=
          if hasTableKey f then (arrs2, s2)
          else appendLabel arrs2 s2 {| Key := tableKey; Value := tableName |} in
        let '(arrs4, s4) :=
          if isPartition && negb (hasPartitionKey f) then
            appendLabel arrs3 s3 {| Key := partitionKey; Value := partName0 |}
          else (arrs3, s3) in
        Returned
          ({| rules :=
                <[r := {| ID := newID; Labels := s4; RuleType := ruleType;
                          Rule_ :=
                            BodyStringMap
                              (<["start_key" := recordPrefixHex id]>
                                 (<["end_key" :=
                                      recordPrefixHex (wrapInt64 (id + 1))]>
                                    ∅)) |}]> (rules st);
              arrays := arrs4 |}, r)
  end.

(** What [Reset] makes of the labels of a rule, as a list: the values of
    the labels with one of the three keys are replaced, and a label is
    added for each key that is missing. *)
Definition resetLabels (isPartition : bool)
    (dbName tableName partName0 : string) (ls : list Label) : list Label :=
  let '(ls', f) :=
    relabel isPartition dbName tableName partName0 ls
      {| hasDBKey := false; hasTableKey := false;
         hasPartitionKey := false |} in
  ls'
  ++ (if hasDBKey f then [] else [{| Key := dbKey; Value := dbName |}])
  ++ (if hasTableKey f then []
      else [{| Key := tableKey; Value := tableName |}])
  ++ (if isPartition && negb (hasPartitionKey f)
      then [{| Key := partitionKey; Value := partName0 |}] else []).

End Reset.

(** From the heap [arrs] with the slice [s] to the heap [arrs'] with the
    slice [s']: the labels [xs] have been appended, and every other slice
    that does not reach beyond [s] in the array of [s] has kept its
    elements. *)
Definition grows (arrs : gmap nat (list Label)) (s : LabelSlice)
    (arrs' : gmap nat (list Label)) (s' : LabelSlice) (xs : list Label)
    : Prop :=
  elems arrs' s' = elems arrs s ++ xs /\
  wfSlice arrs' s' /\
  forall t, wfSlice arrs t -> (base t = base s -> (len t <= len s)%nat) ->
    elems arrs' t = elems arrs t /\ wfSlice arrs' t /\
    (base t = base s' -> (len t <= len s')%nat).

(** A label with the value the loop of [Reset] leaves in it. *)
Definition relabelled (dbKey tableKey partitionKey : string)
    (isPartition : bool) (dbName tableName partName0 : string) (l : Label)
    : Label :=
  {| Key := Key l;
     Value := newValue dbKey tableKey partitionKey isPartition dbName
                tableName partName0 l |}.

(** The rule [Reset] stores. *)
Definition resetRule (recordPrefixHex : Z -> string) (id : Z)
    (dbName tableName : string) (partName : list string) (s : LabelSlice)
    : Rule :=
  {| ID := if negb (length partName =? 0)%nat
           then partitionID dbName tableName (hd "" partName)
           else tableID dbName tableName;
     Labels := s;
     RuleType := ruleType;
     Rule_ := BodyStringMap
                (<["start_key" := recordPrefixHex id]>
                   (<["end_key" := recordPrefixHex (wrapInt64 (id + 1))]>
                      ∅)) |}.

(** [ast.AttributesSpec], the fields [ApplyAttributesSpec] reads. *)
Record AttributesSpec : Type := mkAttributesSpec {
  Default : bool;
  Attributes : string
}.

Section ApplyAttributesSpec.
(** [yaml.UnmarshalStrict] into a list of strings, and [NewLabels] of
    util/label/labels.go, which builds a slice in the heap. *)
Variable yamlUnmarshalStrict : string -> list string + error.
Variable NewLabels :
  gmap nat (list Label) -> list string ->
  gmap nat (list Label) * LabelSlice * option error.

(** [ApplyAttributesSpec], lines 619-633. *)
Definition ApplyAttributesSpec (st : Store) (r : nat) (spec : AttributesSpec)
    : outcome (Store * option error) :=
  match rules st !! r with
  | None => Panicked
  | Some v =>
      if Default spec then
        Returned
          ({| rules := <[r := {| ID := ID v;
                                 Labels := {| base := None; len := 0 |};
                                 RuleType := RuleType v;
                                 Rule_ := Rule_ v |}]> (rules st);
              arrays := arrays st |}, None)
      else
        match yamlUnmarshalStrict
                (String.append "[" (String.append (Attributes spec) "]")) with
        | inr e => Returned (st, Some e)
        | inl attributes =>
            let '(arrs, ls, e) := NewLabels (arrays st) attributes in
            Returned
              ({| rules := <[r := {| ID := ID v; Labels := ls;
                                     RuleType := RuleType v;
                                     Rule_ := Rule_ v |}]> (rules st);
                  arrays := arrs |}, e)
        end
  end.

End ApplyAttributesSpec.

(** Examples: the keys as util/label/labels.go has them, a rule with two
    labels in an array with room for a third. *)
Definition exampleKeyHex (id : Z) : string := pretty id.

Definition exampleRule : Rule :=
  {| ID := "old"; Labels := {| base := Some 0%nat; len := 2 |};
     RuleType := ""; Rule_ := BodyNil |}.

Definition exampleStore : Store :=
  {| rules := {[ 0%nat := exampleRule ]};
     arrays :=
       {[ 0%nat := [ {| Key := "zone"; Value := "east" |};
                     {| Key := "db"; Value := "stale" |};
                     {| Key := ""; Value := "" |} ] ]} |}.

(** [append] doubles the capacity of a full array. *)
Definition exampleSpare (c : nat) : nat := Nat.pred c.

(** The store of a returned outcome. *)
Definition storeOf {A : Type} (o : outcome (Store * A)) : Store :=
  match o with
  | Returned (st, _) => st
  | _ => exampleStore
  end.

End LabelRule.

(** * Proofs *)

(** ** Map iteration order *)

Lemma insertAt_Permutation {A : Type} (n : nat) (x : A) (l : list A) :
  Permutation (insertAt n x l) (x :: l).
Proof.
  revert n; induction l as [|y l IH]; intros [|n]; simpl; try reflexivity.
  rewrite IH. apply perm_swap.
Qed.

Lemma shuffle_Permutation {A : Type} (seed : list nat) (l : list A) :
  Permutation (shuffle seed l) l.
Proof.
  revert seed; induction l as [|x l IH]; intros seed; simpl; [reflexivity|].
  destruct seed as [|n seed].
  - constructor. apply IH.
  - rewrite insertAt_Permutation. constructor. apply IH.
Qed.

Lemma elem_of_shuffle {A : Type} (seed : list nat) (l : list A) (x : A) :
  x ∈ shuffle seed l ↔ x ∈ l.
Proof. by rewrite shuffle_Permutation. Qed.

(** Every order of visiting a map is the [shuffle] of some seed. *)
Lemma insertAt_middle {A : Type} (l1 l2 : list A) (x : A) :
  insertAt (length l1) x (l1 ++ l2) = l1 ++ x :: l2.
Proof. induction l1 as [|y l1 IH]; simpl; [by destruct l2|by rewrite IH]. Qed.

Lemma shuffle_complete {A : Type} (l l' : list A) :
  Permutation l l' → ∃ seed, shuffle seed l = l'.
Proof.
  revert l'; induction l as [|x l IH]; intros l' Hp.
  - apply Permutation_nil in Hp as ->. by exists [].
  - assert (x ∈ l') as Hx by (rewrite <- Hp; left).
    apply list_elem_of_split in Hx as (l1 & l2 & ->).
    apply Permutation_cons_app_inv in Hp.
    destruct (IH _ Hp) as [seed Hs].
    exists (length l1 :: seed). simpl. rewrite Hs. apply insertAt_middle.
Qed.

(** ** The balancer *)

Module BalanceFacts.
Import Balance.

Section Pins.
Variable regionKey : RegionVerID -> string.
Variable mapOrder : nat -> list nat.
Variable originalTasks : list batchCopTask.

Lemma elem_of_nonPinnedRegions (t0 : batchCopTask) (r : RegionInfo) :
  t0 ∈ originalTasks -> r ∈ tail (regionInfos t0) ->
  r ∈ nonPinnedRegions originalTasks.
Proof.
  intros Ht Hr. unfold nonPinnedRegions.
  apply list_elem_of_In, in_flat_map. exists t0.
  split; by apply list_elem_of_In.
Qed.

Lemma pinTasks_good (tasks : list batchCopTask) (m m' : gmap Z batchCopTask) :
  pinTasks tasks m = Some m' ->
  (forall t, t ∈ tasks -> t ∈ originalTasks) ->
  map_Forall (fun _ t => goodTask originalTasks t) m ->
  map_Forall (fun _ t => goodTask originalTasks t) m'.
Proof.
  revert m; induction tasks as [|t tasks IH]; intros m Hpin Hsub Hm; simpl in Hpin.
  - by simplify_eq.
  - destruct (regionInfos t) as [|ri0 ris] eqn:Hris; [done|].
    destruct (AllStores ri0) as [|s0 ss]; [done|].
    apply IH in Hpin; [done| |].
    + intros t' Ht'. apply Hsub. by right.
    + apply map_Forall_insert_2; [|done].
      split.
      * exists t, ri0. repeat split; simpl; try done.
        -- apply Hsub. by left.
        -- by rewrite Hris.
      * unfold restNotPinned; simpl. constructor.
Qed.

Lemma appendRegion_good (id : Z) (ri : RegionInfo) (m m' : gmap Z batchCopTask) :
  appendRegion id ri m = Some m' ->
  ri ∈ nonPinnedRegions originalTasks ->
  map_Forall (fun _ t => goodTask originalTasks t) m ->
  map_Forall (fun _ t => goodTask originalTasks t) m'.
Proof.
  unfold appendRegion. intros Happ Hri Hm.
  destruct (m !! id) as [t|] eqn:Hid; [|done]. simplify_eq.
  apply map_Forall_insert_2; [|done].
  destruct (Hm _ _ Hid) as [(t0 & ri0 & Ht0 & Hh0 & Hh & Ha & Hc) Hrest].
  destruct (regionInfos t) as [|r rs] eqn:Hrs; [done|].
  split.
  - exists t0, ri0. by simpl.
  - unfold restNotPinned in *; simpl in *. rewrite Hrs in Hrest.
    apply Forall_app; split; [done|]. by constructor.
Qed.

Lemma putCandidate_good (k : string) (ri : RegionInfo) (stores : list Z)
    (cands cands' : gmap Z (gmap string RegionInfo)) :
  putCandidate k ri stores cands = Some cands' ->
  ri ∈ nonPinnedRegions originalTasks ->
  goodCands originalTasks cands -> goodCands originalTasks cands'.
Proof.
  revert cands; induction stores as [|s stores IH]; intros cands Hput Hri Hc;
    simpl in Hput; [by simplify_eq|].
  destruct (cands !! s) as [m|] eqn:Hs.
  - destruct (m !! k) eqn:Hk; [done|].
    apply IH in Hput; [done|done|].
    intros s' m' k' r' Hs' Hk'.
    destruct (decide (s = s')) as [->|Hne].
    + rewrite lookup_insert_eq in Hs'. simplify_eq.
      destruct (decide (k = k')) as [->|Hnk].
      * rewrite lookup_insert_eq in Hk'. by simplify_eq.
      * rewrite lookup_insert_ne in Hk' by done. by eapply Hc.
    + rewrite lookup_insert_ne in Hs' by done. by eapply Hc.
  - apply IH in Hput; [done|done|].
    intros s' m' k' r' Hs' Hk'.
    destruct (decide (s = s')) as [->|Hne].
    + rewrite lookup_insert_eq in Hs'. simplify_eq.
      apply lookup_singleton_Some in Hk' as [_ <-]. done.
    + rewrite lookup_insert_ne in Hs' by done. by eapply Hc.
Qed.

Lemma dropCandidate_good (k : string) (stores : list Z)
    (cands : gmap Z (gmap string RegionInfo)) (total : Z) :
  goodCands originalTasks cands ->
  goodCands originalTasks (dropCandidate k stores cands total).1.
Proof.
  revert cands total; induction stores as [|s stores IH]; intros cands total Hc;
    simpl; [done|].
  destruct (cands !! s) as [m|] eqn:Hs; [|by apply IH].
  apply IH. intros s' m' k' r' Hs' Hk'.
  destruct (decide (s = s')) as [->|Hne].
  - rewrite lookup_insert_eq in Hs'. simplify_eq.
    apply lookup_delete_Some in Hk' as [_ Hk']. by eapply Hc.
  - rewrite lookup_insert_ne in Hs' by done. by eapply Hc.
Qed.

Lemma placeRegion_good (p : Z) (ri : RegionInfo) (st st' : collectState) :
  placeRegion regionKey p ri st = Collected st' ->
  ri ∈ nonPinnedRegions originalTasks ->
  goodCollect originalTasks st -> goodCollect originalTasks st'.
Proof.
  unfold placeRegion. intros Hpl Hri [Hm Hc].
  destruct (validStoreNumOf (cStoreTaskMap st) ri =? 1).
  - destruct (appendRegion p ri (cStoreTaskMap st)) eqn:Happ; [|done].
    simplify_eq. split; simpl; [by eapply appendRegion_good|done].
  - destruct (putCandidate _ ri _ _) eqn:Hput; [|done].
    simplify_eq. split; simpl; [done|by eapply putCandidate_good].
Qed.

Lemma placeRegions_good (p : Z) (ris : list RegionInfo) (st st' : collectState) :
  placeRegions regionKey p ris st = Collected st' ->
  (forall r, r ∈ ris -> r ∈ nonPinnedRegions originalTasks) ->
  goodCollect originalTasks st -> goodCollect originalTasks st'.
Proof.
  revert st; induction ris as [|ri ris IH]; intros st Hpl Hsub Hst; simpl in Hpl.
  - by simplify_eq.
  - destruct (placeRegion regionKey p ri st) as [| |st1] eqn:H1; try done.
    eapply IH; [done| |].
    + intros r Hr. apply Hsub. by right.
    + eapply placeRegion_good; [done| |done]. apply Hsub. by left.
Qed.

Lemma collectTasks_good (tasks : list batchCopTask) (st st' : collectState) :
  collectTasks regionKey tasks st = Collected st' ->
  (forall t, t ∈ tasks -> t ∈ originalTasks) ->
  goodCollect originalTasks st -> goodCollect originalTasks st'.
Proof.
  revert st; induction tasks as [|t tasks IH]; intros st Hco Hsub Hst;
    simpl in Hco.
  - by simplify_eq.
  - destruct (primaryStore t) as [p|]; [|done].
    destruct (placeRegions regionKey p (tail (regionInfos t)) st)
      as [| |st1] eqn:H1; try done.
    eapply IH; [done| |].
    + intros t' Ht'. apply Hsub. by right.
    + eapply placeRegions_good; [done| |done].
      intros r Hr. eapply elem_of_nonPinnedRegions; [|done].
      apply Hsub. by left.
Qed.

Lemma refreshStore_maps (st : balanceState) :
  bStoreTaskMap (refreshStore mapOrder st) = bStoreTaskMap st /\
  bCandidates (refreshStore mapOrder st) = bCandidates st.
Proof.
  unfold refreshStore. destruct (_ =? 0); [|done].
  by destruct (findNextStore _ _ _ _).
Qed.

Lemma firstCandidate_elem (st : balanceState) (k : string) (ri : RegionInfo) :
  firstCandidate mapOrder st = Some (k, ri) ->
  exists m, bCandidates st !! bStore st = Some m /\ m !! k = Some ri.
Proof.
  unfold firstCandidate. destruct (bCandidates st !! bStore st) as [m|]; [|done].
  intros Hh. exists m; split; [done|].
  apply elem_of_map_to_list, (elem_of_shuffle (mapOrder (bRanges st))).
  destruct (shuffle _ _); simpl in Hh; simplify_eq. by left.
Qed.

Lemma assignCandidate_good (k : string) (ri : RegionInfo) (st st' : balanceState) :
  assignCandidate k ri st = Some st' ->
  ri ∈ nonPinnedRegions originalTasks ->
  goodBalance originalTasks st -> goodBalance originalTasks st'.
Proof.
  unfold assignCandidate. intros Has Hri [Hm Hc].
  destruct (appendRegion _ _ _) as [tasks|] eqn:Happ; [|done].
  pose proof (dropCandidate_good k (AllStores ri) _
                (bTotalCandidateStoreNum st) Hc) as Hd.
  destruct (dropCandidate _ _ _ _) as [cands total]; simpl in Hd.
  assert (map_Forall (fun _ t => goodTask originalTasks t) tasks) as Ht
    by by eapply appendRegion_good.
  destruct (0 <? _).
  - destruct (lenRegionInfos _ _); [|done].
    destruct (reselect _ _ _ _ _ _) as [[store possible]|]; [|done].
    by simplify_eq.
  - by simplify_eq.
Qed.

Lemma balanceLoop_good (fuel : nat) (st st' : balanceState) :
  balanceLoop mapOrder fuel st = Returned st' ->
  goodBalance originalTasks st -> goodBalance originalTasks st'.
Proof.
  revert st; induction fuel as [|fuel IH]; intros st Hloop Hst; simpl in Hloop;
    [done|].
  destruct (0 <? _); [|by simplify_eq].
  assert (goodBalance originalTasks (refreshStore mapOrder st)) as Hst1.
  { destruct (refreshStore_maps st) as [E1 E2].
    unfold goodBalance. by rewrite E1, E2. }
  destruct (firstCandidate mapOrder _) as [[k ri]|] eqn:Hfirst.
  - destruct (assignCandidate k ri _) as [st2|] eqn:Has; [|done].
    apply IH in Hloop; [done|].
    eapply assignCandidate_good; [done| |done].
    apply firstCandidate_elem in Hfirst as (m & Hm & Hk).
    destruct Hst1 as [_ Hc]. by eapply Hc.
  - by apply IH in Hloop.
Qed.

(** A draft that survives the first loop has a pinned region in every
    task. *)
Lemma pinTasks_heads (tasks : list batchCopTask) (m m' : gmap Z batchCopTask) :
  pinTasks tasks m = Some m' ->
  forall t, t ∈ tasks -> is_Some (head (regionInfos t)).
Proof.
  revert m; induction tasks as [|t0 tasks IH]; intros m Hpin t Ht.
  - by apply elem_of_nil in Ht.
  - simpl in Hpin.
    destruct (regionInfos t0) as [|ri0 ris] eqn:Hris; [done|].
    destruct (AllStores ri0); [done|].
    apply elem_of_cons in Ht as [->|Ht]; [by rewrite Hris|by eapply IH].
Qed.

Lemma original_good (m : gmap Z batchCopTask) (t : batchCopTask) :
  pinTasks originalTasks ∅ = Some m -> t ∈ originalTasks ->
  goodTask originalTasks t.
Proof.
  intros Hpin Ht.
  destruct (pinTasks_heads _ _ _ Hpin t Ht) as [ri0 Hri0].
  split.
  - by exists t, ri0.
  - apply Forall_forall. intros r Hr. by eapply elem_of_nonPinnedRegions.
Qed.

Lemma balance_good (fuel : nat) (ret : list batchCopTask) :
  balanceBatchCopTask regionKey mapOrder fuel originalTasks = Returned ret ->
  forall t, t ∈ ret -> goodTask originalTasks t.
Proof.
  unfold balanceBatchCopTask. intros Hbal t Ht.
  destruct (pinTasks originalTasks ∅) as [m|] eqn:Hpin; [|done].
  destruct (collectTasks _ _ _) as [| |c] eqn:Hco; try done.
  { injection Hbal as <-. by eapply original_good. }
  destruct (_ =? 0).
  { injection Hbal as <-. by eapply original_good. }
  destruct (findNextStore _ _ _ _) as [store possible].
  destruct (balanceLoop _ _ _) as [st| |] eqn:Hloop; try done.
  injection Hbal as <-.
  apply collectTasks_good in Hco as [Hm Hc]; [|done|]; cycle 1.
  { split; simpl; [|by intros ? ? ? ? ?%lookup_empty_Some].
    eapply pinTasks_good; [done|done|apply map_Forall_empty]. }
  apply balanceLoop_good in Hloop as [Hm' _]; [|done].
  apply list_elem_of_fmap in Ht as ([s t'] & -> & Hin).
  apply elem_of_shuffle, elem_of_map_to_list in Hin. by eapply Hm'.
Qed.

End Pins.

Section GiveUp.
Variable regionKey : RegionVerID -> string.
Variable mapOrder : nat -> list nat.

Lemma pinTasks_dom (tasks : list batchCopTask) (m m' : gmap Z batchCopTask) :
  pinTasks tasks m = Some m' ->
  forall s, is_Some (m' !! s) <-> is_Some (m !! s) \/ s ∈ participating tasks.
Proof.
  revert m; induction tasks as [|t tasks IH]; intros m Hpin s; simpl in Hpin.
  - simplify_eq. unfold participating; simpl. rewrite elem_of_nil. tauto.
  - unfold participating, primaryStore; simpl.
    destruct (regionInfos t) as [|ri0 ris]; [done|].
    destruct (AllStores ri0) as [|s0 ss]; [done|]. simpl.
    rewrite (IH _ Hpin s), elem_of_cons.
    destruct (decide (s0 = s)) as [->|Hne].
    + rewrite lookup_insert_eq. split; [by auto|]. intros _. left. by eexists.
    + rewrite lookup_insert_ne by done. split; [tauto|].
      intros [?|[?|?]]; [tauto|congruence|tauto].
Qed.

Lemma pinTasks_wellFormed (tasks : list batchCopTask) (m : gmap Z batchCopTask) :
  wellFormedDraft tasks -> is_Some (pinTasks tasks m).
Proof.
  revert m; induction tasks as [|t tasks IH]; intros m Hwf; simpl; [done|].
  apply Forall_cons in Hwf as [[p Hp] Hwf]. unfold primaryStore in Hp.
  destruct (regionInfos t) as [|ri0 ris]; [done|].
  destruct (AllStores ri0) as [|s0 ss]; [done|]. by apply IH.
Qed.

Lemma pinTasks_Some_wellFormed (tasks : list batchCopTask)
    (m m' : gmap Z batchCopTask) :
  pinTasks tasks m = Some m' -> wellFormedDraft tasks.
Proof.
  revert m; induction tasks as [|t tasks IH]; intros m Hpin; simpl in Hpin;
    [constructor|].
  destruct (regionInfos t) as [|ri0 ris] eqn:Hris; [done|].
  destruct (AllStores ri0) as [|s0 ss] eqn:Hs0; [done|].
  constructor; [|by eapply IH].
  unfold primaryStore. by rewrite Hris, Hs0.
Qed.

Lemma countValid_keysOf (tasks : list batchCopTask) (m : gmap Z batchCopTask)
    (stores : list Z) (n : Z) :
  keysOf tasks m ->
  countValid m stores n =
  n + lenZ (filter (fun s => s ∈ participating tasks) stores).
Proof.
  intros Hk. revert n; induction stores as [|s stores IH]; intros n; simpl.
  - unfold lenZ; simpl. lia.
  - destruct (m !! s) as [t|] eqn:Hs.
    + rewrite filter_cons_True by (apply Hk; by eexists).
      rewrite IH. unfold lenZ; simpl. lia.
    + rewrite filter_cons_False.
      * apply IH.
      * intros Hin. apply Hk in Hin as [? ?]. congruence.
Qed.

Lemma validStoreNumOf_keysOf (tasks : list batchCopTask)
    (m : gmap Z batchCopTask) (ri : RegionInfo) :
  keysOf tasks m -> validStoreNumOf m ri = validStoreCount tasks ri.
Proof.
  intros Hk. unfold validStoreNumOf, validStoreCount, validStores.
  destruct (_ <=? _)%nat; [done|].
  rewrite (countValid_keysOf tasks) by done. lia.
Qed.

Lemma appendRegion_keysOf (tasks : list batchCopTask) (id : Z) (ri : RegionInfo)
    (m m' : gmap Z batchCopTask) :
  appendRegion id ri m = Some m' -> keysOf tasks m -> keysOf tasks m'.
Proof.
  unfold appendRegion. destruct (m !! id) as [t|] eqn:Hid; [|done].
  intros ? Hk s; simplify_eq. rewrite <- (Hk s).
  destruct (decide (id = s)) as [->|Hne].
  - rewrite lookup_insert_eq, Hid. split; by eexists.
  - by rewrite lookup_insert_ne.
Qed.

Lemma appendRegion_is_Some (id : Z) (ri : RegionInfo) (m : gmap Z batchCopTask) :
  is_Some (m !! id) -> is_Some (appendRegion id ri m).
Proof. intros [t Ht]. unfold appendRegion. rewrite Ht. by eexists. Qed.

Lemma putCandidate_Some (k : string) (ri : RegionInfo) (stores : list Z)
    (cands cands' : gmap Z (gmap string RegionInfo)) :
  putCandidate k ri stores cands = Some cands' ->
  NoDup stores /\
  (forall s r, s ∈ stores -> ~ holds cands s k r) /\
  (forall s' k' r', holds cands' s' k' r' <->
                    holds cands s' k' r' \/ (k' = k /\ r' = ri /\ s' ∈ stores)).
Proof.
  revert cands; induction stores as [|s stores IH]; intros cands Hput;
    simpl in Hput.
  - simplify_eq. split; [constructor|]. split.
    + by intros s r ?%elem_of_nil.
    + intros s' k' r'. rewrite elem_of_nil. tauto.
  - assert (forall m0, (cands !! s = None /\ m0 = ∅) \/
                       (cands !! s = Some m0 /\ m0 !! k = None) ->
              putCandidate k ri stores (<[s := <[k := ri]> m0]> cands)
                = Some cands' ->
              NoDup (s :: stores) /\
              (forall s0 r, s0 ∈ s :: stores -> ~ holds cands s0 k r) /\
              (forall s' k' r', holds cands' s' k' r' <->
                 holds cands s' k' r' \/
                 (k' = k /\ r' = ri /\ s' ∈ s :: stores))) as Hstep.
    { intros m0 Hm0 Hrec. apply IH in Hrec as (Hnd & Hfresh & Hiff).
      assert (forall s' k' r',
        holds (<[s := <[k := ri]> m0]> cands) s' k' r' <->
        holds cands s' k' r' \/ (k' = k /\ r' = ri /\ s' = s)) as Hins.
      { intros s' k' r'. unfold holds.
        destruct (decide (s = s')) as [<-|Hne].
        - rewrite lookup_insert_eq. split.
          + intros (m1 & ? & Hk'); simplify_eq.
            destruct (decide (k = k')) as [<-|Hnk].
            * rewrite lookup_insert_eq in Hk'. simplify_eq. by right.
            * rewrite lookup_insert_ne in Hk' by done.
              destruct Hm0 as [[_ ->]|[Hs _]].
              -- by rewrite lookup_empty in Hk'.
              -- left. by exists m0.
          + intros [(m1 & Hs & Hk')|(-> & -> & _)].
            * eexists; split; [done|].
              destruct Hm0 as [[Hn _]|[Hs0 Hk0]]; [congruence|]. simplify_eq.
              destruct (decide (k = k')) as [<-|Hnk]; [congruence|].
              by rewrite lookup_insert_ne.
            * eexists; split; [done|]. by rewrite lookup_insert_eq.
        - rewrite lookup_insert_ne by done. split; [by left|].
          intros [?|(_ & _ & ?)]; [done|congruence]. }
      assert (forall r, ~ holds cands s k r) as Hs_fresh.
      { intros r (m1 & Hs & Hk). destruct Hm0 as [[? _]|[? ?]]; simplify_eq. }
      split; [|split].
      - constructor; [|done]. intros Hin.
        apply (Hfresh s ri Hin), Hins. by right.
      - intros s0 r [->|Hin]%elem_of_cons; [done|].
        intros Hc. apply (Hfresh s0 r Hin), Hins. by left.
      - intros s' k' r'. rewrite Hiff, Hins, elem_of_cons. tauto. }
    destruct (cands !! s) as [m|] eqn:Hs.
    + destruct (m !! k) eqn:Hk; [done|]. apply (Hstep m); auto.
    + apply (Hstep ∅); [auto|]. by rewrite insert_empty.
Qed.

Lemma elem_of_insertionsOf (ri : RegionInfo) (s : Z) (k : string) :
  (s, k) ∈ insertionsOf regionKey ri <->
  k = regionKey (Region ri) /\ s ∈ AllStores ri.
Proof.
  unfold insertionsOf. rewrite list_elem_of_fmap. split.
  - intros (s' & ? & Hs'); by simplify_eq.
  - intros [-> Hs]. by exists s.
Qed.

Lemma elem_of_insertions (rem : list RegionInfo) (s : Z) (k : string) :
  (s, k) ∈ flat_map (insertionsOf regionKey) rem <->
  exists r, r ∈ rem /\ k = regionKey (Region r) /\ s ∈ AllStores r.
Proof.
  rewrite list_elem_of_In, in_flat_map. split.
  - intros (r & Hr & Hin). exists r. split; [by apply list_elem_of_In|].
    by apply elem_of_insertionsOf, list_elem_of_In.
  - intros (r & Hr & Hk & Hs). exists r. split; [by apply list_elem_of_In|].
    apply list_elem_of_In, elem_of_insertionsOf. by split.
Qed.

Lemma putCandidate_candInv (ri : RegionInfo) (rem : list RegionInfo)
    (cands cands' : gmap Z (gmap string RegionInfo)) :
  putCandidate (regionKey (Region ri)) ri (AllStores ri) cands = Some cands' ->
  candInv regionKey rem cands -> candInv regionKey (rem ++ [ri]) cands'.
Proof.
  intros (Hnd & Hfresh & Hiff)%putCandidate_Some [Hins Htr]. split.
  - rewrite flat_map_app. simpl. rewrite app_nil_r.
    apply NoDup_app. split; [done|]. split.
    + intros [s k] (r & Hr & Hk & Hs)%elem_of_insertions
        [-> Hs']%elem_of_insertionsOf.
      apply (Hfresh s r Hs'), Htr. by split.
    + unfold insertionsOf. apply NoDup_fmap_2; [|done].
      intros s1 s2 ?; by simplify_eq.
  - intros s k r. rewrite Hiff, Htr, elem_of_app, list_elem_of_singleton.
    split.
    + intros [(?&?&?)|(->&->&?)]; auto.
    + intros ([?| ->]&?&?); auto.
Qed.

Lemma sumZ_app (f : RegionInfo -> Z) (l1 l2 : list RegionInfo) :
  sumZ f (l1 ++ l2) = sumZ f l1 + sumZ f l2.
Proof. induction l1 as [|r l1 IH]; simpl; [done|]. rewrite IH. lia. Qed.

Lemma placeRegions_inv (tasks : list batchCopTask) (p : Z)
    (ris visited : list RegionInfo) (st st' : collectState) :
  placeRegions regionKey p ris st = Collected st' ->
  collectInv regionKey tasks visited st ->
  collectInv regionKey tasks (visited ++ ris) st'.
Proof.
  revert visited st; induction ris as [|ri ris IH]; intros visited st Hpl Hinv;
    simpl in Hpl.
  - simplify_eq. by rewrite app_nil_r.
  - destruct (placeRegion regionKey p ri st) as [| |st1] eqn:H1; try done.
    replace (visited ++ ri :: ris) with ((visited ++ [ri]) ++ ris)
      by by rewrite <- app_assoc.
    eapply IH; [done|]. clear Hpl IH.
    destruct Hinv as (Hk & Hc & Htot & Hnum).
    unfold placeRegion in H1.
    rewrite (validStoreNumOf_keysOf tasks) in H1 by done.
    unfold collectInv. rewrite filter_app.
    destruct (decide (validStoreCount tasks ri = 1)) as [Hv|Hv].
    + rewrite filter_cons_False, filter_nil, app_nil_r by tauto.
      rewrite Hv in H1; simpl in H1.
      destruct (appendRegion _ _ _) eqn:Happ; [|done]. simplify_eq; simpl.
      split; [by eapply appendRegion_keysOf|done].
    + rewrite filter_cons_True, filter_nil by done.
      apply Z.eqb_neq in Hv as Hv'. rewrite Hv' in H1; simpl in H1.
      destruct (putCandidate _ _ _ _) eqn:Hput; [|done]. simplify_eq; simpl.
      split; [done|]. split; [by eapply putCandidate_candInv|].
      rewrite sumZ_app, Htot, Hnum. unfold lenZ. rewrite length_app.
      simpl. split; lia.
Qed.

Lemma collectTasks_inv (tasks rest : list batchCopTask)
    (visited : list RegionInfo) (st st' : collectState) :
  collectTasks regionKey rest st = Collected st' ->
  collectInv regionKey tasks visited st ->
  collectInv regionKey tasks (visited ++ nonPinnedRegions rest) st'.
Proof.
  revert visited st; induction rest as [|t rest IH]; intros visited st Hco Hinv;
    simpl in Hco.
  - simplify_eq. unfold nonPinnedRegions; simpl. by rewrite app_nil_r.
  - destruct (primaryStore t) as [p|]; [|done].
    destruct (placeRegions regionKey p _ st) as [| |st1] eqn:H1; try done.
    eapply placeRegions_inv in H1; [|done].
    unfold nonPinnedRegions; simpl. rewrite app_assoc. by eapply IH.
Qed.

Lemma placeRegion_keysOf (tasks : list batchCopTask) (p : Z) (ri : RegionInfo)
    (st st' : collectState) :
  placeRegion regionKey p ri st = Collected st' ->
  keysOf tasks (cStoreTaskMap st) -> keysOf tasks (cStoreTaskMap st').
Proof.
  unfold placeRegion. intros Hpl Hk. destruct (_ =? 1).
  - destruct (appendRegion _ _ _) eqn:Happ; [|done]. simplify_eq; simpl.
    by eapply appendRegion_keysOf.
  - destruct (putCandidate _ _ _ _); [|done]. by simplify_eq.
Qed.

Lemma placeRegions_keysOf (tasks : list batchCopTask) (p : Z)
    (ris : list RegionInfo) (st st' : collectState) :
  placeRegions regionKey p ris st = Collected st' ->
  keysOf tasks (cStoreTaskMap st) -> keysOf tasks (cStoreTaskMap st').
Proof.
  revert st; induction ris as [|ri ris IH]; intros st Hpl Hk; simpl in Hpl.
  - by simplify_eq.
  - destruct (placeRegion regionKey p ri st) as [| |st1] eqn:H1; try done.
    eapply IH; [done|]. by eapply placeRegion_keysOf.
Qed.

(** After the first loop the second one does not dereference nil. *)
Lemma placeRegions_no_nil (tasks : list batchCopTask) (p : Z)
    (ris : list RegionInfo) (st : collectState) :
  keysOf tasks (cStoreTaskMap st) -> p ∈ participating tasks ->
  placeRegions regionKey p ris st <> NilDeref.
Proof.
  revert st; induction ris as [|ri ris IH]; intros st Hk Hp; simpl; [done|].
  destruct (placeRegion regionKey p ri st) as [| |st1] eqn:H1; [done| |].
  - unfold placeRegion in H1. destruct (_ =? 1).
    + destruct (appendRegion_is_Some p ri (cStoreTaskMap st)) as [m Hm];
        [by apply Hk|]. by rewrite Hm in H1.
    + by destruct (putCandidate _ _ _ _).
  - apply IH; [|done]. by eapply placeRegion_keysOf.
Qed.

Lemma primaryStore_participating (tasks : list batchCopTask)
    (t : batchCopTask) (p : Z) :
  t ∈ tasks -> primaryStore t = Some p -> p ∈ participating tasks.
Proof. intros Ht Hp. apply list_elem_of_omap. by exists t. Qed.

Lemma collectTasks_no_nil (tasks rest : list batchCopTask) (st : collectState) :
  wellFormedDraft rest -> (forall t, t ∈ rest -> t ∈ tasks) ->
  keysOf tasks (cStoreTaskMap st) ->
  collectTasks regionKey rest st <> NilDeref.
Proof.
  revert st; induction rest as [|t rest IH]; intros st Hwf Hsub Hk; simpl;
    [done|].
  apply Forall_cons in Hwf as [[p Hp] Hwf]. rewrite Hp.
  assert (p ∈ participating tasks) as Hin.
  { eapply primaryStore_participating; [|done]. apply Hsub. by left. }
  destruct (placeRegions regionKey p _ st) as [| |st1] eqn:H1; [done| |].
  - by eapply placeRegions_no_nil in H1.
  - apply IH; [done| |by eapply placeRegions_keysOf].
    intros t' Ht'. apply Hsub. by right.
Qed.

Lemma pinTasks_keysOf (tasks : list batchCopTask) (m : gmap Z batchCopTask) :
  pinTasks tasks ∅ = Some m -> keysOf tasks m.
Proof.
  intros Hpin s. rewrite (pinTasks_dom _ _ _ Hpin s), lookup_empty.
  split; [|by right]. intros [[? ?]|?]; done.
Qed.

Lemma collectInv_start (tasks : list batchCopTask) (m : gmap Z batchCopTask) :
  pinTasks tasks ∅ = Some m ->
  collectInv regionKey tasks []
    {| cStoreTaskMap := m; cCandidates := ∅;
       cTotalCandidateStoreNum := 0; cTotalCandidateCopTaskNum := 0 |}.
Proof.
  intros Hpin. split; [by apply pinTasks_keysOf|]. simpl.
  split; [|done]. split; [constructor|].
  intros s k r. rewrite elem_of_nil. split; [|tauto].
  intros (m0 & Hm & _). by rewrite lookup_empty in Hm.
Qed.

(** When the second loop runs to its end, no insertion into a candidate
    map was repeated. *)
Lemma collectTasks_Collected_NoDup (tasks : list batchCopTask)
    (m : gmap Z batchCopTask) (st : collectState) :
  pinTasks tasks ∅ = Some m ->
  collectTasks regionKey tasks
    {| cStoreTaskMap := m; cCandidates := ∅;
       cTotalCandidateStoreNum := 0; cTotalCandidateCopTaskNum := 0 |}
    = Collected st ->
  NoDup (candidateInsertions regionKey tasks).
Proof.
  intros Hpin Hco.
  eapply (collectTasks_inv tasks tasks []) in Hco as (_ & [Hnd _] & _).
  - done.
  - by apply collectInv_start.
Qed.

End GiveUp.

(** C4.  When the second loop would write the same region key twice into
    the candidate map of one store (the list of its insertions has a
    repeated entry), the balancer returns the draft it was given. *)
Theorem balance_gives_up_on_duplicate
    (regionKey : RegionVerID -> string) (mapOrder : nat -> list nat)
    (fuel : nat) (originalTasks : list batchCopTask) :
  wellFormedDraft originalTasks ->
  ~ NoDup (candidateInsertions regionKey originalTasks) ->
  balanceBatchCopTask regionKey mapOrder fuel originalTasks
    = Returned originalTasks.
Proof.
  intros Hwf Hdup. unfold balanceBatchCopTask.
  destruct (pinTasks_wellFormed originalTasks ∅ Hwf) as [m Hpin].
  rewrite Hpin.
  destruct (collectTasks regionKey originalTasks _) as [| |st] eqn:Hco.
  - done.
  - exfalso. eapply collectTasks_no_nil in Hco; [done|done|done|]; simpl.
    by apply pinTasks_keysOf.
  - exfalso. apply Hdup. by eapply collectTasks_Collected_NoDup.
Qed.




(** *** The main loop *)

Section Drain.
Variable regionKey : RegionVerID -> string.
Variable mapOrder : nat -> list nat.
Variable tasks : list batchCopTask.

Lemma filter_all {A : Type} (P : A -> Prop) `{!forall x, Decision (P x)}
    (l : list A) :
  (forall x, x ∈ l -> P x) -> filter P l = l.
Proof.
  induction l as [|x l IH]; intros Hall; [done|].
  rewrite filter_cons_True by (apply Hall; by left).
  f_equal. apply IH. intros y Hy. apply Hall. by right.
Qed.

Lemma candidate_stores (r : RegionInfo) :
  r ∈ candidateRegions tasks ->
  (2 <= length (AllStores r))%nat /\
  validStoreCount tasks r <= lenZ (AllStores r) /\
  (0 < validStoreCount tasks r ->
   exists s, s ∈ AllStores r /\ s ∈ participating tasks) /\
  (fullyValid tasks -> validStoreCount tasks r = lenZ (AllStores r)).
Proof.
  intros Hr. pose proof Hr as Hr0.
  apply list_elem_of_filter in Hr as [Hv _].
  unfold validStoreCount in *.
  destruct (length (AllStores r) <=? 1)%nat eqn:Hlen; [done|].
  apply Nat.leb_gt in Hlen. split; [lia|].
  unfold validStores, lenZ. split; [|split].
  - pose proof (length_filter (fun s => s ∈ participating tasks) (AllStores r)).
    lia.
  - intros Hpos.
    destruct (filter (fun s => s ∈ participating tasks) (AllStores r))
      as [|s l] eqn:Hf; [simpl in Hpos; lia|].
    assert (s ∈ filter (fun s => s ∈ participating tasks) (AllStores r)) as Hs
      by (rewrite Hf; by left).
    apply list_elem_of_filter in Hs as [? ?]. by exists s.
  - intros Hfull. rewrite filter_all; [done|]. intros s Hs. by eapply Hfull.
Qed.

Lemma sumZ_middle (f : RegionInfo -> Z) (l1 l2 : list RegionInfo)
    (r : RegionInfo) :
  sumZ f (l1 ++ r :: l2) = f r + sumZ f (l1 ++ l2).
Proof. rewrite !sumZ_app. simpl. lia. Qed.

Lemma sumZ_pos (f : RegionInfo -> Z) (l : list RegionInfo) :
  0 < sumZ f l -> exists r, r ∈ l /\ 0 < f r.
Proof.
  induction l as [|r l IH]; simpl; [lia|]. intros Hpos.
  destruct (decide (0 < f r)) as [Hr|Hr].
  - exists r. split; [by left|done].
  - destruct IH as (r' & Hin & Hr'); [lia|]. exists r'. split; [by right|done].
Qed.

Lemma sumZ_lower (f : RegionInfo -> Z) (c : Z) (l : list RegionInfo) :
  (forall r, r ∈ l -> c <= f r) -> c * lenZ l <= sumZ f l.
Proof.
  unfold lenZ. induction l as [|r l IH]; intros Hall; simpl; [lia|].
  assert (c <= f r) by (apply Hall; by left).
  assert (c * Z.of_nat (length l) <= sumZ f l)
    by (apply IH; intros r' Hr'; apply Hall; by right).
  lia.
Qed.

(** [dropCandidate] when every store of the list has a candidate map: the
    counter goes down by the length of the list, and the maps lose the key
    in the maps of these stores and nothing else. *)
Lemma dropCandidate_spec (k : string) (stores : list Z) :
  forall (cands : gmap Z (gmap string RegionInfo)) (total : Z),
  (forall s, s ∈ stores -> is_Some (cands !! s)) ->
  (dropCandidate k stores cands total).2 = total - lenZ stores /\
  forall s' k' r',
    holds (dropCandidate k stores cands total).1 s' k' r' <->
    holds cands s' k' r' /\ ~ (k' = k /\ s' ∈ stores).
Proof.
  induction stores as [|s stores IH]; intros cands total Hall; simpl.
  - unfold lenZ; simpl. split; [lia|]. intros s' k' r'.
    rewrite elem_of_nil. tauto.
  - destruct (Hall s) as [m Hm]; [by left|]. rewrite Hm.
    destruct (IH (<[s := delete k m]> cands) (total - 1)) as [Htot Hiff].
    { intros s0 Hs0. destruct (decide (s = s0)) as [<-|Hne].
      - rewrite lookup_insert_eq. by eexists.
      - rewrite lookup_insert_ne by done. apply Hall. by right. }
    split; [rewrite Htot; unfold lenZ; simpl; lia|].
    intros s' k' r'. rewrite Hiff, elem_of_cons.
    assert (holds (<[s := delete k m]> cands) s' k' r' <->
            holds cands s' k' r' /\ ~ (k' = k /\ s' = s)) as ->; [|tauto].
    unfold holds. destruct (decide (s = s')) as [<-|Hne].
    + rewrite lookup_insert_eq. split.
      * intros (m1 & ? & Hk'); simplify_eq.
        apply lookup_delete_Some in Hk' as [Hne Hk'].
        split; [by exists m|]. intros [? _]. congruence.
      * intros [(m1 & ? & Hk') Hnot]; simplify_eq.
        eexists; split; [done|]. apply lookup_delete_Some. split; [|done].
        intros <-. by apply Hnot.
    + rewrite lookup_insert_ne by done. split; [|tauto].
      intros Hh. split; [done|]. intros [_ ?]. congruence.
Qed.

Lemma NoDup_flat_map_middle {A B : Type} (f : A -> list B)
    (l1 l2 : list A) (a : A) :
  NoDup (flat_map f (l1 ++ a :: l2)) ->
  NoDup (flat_map f (l1 ++ l2)) /\
  forall b, b ∈ f a -> b ∉ flat_map f (l1 ++ l2).
Proof.
  rewrite !flat_map_app. simpl. intros Hnd.
  apply NoDup_app in Hnd as (H1 & H12 & Hnd).
  apply NoDup_app in Hnd as (Ha & Ha2 & H2).
  split.
  - apply NoDup_app. split; [done|]. split; [|done].
    intros b Hb1 Hb2. apply (H12 b Hb1), elem_of_app. by right.
  - intros b Hb [Hb1|Hb2]%elem_of_app.
    + apply (H12 b Hb1), elem_of_app. by left.
    + by apply (Ha2 b Hb).
Qed.

(** Taking a region out of the candidate maps. *)
Lemma dropCandidate_candInv (rem : list RegionInfo) (r : RegionInfo)
    (cands : gmap Z (gmap string RegionInfo)) (total : Z) :
  candInv regionKey rem cands -> r ∈ rem ->
  (1 <= length (AllStores r))%nat ->
  exists l1 l2, rem = l1 ++ r :: l2 /\
    candInv regionKey (l1 ++ l2)
      (dropCandidate (regionKey (Region r)) (AllStores r) cands total).1 /\
    (dropCandidate (regionKey (Region r)) (AllStores r) cands total).2
      = total - lenZ (AllStores r).
Proof.
  intros [Hnd Hiff] Hr Hlen.
  apply list_elem_of_split in Hr as (l1 & l2 & ->). exists l1, l2.
  split; [done|].
  destruct (dropCandidate_spec (regionKey (Region r)) (AllStores r) cands total)
    as [Htot Hdrop].
  { intros s Hs. destruct (proj2 (Hiff s (regionKey (Region r)) r))
      as (m & Hm & _); [|by eexists].
    split; [|by split]. apply elem_of_app. right. by left. }
  split; [|done].
  destruct (NoDup_flat_map_middle _ _ _ _ Hnd) as [Hnd' Hfresh].
  split; [done|].
  intros s' k' r'. rewrite Hdrop, Hiff. split.
  - intros [(Hin & -> & Hs') Hnot]. split; [|by split].
    apply elem_of_app in Hin as [Hin|[->|Hin]%elem_of_cons];
      [apply elem_of_app; by left| |apply elem_of_app; by right].
    exfalso. by apply Hnot.
  - intros (Hin & -> & Hs'). split.
    + split; [|by split].
      apply elem_of_app in Hin as [Hin|Hin]; apply elem_of_app;
        [by left|right; by right].
    + intros [Hk Hs].
      apply (Hfresh (s', regionKey (Region r))).
      * apply elem_of_insertionsOf. by split.
      * apply elem_of_insertions. exists r'. by split.
Qed.

End Drain.

(** *** Choosing the next store *)

(** Zero candidates over any average is zero or not a number: such a store
    is passed over by [findNextStore]. *)
Lemma zero_candidates_not_chosen (avg x p : float) :
  let q := (float64 0 / avg)%float in
  (q =? 0)%float = true \/ (q + x <? p)%float = false.
Proof.
  simpl.
  rewrite FloatAxioms.eqb_spec, FloatAxioms.ltb_spec, FloatAxioms.add_spec,
    FloatAxioms.div_spec.
  change (Prim2SF (float64 0)) with (S754_zero false).
  change (Prim2SF 0) with (S754_zero false).
  destruct (Prim2SF avg) as [sy|sy| |sy my ey]; simpl; auto.
Qed.

Lemma lenCandidates_nonneg (cands : gmap Z (gmap string RegionInfo)) (s : Z) :
  0 <= lenCandidates cands s.
Proof. unfold lenCandidates. destruct (cands !! s); lia. Qed.

(** A step of [findNextStore] keeps the store it has or moves to the one
    it visits, and it moves only to a store with candidates. *)
Lemma findNextStoreStep_choice (cands : gmap Z (gmap string RegionInfo))
    (avg : float) (acc : Z * float) (entry : Z * batchCopTask) :
  findNextStoreStep cands avg acc entry = acc \/
  ((findNextStoreStep cands avg acc entry).1 = entry.1 /\
   0 < lenCandidates cands entry.1).
Proof.
  destruct acc as [store possible], entry as [storeID t].
  unfold findNextStoreStep.
  destruct ((store =? MaxUint64) && (0 <? lenCandidates cands storeID)) eqn:Hb.
  - right. apply andb_true_iff in Hb as [_ Hb%Z.ltb_lt]. by split.
  - destruct (decide (lenCandidates cands storeID = 0)) as [Hz|Hnz].
    + rewrite Hz.
      destruct (zero_candidates_not_chosen avg
                  (float64 (lenZ (regionInfos t))) possible) as [Hq|Hq];
        simpl in Hq; rewrite Hq; [by left|].
      destruct (_ =? _)%float; by left.
    + destruct (_ =? _)%float; [by left|].
      destruct (_ <? _)%float; [|by left]. right. split; [done|].
      pose proof (lenCandidates_nonneg cands storeID). simpl. lia.
Qed.

Lemma findNextStore_fold (cands : gmap Z (gmap string RegionInfo))
    (avg : float) (l : list (Z * batchCopTask)) :
  forall acc : Z * float,
  0 < lenCandidates cands acc.1 \/
  (acc.1 = MaxUint64 /\ exists e, e ∈ l /\ 0 < lenCandidates cands e.1) ->
  0 < lenCandidates cands (fold_left (findNextStoreStep cands avg) l acc).1.
Proof.
  induction l as [|e l IH]; intros acc Hacc; simpl.
  - destruct Hacc as [?|[_ [e [?%elem_of_nil _]]]]; done.
  - apply IH.
    destruct (findNextStoreStep_choice cands avg acc e) as [Heq|[Heq Hpos]].
    + rewrite Heq. destruct Hacc as [?|[Hmax (e' & Hin & Hpos)]]; [by left|].
      apply elem_of_cons in Hin as [->|Hin]; [|right; split; [done|by exists e']].
      left. destruct acc as [store possible], e as [storeID t].
      simpl in *. subst store. unfold findNextStoreStep in Heq.
      assert ((MaxUint64 =? MaxUint64) && (0 <? lenCandidates cands storeID)
              = true) as Hb.
      { apply andb_true_iff. split; [apply Z.eqb_refl|by apply Z.ltb_lt]. }
      rewrite Hb in Heq. by simplify_eq.
    + left. by rewrite Heq.
Qed.

(** [findNextStore] returns a store with candidates when a store with a
    task has candidates. *)
Lemma findNextStore_finds (seed : list nat) (m : gmap Z batchCopTask)
    (cands : gmap Z (gmap string RegionInfo)) (avg : float) (s : Z) :
  is_Some (m !! s) -> 0 < lenCandidates cands s ->
  0 < lenCandidates cands (findNextStore seed m cands avg).1.
Proof.
  intros [t Ht] Hpos. unfold findNextStore. apply findNextStore_fold.
  right. split; [done|]. exists (s, t). split; [|done].
  by apply elem_of_shuffle, elem_of_map_to_list.
Qed.

Section Loop.
Variable regionKey : RegionVerID -> string.
Variable mapOrder : nat -> list nat.
Variable tasks : list batchCopTask.

Lemma holds_lenCandidates (cands : gmap Z (gmap string RegionInfo)) (s : Z)
    (k : string) (r : RegionInfo) :
  holds cands s k r -> 0 < lenCandidates cands s.
Proof.
  intros (m & Hm & Hk). unfold lenCandidates. rewrite Hm.
  assert (size m <> 0%nat); [|lia].
  apply map_size_non_empty_iff. intros ->. by rewrite lookup_empty in Hk.
Qed.

Lemma firstCandidate_is_Some (st : balanceState) :
  0 < lenCandidates (bCandidates st) (bStore st) ->
  is_Some (firstCandidate mapOrder st).
Proof.
  unfold lenCandidates, firstCandidate.
  destruct (bCandidates st !! bStore st) as [m|]; [|lia]. intros Hpos.
  pose proof (Permutation_length
                (shuffle_Permutation (mapOrder (bRanges st)) (map_to_list m)))
    as Hlen.
  rewrite length_map_to_list in Hlen.
  destruct (shuffle _ _); simpl in *; [lia|by eexists].
Qed.

(** While the counter is positive, a participating store has a
    candidate. *)
Lemma loopInv_candidate (rem : list RegionInfo) (st : balanceState) :
  loopInv regionKey tasks rem st -> 0 < bTotalCandidateStoreNum st ->
  exists s, is_Some (bStoreTaskMap st !! s) /\
            0 < lenCandidates (bCandidates st) s.
Proof.
  intros (Hk & [_ Hiff] & Hsub & D & HD & Htot & _) Hpos.
  destruct (sumZ_pos (validStoreCount tasks) rem) as (r & Hr & Hv); [lia|].
  destruct (candidate_stores tasks r (Hsub r Hr)) as (_ & _ & Hex & _).
  destruct (Hex Hv) as (s & Hs & Hpart). exists s. split; [by apply Hk|].
  eapply holds_lenCandidates. apply Hiff. by split.
Qed.

Lemma refreshStore_finds (rem : list RegionInfo) (st : balanceState) :
  loopInv regionKey tasks rem st -> 0 < bTotalCandidateStoreNum st ->
  0 < lenCandidates (bCandidates (refreshStore mapOrder st))
        (bStore (refreshStore mapOrder st)).
Proof.
  intros Hinv Hpos. unfold refreshStore.
  destruct (lenCandidates (bCandidates st) (bStore st) =? 0) eqn:Hz.
  - destruct (loopInv_candidate rem st Hinv Hpos) as (s & Hs & Hc).
    pose proof (findNextStore_finds (mapOrder (bRanges st)) _ _
                  (bAvgStorePerTask st) s Hs Hc) as Hfind.
    by destruct (findNextStore _ _ _ _).
  - apply Z.eqb_neq in Hz.
    pose proof (lenCandidates_nonneg (bCandidates st) (bStore st)). lia.
Qed.

Lemma loopInv_refreshStore (rem : list RegionInfo) (st : balanceState) :
  loopInv regionKey tasks rem st ->
  loopInv regionKey tasks rem (refreshStore mapOrder st).
Proof.
  unfold refreshStore. destruct (_ =? 0); [|done].
  by destruct (findNextStore _ _ _ _).
Qed.

Lemma reselect_is_Some (m : gmap Z batchCopTask)
    (cands : gmap Z (gmap string RegionInfo)) (avg : float) (stores : list Z) :
  forall (store : Z) (possible : float),
  (forall s, s ∈ stores -> is_Some (m !! s)) ->
  is_Some (reselect m cands avg stores store possible).
Proof.
  induction stores as [|id stores IH]; intros store possible Hall; simpl;
    [by eexists|].
  assert (forall s, s ∈ stores -> is_Some (m !! s)) as Hrest
    by (intros s Hs; apply Hall; by right).
  destruct (negb (id =? store) && (0 <? lenCandidates cands id)); [|by apply IH].
  unfold lenRegionInfos. destruct (Hall id) as [t ->]; [by left|].
  destruct (_ <=? _)%float; by apply IH.
Qed.

(** Assigning a candidate keeps the invariant for the candidates that are
    left. *)
Lemma assignCandidate_inv (rem : list RegionInfo) (st st' : balanceState)
    (k : string) (r : RegionInfo) :
  loopInv regionKey tasks rem st -> holds (bCandidates st) (bStore st) k r ->
  assignCandidate k r st = Some st' ->
  exists l1 l2, rem = l1 ++ r :: l2 /\ loopInv regionKey tasks (l1 ++ l2) st' /\
    bTotalCandidateStoreNum st'
      = bTotalCandidateStoreNum st - lenZ (AllStores r) /\
    exists t, bStoreTaskMap st !! bStore st = Some t /\
      bStoreTaskMap st' = <[bStore st := withRegion t r]> (bStoreTaskMap st).
Proof.
  intros (Hk & Hc & Hsub & D & HD & Htot & Hfull) Hholds Has.
  pose proof Hc as [_ Hiff]. apply Hiff in Hholds as (Hr & -> & Hs).
  destruct (candidate_stores tasks r (Hsub r Hr)) as (Hlen & Hle & _ & Hfv).
  destruct (dropCandidate_candInv regionKey rem r (bCandidates st)
              (bTotalCandidateStoreNum st) Hc Hr)
    as (l1 & l2 & -> & Hc' & Htot'); [lia|].
  exists l1, l2. split; [done|].
  unfold assignCandidate in Has.
  destruct (appendRegion _ _ _) as [tasks'|] eqn:Happ; [|done].
  assert (keysOf tasks tasks') as Hk' by by eapply appendRegion_keysOf.
  assert (exists t, bStoreTaskMap st !! bStore st = Some t /\
            tasks' = <[bStore st := withRegion t r]> (bStoreTaskMap st))
    as Htask.
  { unfold appendRegion in Happ.
    destruct (bStoreTaskMap st !! bStore st) as [t|]; [|done].
    exists t. split; [done|]. by simplify_eq. }
  destruct (dropCandidate _ _ _ _) as [cands' total'] eqn:Hdrop.
  simpl in Hc', Htot'.
  assert (forall r', r' ∈ l1 ++ l2 -> r' ∈ candidateRegions tasks) as Hsub'.
  { intros r' Hr'. apply Hsub. apply elem_of_app in Hr' as [?|?];
      apply elem_of_app; [by left|right; by right]. }
  assert (exists D', 0 <= D' /\
            total' = sumZ (validStoreCount tasks) (l1 ++ l2) - D' /\
            (fullyValid tasks -> D' = 0)) as HD'.
  { exists (D + (lenZ (AllStores r) - validStoreCount tasks r)).
    rewrite sumZ_middle in Htot. split; [lia|]. split; [lia|].
    intros Hf. rewrite (Hfull Hf), (Hfv Hf). lia. }
  assert (forall st0, bStoreTaskMap st0 = tasks' -> bCandidates st0 = cands' ->
            bTotalCandidateStoreNum st0 = total' ->
            loopInv regionKey tasks (l1 ++ l2) st0)
    as Hmk.
  { intros st0 E1 E2 E3. unfold loopInv. by rewrite E1, E2, E3. }
  destruct (0 <? _).
  - destruct (lenRegionInfos _ _); [|done].
    destruct (reselect _ _ _ _ _ _) as [[store possible]|]; [|done].
    simplify_eq. split; [by apply Hmk|done].
  - simplify_eq. split; [by apply Hmk|done].
Qed.

(** When every store of every candidate participates, assigning a
    candidate does not dereference nil. *)
Lemma assignCandidate_is_Some (rem : list RegionInfo) (st : balanceState)
    (k : string) (r : RegionInfo) :
  loopInv regionKey tasks rem st -> holds (bCandidates st) (bStore st) k r ->
  fullyValid tasks -> is_Some (assignCandidate k r st).
Proof.
  intros (Hk & [_ Hiff] & Hsub & _) Hholds Hfull.
  apply Hiff in Hholds as (Hr & -> & Hs).
  assert (forall s, s ∈ AllStores r -> is_Some (bStoreTaskMap st !! s)) as Hall.
  { intros s Hs'. apply Hk. by eapply Hfull; [apply Hsub|]. }
  unfold assignCandidate.
  destruct (appendRegion_is_Some (bStore st) r (bStoreTaskMap st) (Hall _ Hs))
    as [tasks' Happ]. rewrite Happ.
  assert (keysOf tasks tasks') as Hk' by by eapply appendRegion_keysOf.
  destruct (dropCandidate _ _ _ _) as [cands' total'].
  destruct (0 <? _); [|by eexists].
  unfold lenRegionInfos at 1.
  destruct (proj2 (Hk' (bStore st))) as [t' ->];
    [apply Hk; by apply Hall|].
  destruct (reselect_is_Some tasks' cands'
              (float64 total' / float64 (bTotalCandidateCopTaskNum st - 1))
              (AllStores r) (bStore st)
              (projectedLoad cands' (bAvgStorePerTask st) (bStore st)
                 (lenZ (regionInfos t')))) as [[store possible] ->].
  { intros s Hs'. apply Hk', Hk. by apply Hall. }
  by eexists.
Qed.

Lemma regionsOf_insert (m : gmap Z batchCopTask) (id : Z) (t : batchCopTask)
    (ri : RegionInfo) :
  m !! id = Some t ->
  regionsOf (<[id := withRegion t ri]> m) ≡ₚ ri :: regionsOf m.
Proof.
  intros Hid. unfold regionsOf.
  assert (map_to_list (<[id := withRegion t ri]> m)
          ≡ₚ (id, withRegion t ri) :: map_to_list (delete id m)) as H1.
  { rewrite <- (insert_delete_eq m id).
    apply map_to_list_insert, lookup_delete_eq. }
  assert (map_to_list m ≡ₚ (id, t) :: map_to_list (delete id m)) as H2
    by (symmetry; by apply map_to_list_delete).
  rewrite (Permutation_flat_map _ H1), (Permutation_flat_map _ H2). simpl.
  rewrite <- app_assoc. simpl.
  change (ri :: ?l) with ([ri] ++ l).
  rewrite !app_assoc. apply Permutation_app_tail, Permutation_app_comm.
Qed.

(** The main loop does not spin: fuel beyond the number of candidates is
    never used up.  When every store of every candidate participates, it
    neither panics nor leaves a candidate behind. *)
Lemma balanceLoop_runs (fuel : nat) :
  forall (rem : list RegionInfo) (st : balanceState),
  loopInv regionKey tasks rem st -> (length rem < fuel)%nat ->
  balanceLoop mapOrder fuel st <> OutOfFuel /\
  (fullyValid tasks ->
   exists st', balanceLoop mapOrder fuel st = Returned st' /\
     regionsOf (bStoreTaskMap st') ≡ₚ regionsOf (bStoreTaskMap st) ++ rem).
Proof.
  induction fuel as [|fuel IH]; intros rem st Hinv Hfuel; [lia|]. simpl.
  destruct (0 <? bTotalCandidateStoreNum st) eqn:Hpos.
  - apply Z.ltb_lt in Hpos.
    pose proof (loopInv_refreshStore rem st Hinv) as Hinv1.
    pose proof (refreshStore_finds rem st Hinv Hpos) as Hlen.
    destruct (refreshStore_maps mapOrder st) as [Em _].
    destruct (firstCandidate_is_Some _ Hlen) as [[k r] Hfirst].
    rewrite Hfirst.
    apply firstCandidate_elem in Hfirst as Hholds.
    fold (holds (bCandidates (refreshStore mapOrder st))
            (bStore (refreshStore mapOrder st)) k r) in Hholds.
    destruct (assignCandidate k r (refreshStore mapOrder st)) as [st2|] eqn:Has.
    + destruct (assignCandidate_inv rem _ st2 k r Hinv1 Hholds Has)
        as (l1 & l2 & -> & Hinv2 & Htot2 & t & Ht & Hm2).
      destruct (IH (l1 ++ l2) st2 Hinv2) as [Hno Hfull].
      { rewrite length_app in *. simpl in Hfuel. lia. }
      split; [done|]. intros Hf. destruct (Hfull Hf) as (st' & Hrun & Hperm).
      exists st'. split; [done|]. rewrite Hperm, Hm2.
      rewrite regionsOf_insert by done. rewrite Em.
      change (r :: ?l) with ([r] ++ l). rewrite <- !app_assoc.
      rewrite (Permutation_app_comm [r]), <- !app_assoc.
      do 2 apply Permutation_app_head. apply Permutation_app_comm.
    + split; [done|]. intros Hf.
      destruct (assignCandidate_is_Some rem _ k r Hinv1 Hholds Hf) as [? ?].
      congruence.
  - split; [done|]. intros Hf. exists st. split; [done|].
    apply Z.ltb_ge in Hpos.
    destruct Hinv as (_ & _ & Hsub & D & HD & Htot & Hfull).
    rewrite (Hfull Hf) in Htot.
    assert (2 * lenZ rem <= sumZ (validStoreCount tasks) rem) as Hlow.
    { apply sumZ_lower. intros r Hr.
      destruct (candidate_stores tasks r (Hsub r Hr)) as (Hlen & _ & _ & Hfv).
      rewrite (Hfv Hf). unfold lenZ. lia. }
    destruct rem as [|r rem]; [by rewrite app_nil_r|]. exfalso.
    unfold lenZ in Hlow.
    change (length (r :: rem)) with (S (length rem)) in Hlow. lia.
Qed.

Lemma refreshStore_total (st : balanceState) :
  bTotalCandidateStoreNum (refreshStore mapOrder st)
  = bTotalCandidateStoreNum st.
Proof.
  unfold refreshStore. destruct (_ =? 0); [|done].
  by destruct (findNextStore _ _ _ _).
Qed.

(** What the main loop has done when it returns.  It has assigned the
    candidates [assigned], in this order, and left the candidates [left]
    in the candidate maps; each assignment took the number of stores of
    the region from the counter, the counter was positive before the last
    assignment and is not positive at the end. *)
Lemma balanceLoop_assigns (fuel : nat) :
  forall (rem : list RegionInfo) (st st' : balanceState),
  loopInv regionKey tasks rem st -> balanceLoop mapOrder fuel st = Returned st' ->
  exists assigned left,
    rem ≡ₚ assigned ++ left /\
    regionsOf (bStoreTaskMap st') ≡ₚ regionsOf (bStoreTaskMap st) ++ assigned /\
    bTotalCandidateStoreNum st - sumZ storeCount assigned <= 0 /\
    forall init last, assigned = init ++ [last] ->
      0 < bTotalCandidateStoreNum st - sumZ storeCount init.
Proof.
  induction fuel as [|fuel IH]; intros rem st st' Hinv Hrun; [done|].
  simpl in Hrun.
  destruct (0 <? bTotalCandidateStoreNum st) eqn:Hpos.
  - apply Z.ltb_lt in Hpos.
    pose proof (loopInv_refreshStore rem st Hinv) as Hinv1.
    pose proof (refreshStore_finds rem st Hinv Hpos) as Hlen.
    destruct (refreshStore_maps mapOrder st) as [Em _].
    pose proof (refreshStore_total st) as Et.
    destruct (firstCandidate_is_Some _ Hlen) as [[k r] Hfirst].
    rewrite Hfirst in Hrun.
    apply firstCandidate_elem in Hfirst as Hholds.
    fold (holds (bCandidates (refreshStore mapOrder st))
            (bStore (refreshStore mapOrder st)) k r) in Hholds.
    destruct (assignCandidate k r (refreshStore mapOrder st)) as [st2|] eqn:Has;
      [|done].
    destruct (assignCandidate_inv rem _ st2 k r Hinv1 Hholds Has)
      as (l1 & l2 & -> & Hinv2 & Htot2 & t & Ht & Hm2).
    destruct (IH (l1 ++ l2) st2 st' Hinv2 Hrun)
      as (assigned & left & Hrem & Hregions & Hend & Hlast).
    exists (r :: assigned), left. split; [|split; [|split]].
    + rewrite <- Permutation_middle. simpl. by constructor.
    + rewrite Hregions, Hm2, regionsOf_insert by done. rewrite Em.
      by rewrite <- Permutation_middle.
    + simpl. unfold storeCount at 1. lia.
    + intros init last Heq. destruct init as [|r0 init]; simpl in *; [lia|].
      simplify_eq. specialize (Hlast init last eq_refl).
      unfold storeCount at 1. lia.
  - simplify_eq. apply Z.ltb_ge in Hpos. exists [], rem.
    split; [done|]. split; [by rewrite app_nil_r|]. split; [simpl; lia|].
    intros init last Heq. by destruct init.
Qed.

Lemma placeRegions_regions (p : Z) (ris : list RegionInfo)
    (st st' : collectState) :
  placeRegions regionKey p ris st = Collected st' ->
  keysOf tasks (cStoreTaskMap st) ->
  regionsOf (cStoreTaskMap st')
    ++ filter (fun ri => validStoreCount tasks ri <> 1) ris
  ≡ₚ regionsOf (cStoreTaskMap st) ++ ris.
Proof.
  revert st; induction ris as [|ri ris IH]; intros st Hpl Hk; simpl in Hpl.
  - by simplify_eq.
  - destruct (placeRegion regionKey p ri st) as [| |st1] eqn:H1; try done.
    pose proof (placeRegion_keysOf regionKey tasks p ri st st1 H1 Hk) as Hk1.
    specialize (IH st1 Hpl Hk1).
    unfold placeRegion in H1.
    rewrite (validStoreNumOf_keysOf tasks) in H1 by done.
    destruct (decide (validStoreCount tasks ri = 1)) as [Hv|Hv].
    + rewrite filter_cons_False by tauto. rewrite IH.
      rewrite Hv in H1; simpl in H1. unfold appendRegion in H1.
      destruct (cStoreTaskMap st !! p) as [t|] eqn:Hp; [|done].
      simplify_eq; simpl. fold (withRegion t ri).
      rewrite regionsOf_insert by done.
      change (ri :: ?l) with ([ri] ++ l).
      rewrite !app_assoc. apply Permutation_app_tail, Permutation_app_comm.
    + rewrite filter_cons_True by done.
      apply Z.eqb_neq in Hv as Hv'. rewrite Hv' in H1; simpl in H1.
      destruct (putCandidate _ _ _ _); [|done]. simplify_eq; simpl in *.
      rewrite <- !Permutation_middle. by constructor.
Qed.

Lemma collectTasks_regions (rest : list batchCopTask) (st st' : collectState) :
  collectTasks regionKey rest st = Collected st' ->
  keysOf tasks (cStoreTaskMap st) ->
  regionsOf (cStoreTaskMap st')
    ++ filter (fun ri => validStoreCount tasks ri <> 1) (nonPinnedRegions rest)
  ≡ₚ regionsOf (cStoreTaskMap st) ++ nonPinnedRegions rest.
Proof.
  revert st; induction rest as [|t rest IH]; intros st Hco Hk; simpl in Hco.
  - by simplify_eq.
  - destruct (primaryStore t) as [p|]; [|done].
    destruct (placeRegions regionKey p _ st) as [| |st1] eqn:H1; try done.
    pose proof (placeRegions_keysOf regionKey tasks p _ st st1 H1 Hk) as Hk1.
    unfold nonPinnedRegions; simpl. rewrite filter_app.
    fold (nonPinnedRegions rest).
    rewrite (Permutation_app_comm (filter _ (tail _))), app_assoc.
    rewrite (IH st1 Hco Hk1).
    rewrite <- app_assoc, (Permutation_app_comm (nonPinnedRegions rest)).
    rewrite app_assoc, (placeRegions_regions p _ st st1 H1 Hk).
    by rewrite <- app_assoc.
Qed.

End Loop.

Lemma pinTasks_regions (tasks : list batchCopTask) :
  forall m m' : gmap Z batchCopTask,
  pinTasks tasks m = Some m' ->
  NoDup (participating tasks) ->
  (forall s, s ∈ participating tasks -> m !! s = None) ->
  regionsOf m' ≡ₚ regionsOf m ++ pinnedRegions tasks.
Proof.
  induction tasks as [|t tasks IH]; intros m m' Hpin Hnd Hfresh; simpl in Hpin.
  - simplify_eq. unfold pinnedRegions; simpl. by rewrite app_nil_r.
  - unfold participating, pinnedRegions, primaryStore in *. simpl in *.
    destruct (regionInfos t) as [|ri0 ris]; [done|].
    destruct (AllStores ri0) as [|s0 ss]; [done|]. simpl in *.
    apply NoDup_cons in Hnd as [Hs0 Hnd].
    rewrite (IH _ _ Hpin Hnd).
    + unfold regionsOf. rewrite map_to_list_insert by (apply Hfresh; by left).
      simpl. by rewrite <- Permutation_middle.
    + intros s Hs. rewrite lookup_insert_ne by (intros ->; done).
      apply Hfresh. by right.
Qed.

Lemma allRegions_split (tasks : list batchCopTask) :
  wellFormedDraft tasks ->
  allRegions tasks ≡ₚ pinnedRegions tasks ++ nonPinnedRegions tasks.
Proof.
  unfold allRegions, pinnedRegions, nonPinnedRegions.
  induction tasks as [|t tasks IH]; intros Hwf; [done|].
  apply Forall_cons in Hwf as [[p Hp] Hwf]. simpl.
  unfold primaryStore in Hp. destruct (regionInfos t) as [|ri0 ris]; [done|].
  simpl. constructor. rewrite (IH Hwf).
  rewrite !app_assoc. apply Permutation_app_tail, Permutation_app_comm.
Qed.

Lemma allRegions_of_map (seed : list nat) (m : gmap Z batchCopTask) :
  allRegions (map snd (shuffle seed (map_to_list m))) ≡ₚ regionsOf m.
Proof.
  unfold allRegions, regionsOf. rewrite flat_map_concat_map, map_map.
  rewrite <- flat_map_concat_map.
  apply Permutation_flat_map, shuffle_Permutation.
Qed.

Section Whole.
Variable regionKey : RegionVerID -> string.
Variable mapOrder : nat -> list nat.
Variable tasks : list batchCopTask.

(** The state in which the main loop starts. *)
Lemma loopInv_start (m : gmap Z batchCopTask) (c : collectState)
    (avg possible : float) (store : Z) (n : nat) :
  pinTasks tasks ∅ = Some m ->
  collectTasks regionKey tasks
    {| cStoreTaskMap := m; cCandidates := ∅;
       cTotalCandidateStoreNum := 0; cTotalCandidateCopTaskNum := 0 |}
    = Collected c ->
  loopInv regionKey tasks (candidateRegions tasks)
    {| bStoreTaskMap := cStoreTaskMap c;
       bCandidates := cCandidates c;
       bTotalCandidateStoreNum := cTotalCandidateStoreNum c;
       bTotalCandidateCopTaskNum := cTotalCandidateCopTaskNum c;
       bAvgStorePerTask := avg;
       bStore := store;
       bPossibleTaskNum := possible;
       bRanges := n |}.
Proof.
  intros Hpin Hco.
  eapply (collectTasks_inv regionKey tasks tasks []) in Hco
    as (Hk & Hc & Htot & Hnum); [|by apply collectInv_start].
  simpl in *. split; [done|]. split; [done|]. split; [done|].
  exists 0. split; [done|]. split; [|done]. simpl.
  unfold candidateRegions. lia.
Qed.

Lemma candidates_bound :
  (length (candidateRegions tasks) <= length (nonPinnedRegions tasks))%nat.
Proof. apply length_filter. Qed.

(** The balancer returns or panics: with as much fuel as there are
    regions that are not pinned, plus one, the model never runs out of
    fuel, whatever the order of map iteration. *)
Lemma balance_fuel_suffices (fuel : nat) :
  (length (nonPinnedRegions tasks) < fuel)%nat ->
  balanceBatchCopTask regionKey mapOrder fuel tasks <> OutOfFuel.
Proof.
  intros Hfuel. unfold balanceBatchCopTask.
  destruct (pinTasks tasks ∅) as [m|] eqn:Hpin; [|done].
  destruct (collectTasks regionKey tasks _) as [| |c] eqn:Hco; try done.
  destruct (_ =? 0); [done|].
  destruct (findNextStore _ _ _ _) as [store possible].
  match goal with
  | |- context [balanceLoop mapOrder fuel ?st] =>
      destruct (balanceLoop_runs regionKey mapOrder tasks fuel
                  (candidateRegions tasks) st) as [Hno _]
  end.
  - by eapply loopInv_start.
  - pose proof candidates_bound. lia.
  - by destruct (balanceLoop _ _ _).
Qed.

End Whole.

(** Conservation, where it holds.  Let the draft be well formed, its
    primary stores pairwise different, and every store of every candidate
    region a participating one.  Then the balancer returns, and the
    regions of the tasks it returns are the regions of the draft, each as
    often as there. *)
Theorem balance_conserves_when_replicas_participate
    (regionKey : RegionVerID -> string) (mapOrder : nat -> list nat)
    (fuel : nat) (tasks : list batchCopTask) :
  wellFormedDraft tasks ->
  NoDup (participating tasks) ->
  fullyValid tasks ->
  (length (nonPinnedRegions tasks) < fuel)%nat ->
  exists ret,
    balanceBatchCopTask regionKey mapOrder fuel tasks = Returned ret /\
    allRegions ret ≡ₚ allRegions tasks.
Proof.
  intros Hwf Hnd Hfull Hfuel. unfold balanceBatchCopTask.
  destruct (pinTasks_wellFormed tasks ∅ Hwf) as [m Hpin]. rewrite Hpin.
  destruct (collectTasks regionKey tasks _) as [| |c] eqn:Hco.
  - by exists tasks.
  - exfalso. eapply (collectTasks_no_nil regionKey tasks tasks) in Hco;
      [done|done|done|]. by apply pinTasks_keysOf.
  - destruct (_ =? 0); [by exists tasks|].
    destruct (findNextStore _ _ _ _) as [store possible].
    match goal with
    | |- context [balanceLoop mapOrder fuel ?st] =>
        destruct (balanceLoop_runs regionKey mapOrder tasks fuel
                    (candidateRegions tasks) st) as [_ Hrun]
    end.
    + by eapply loopInv_start.
    + pose proof (candidates_bound tasks). lia.
    + destruct (Hrun Hfull) as (st' & -> & Hperm). simpl in Hperm.
      eexists. split; [done|].
      rewrite allRegions_of_map, Hperm.
      rewrite (collectTasks_regions regionKey tasks tasks _ c Hco)
        by (by apply pinTasks_keysOf).
      simpl. rewrite (pinTasks_regions tasks ∅ m Hpin Hnd)
        by (intros; apply lookup_empty).
      unfold regionsOf at 1. rewrite map_to_list_empty. simpl.
      by rewrite allRegions_split.
Qed.

(** The balancer ends: with more fuel than there are regions that are
    not pinned, it returns or it panics, whatever the order of map
    iteration. *)
Theorem balance_returns_or_panics
    (regionKey : RegionVerID -> string) (mapOrder : nat -> list nat)
    (fuel : nat) (tasks : list batchCopTask) :
  (length (nonPinnedRegions tasks) < fuel)%nat ->
  balanceBatchCopTask regionKey mapOrder fuel tasks = Panicked \/
  exists ret, balanceBatchCopTask regionKey mapOrder fuel tasks = Returned ret.
Proof.
  intros Hfuel.
  pose proof (balance_fuel_suffices regionKey mapOrder tasks fuel Hfuel) as Hno.
  destruct (balanceBatchCopTask regionKey mapOrder fuel tasks) as [ret| |];
    [right; by exists ret|by left|done].
Qed.

(** The planner's fuel at [draftThirdReplica]: three regions are not
    pinned, four units of fuel are enough. *)
Lemma balance_returns_or_panics_witness :
  balanceBatchCopTask showRegion plainOrder 4 draftThirdReplica = Panicked \/
  exists ret,
    balanceBatchCopTask showRegion plainOrder 4 draftThirdReplica
    = Returned ret.
Proof.
  apply (balance_returns_or_panics showRegion plainOrder 4 draftThirdReplica).
  vm_compute. lia.
Defined.

(** C3.  Every task the balancer returns starts with the pinned (first)
    region of a task of the input draft and carries that task's store
    address and command type; the regions behind it were not pinned in the
    draft, so no pinned region is moved to another task. *)
Theorem balance_keeps_pins
    (regionKey : RegionVerID -> string) (mapOrder : nat -> list nat)
    (fuel : nat) (originalTasks ret : list batchCopTask) :
  balanceBatchCopTask regionKey mapOrder fuel originalTasks = Returned ret ->
  forall t, t ∈ ret ->
    keepsPin originalTasks t /\ restNotPinned originalTasks t.
Proof. intros Hbal t Ht. by eapply balance_good. Qed.

(** C3, at a draft that is balanced: the task returned for store 2 starts
    with region 20, the region pinned to store 2 in the draft. *)
Lemma balance_keeps_pins_witness :
  keepsPin draftTwoStores
    (task "s2" [rinfo 20 [2]; rinfo 13 [1; 2]; rinfo 12 [1; 2]]) /\
  restNotPinned draftTwoStores
    (task "s2" [rinfo 20 [2]; rinfo 13 [1; 2]; rinfo 12 [1; 2]]).
Proof.
  apply (balance_keeps_pins showRegion plainOrder 10 draftTwoStores
           [task "s2" [rinfo 20 [2]; rinfo 13 [1; 2]; rinfo 12 [1; 2]];
            task "s1" [rinfo 10 [1]; rinfo 11 [1; 2]]]).
  - vm_compute. reflexivity.
  - apply list_elem_of_here.
Defined.

(** C4, at a draft that lists region 11 twice. *)
Lemma balance_gives_up_on_duplicate_witness :
  balanceBatchCopTask showRegion plainOrder 10 draftRepeated
    = Returned draftRepeated.
Proof.
  apply (balance_gives_up_on_duplicate showRegion plainOrder 10 draftRepeated).
  - repeat constructor; by eexists.
  - apply (bool_decide_unpack _). vm_compute. exact I.
Defined.


(** A region that does not list the primary store of its draft task, which
    the planner does not build: in [draftStray] the only store of region 11
    that is a key of the store-task map is store 2, and line 134 appends the
    region to the task of store 1, the primary store of the draft task that
    lists it; the task of store 2 is left as it was, and the balancer
    returns the region in the task of store 1. *)
Lemma stray_region_joins_its_draft_task :
  exists m st',
    pinTasks draftStray ∅ = Some m /\
    validStoresIn m (rinfo 11 [2; 3]) = [2] /\
    placeRegion showRegion 1 (rinfo 11 [2; 3])
      {| cStoreTaskMap := m; cCandidates := ∅;
         cTotalCandidateStoreNum := 0; cTotalCandidateCopTaskNum := 0 |}
      = Collected st' /\
    regionInfos <$> (cStoreTaskMap st' !! 2) = Some [rinfo 20 [2]] /\
    regionInfos <$> (cStoreTaskMap st' !! 1)
      = Some [rinfo 10 [1]; rinfo 11 [2; 3]] /\
    balanceBatchCopTask showRegion plainOrder 10 draftStray
      = Returned [task "s2" [rinfo 20 [2]; rinfo 12 [1; 2]];
                  task "s1" [rinfo 10 [1]; rinfo 11 [2; 3]]].
Proof.
  eexists _, _. split; [reflexivity|]. split; [by vm_compute|].
  split; [reflexivity|]. by vm_compute.
Qed.

Lemma sumZ_const (f : RegionInfo -> Z) (c : Z) (l : list RegionInfo) :
  (forall r, r ∈ l -> f r = c) -> sumZ f l = c * lenZ l.
Proof.
  unfold lenZ. induction l as [|r l IH]; intros Hall; simpl; [lia|].
  rewrite (Hall r) by by left.
  rewrite IH by (intros r' Hr'; apply Hall; by right). lia.
Qed.

(** C1 fails at [draftThirdReplica] whatever the order of map iteration:
    when the balancer returns, it returns four of the five regions of the
    draft. *)
Theorem third_replica_never_conserved
    (mapOrder : nat -> list nat) (fuel : nat) (ret : list batchCopTask) :
  balanceBatchCopTask showRegion mapOrder fuel draftThirdReplica = Returned ret ->
  length (allRegions ret) = 4%nat /\
  ~ allRegions ret ≡ₚ allRegions draftThirdReplica.
Proof.
  intros Hbal.
  assert (length (allRegions ret) = 4%nat) as Hlen; cycle 1.
  { split; [done|]. intros Hp. apply Permutation_length in Hp.
    rewrite Hlen in Hp. by vm_compute in Hp. }
  unfold balanceBatchCopTask in Hbal.
  destruct (pinTasks draftThirdReplica ∅) as [m|] eqn:Hpin; [|done].
  destruct (collectTasks showRegion draftThirdReplica _) as [| |c] eqn:Hco.
  - exfalso. vm_compute in Hpin. simplify_eq.
  - exfalso. vm_compute in Hpin. simplify_eq.
  - pose proof (fun avg possible store n =>
        loopInv_start showRegion draftThirdReplica m c avg possible store n
          Hpin Hco) as Hstart.
    assert (cTotalCandidateStoreNum c = 6 /\
            length (regionsOf (cStoreTaskMap c)) = 2%nat) as [Htot Hpinned].
    { vm_compute in Hpin. simplify_eq. vm_compute in Hco. by simplify_eq. }
    destruct (cTotalCandidateStoreNum c =? 0) eqn:Hz;
      [by rewrite Htot in Hz|].
    destruct (findNextStore _ _ _ _) as [store possible].
    destruct (balanceLoop mapOrder fuel _) as [st'| |] eqn:Hloop; try done.
    simplify_eq.
    eapply balanceLoop_assigns in Hloop
      as (assigned & left & Hrem & Hregions & Hend & Hlast); [|apply Hstart].
    simpl in *. rewrite Htot in *.
    assert (forall r, r ∈ assigned -> storeCount r = 3) as Hthree.
    { intros r Hr.
      assert (r ∈ candidateRegions draftThirdReplica) as Hin
        by (rewrite Hrem; apply elem_of_app; by left).
      vm_compute in Hin.
      repeat (apply elem_of_cons in Hin as [->|Hin]; [done|]).
      by apply elem_of_nil in Hin. }
    rewrite allRegions_of_map, Hregions, length_app, Hpinned.
    assert (length assigned = 2%nat); [|lia].
    rewrite (sumZ_const storeCount 3) in Hend by done.
    destruct (decide (assigned = [])) as [->|Hne]; [by vm_compute in Hend|].
    destruct (exists_last Hne) as (init & last & ->).
    specialize (Hlast init last eq_refl).
    rewrite (sumZ_const storeCount 3) in Hlast.
    + unfold lenZ in *. rewrite length_app in *. simpl in *. lia.
    + intros r Hr. apply Hthree, elem_of_app. by left.
Qed.

(** C1, under the plain order of map iteration: region 12 is in no
    returned task. *)
Lemma third_replica_never_conserved_witness :
  length (allRegions [task "s2" [rinfo 20 [2]; rinfo 13 [1; 2; 5]];
                      task "s1" [rinfo 10 [1]; rinfo 11 [1; 2; 3]]]) = 4%nat /\
  ~ allRegions [task "s2" [rinfo 20 [2]; rinfo 13 [1; 2; 5]];
                task "s1" [rinfo 10 [1]; rinfo 11 [1; 2; 3]]]
    ≡ₚ allRegions draftThirdReplica.
Proof.
  apply (third_replica_never_conserved plainOrder 10
           [task "s2" [rinfo 20 [2]; rinfo 13 [1; 2; 5]];
            task "s1" [rinfo 10 [1]; rinfo 11 [1; 2; 3]]]).
  vm_compute. reflexivity.
Defined.

(** Conservation at [draftTwoStores], where all replicas are on the two
    participating stores. *)
Lemma balance_conserves_witness :
  exists ret,
    balanceBatchCopTask showRegion plainOrder 10 draftTwoStores = Returned ret /\
    allRegions ret ≡ₚ allRegions draftTwoStores.
Proof.
  apply (balance_conserves_when_replicas_participate showRegion plainOrder 10
           draftTwoStores).
  - repeat constructor; by eexists.
  - apply (bool_decide_unpack _). vm_compute. exact I.
  - intros r Hr s Hs. apply (bool_decide_unpack _).
    vm_compute in Hr.
    repeat (apply elem_of_cons in Hr as [->|Hr];
            [repeat (apply elem_of_cons in Hs as [->|Hs];
                     [vm_compute; exact I|]);
             by apply elem_of_nil in Hs|]).
    by apply elem_of_nil in Hr.
  - vm_compute. lia.
Defined.

(** *** The RPC context of balanced tasks *)

Section NoContext.
Variable regionKey : RegionVerID -> string.
Variable mapOrder : nat -> list nat.

Lemma pinTasks_noContext (tasks : list batchCopTask) :
  forall m m' : gmap Z batchCopTask,
  pinTasks tasks m = Some m' -> noContext m -> noContext m'.
Proof.
  induction tasks as [|t tasks IH]; intros m m' Hpin Hm; simpl in Hpin.
  - by simplify_eq.
  - destruct (regionInfos t) as [|ri0 ris]; [done|].
    destruct (AllStores ri0) as [|s0 ss]; [done|].
    eapply IH; [done|]. by apply map_Forall_insert_2.
Qed.

Lemma appendRegion_noContext (id : Z) (ri : RegionInfo)
    (m m' : gmap Z batchCopTask) :
  appendRegion id ri m = Some m' -> noContext m -> noContext m'.
Proof.
  unfold appendRegion. destruct (m !! id) as [t|] eqn:Hid; [|done].
  intros ? Hm; simplify_eq. apply map_Forall_insert_2; [|done].
  simpl. by eapply (Hm id t).
Qed.

Lemma placeRegions_noContext (p : Z) (ris : list RegionInfo) :
  forall st st' : collectState,
  placeRegions regionKey p ris st = Collected st' ->
  noContext (cStoreTaskMap st) -> noContext (cStoreTaskMap st').
Proof.
  induction ris as [|ri ris IH]; intros st st' Hpl Hm; simpl in Hpl.
  - by simplify_eq.
  - destruct (placeRegion regionKey p ri st) as [| |st1] eqn:H1; try done.
    eapply IH; [done|]. unfold placeRegion in H1. destruct (_ =? 1).
    + destruct (appendRegion _ _ _) eqn:Happ; [|done]. simplify_eq; simpl.
      by eapply appendRegion_noContext.
    + destruct (putCandidate _ _ _ _); [|done]. by simplify_eq.
Qed.

Lemma collectTasks_noContext (tasks : list batchCopTask) :
  forall st st' : collectState,
  collectTasks regionKey tasks st = Collected st' ->
  noContext (cStoreTaskMap st) -> noContext (cStoreTaskMap st').
Proof.
  induction tasks as [|t tasks IH]; intros st st' Hco Hm; simpl in Hco.
  - by simplify_eq.
  - destruct (primaryStore t) as [p|]; [|done].
    destruct (placeRegions regionKey p _ st) as [| |st1] eqn:H1; try done.
    eapply IH; [done|]. by eapply placeRegions_noContext.
Qed.

Lemma assignCandidate_noContext (k : string) (ri : RegionInfo)
    (st st' : balanceState) :
  assignCandidate k ri st = Some st' ->
  noContext (bStoreTaskMap st) -> noContext (bStoreTaskMap st').
Proof.
  unfold assignCandidate. intros Has Hm.
  destruct (appendRegion _ _ _) as [tasks|] eqn:Happ; [|done].
  apply appendRegion_noContext in Happ; [|done].
  destruct (dropCandidate _ _ _ _) as [cands total].
  destruct (0 <? _).
  - destruct (lenRegionInfos _ _); [|done].
    destruct (reselect _ _ _ _ _ _) as [[store possible]|]; [|done].
    by simplify_eq.
  - by simplify_eq.
Qed.

Lemma balanceLoop_noContext (fuel : nat) :
  forall st st' : balanceState,
  balanceLoop mapOrder fuel st = Returned st' ->
  noContext (bStoreTaskMap st) -> noContext (bStoreTaskMap st').
Proof.
  induction fuel as [|fuel IH]; intros st st' Hloop Hm; simpl in Hloop; [done|].
  destruct (0 <? _); [|by simplify_eq].
  destruct (refreshStore_maps mapOrder st) as [Em _].
  destruct (firstCandidate mapOrder _) as [[k ri]|].
  - destruct (assignCandidate k ri _) as [st2|] eqn:Has; [|done].
    eapply IH; [done|]. eapply assignCandidate_noContext; [done|].
    by rewrite Em.
  - eapply IH; [done|]. simpl. by rewrite Em.
Qed.

End NoContext.

(** The balancer gives the draft back or returns tasks without an RPC
    context: the tasks it builds in its first loop get no [ctx], and
    nothing sets it later. *)
Theorem balanced_tasks_have_no_context
    (regionKey : RegionVerID -> string) (mapOrder : nat -> list nat)
    (fuel : nat) (originalTasks ret : list batchCopTask) :
  balanceBatchCopTask regionKey mapOrder fuel originalTasks = Returned ret ->
  ret = originalTasks \/ Forall (fun t => ctx t = None) ret.
Proof.
  unfold balanceBatchCopTask. intros Hbal.
  destruct (pinTasks originalTasks ∅) as [m|] eqn:Hpin; [|done].
  destruct (collectTasks _ _ _) as [| |c] eqn:Hco; try done.
  { left. by simplify_eq. }
  destruct (_ =? 0); [left; by simplify_eq|].
  destruct (findNextStore _ _ _ _) as [store possible].
  destruct (balanceLoop _ _ _) as [st| |] eqn:Hloop; try done.
  simplify_eq. right.
  apply pinTasks_noContext in Hpin; [|apply map_Forall_empty].
  apply collectTasks_noContext in Hco; [|done].
  apply balanceLoop_noContext in Hloop; [|done].
  apply Forall_forall. intros t Ht.
  apply list_elem_of_fmap in Ht as ([s t'] & -> & Hin).
  apply elem_of_shuffle, elem_of_map_to_list in Hin. by eapply Hloop.
Qed.

(** *** The nil dereference of the main loop *)

(** Line 202 reads [storeTaskMap[id].regionInfos] for every store [id] of
    the region other than the current one that still has candidates; for a
    store without a task that is a nil dereference. *)
Lemma reselect_nil (m : gmap Z batchCopTask)
    (cands : gmap Z (gmap string RegionInfo)) (avg : float) (stores : list Z)
    (id : Z) :
  id ∈ stores -> m !! id = None -> 0 < lenCandidates cands id ->
  forall (store : Z) (possible : float),
  is_Some (m !! store) ->
  reselect m cands avg stores store possible = None.
Proof.
  intros Hin Hid Hpos.
  induction stores as [|id' stores IH]; intros store possible Hstore;
    [by apply elem_of_nil in Hin|].
  simpl. destruct (decide (id' = id)) as [->|Hne].
  - assert (id <> store) as Hdiff
      by (intros ->; rewrite Hid in Hstore; by destruct Hstore).
    apply Z.eqb_neq in Hdiff. rewrite Hdiff.
    apply Z.ltb_lt in Hpos. rewrite Hpos. simpl.
    unfold lenRegionInfos. by rewrite Hid.
  - apply elem_of_cons in Hin as [->|Hin]; [done|].
    destruct (negb (id' =? store) && (0 <? lenCandidates cands id'));
      [|by apply IH].
    unfold lenRegionInfos. destruct (m !! id') as [t|] eqn:Ht; [|done].
    destruct (_ <=? _)%float; by apply IH.
Qed.

(** The body of the main loop panics when the region it assigns has a
    store without a task that holds another candidate, and more than one
    candidate is left. *)
Lemma assignCandidate_nil (key : string) (ri : RegionInfo)
    (st : balanceState) (id : Z) :
  1 < bTotalCandidateCopTaskNum st ->
  id ∈ AllStores ri ->
  bStoreTaskMap st !! id = None ->
  0 < lenCandidates
        (dropCandidate key (AllStores ri) (bCandidates st)
           (bTotalCandidateStoreNum st)).1 id ->
  assignCandidate key ri st = None.
Proof.
  intros Hnum Hin Hid Hpos. unfold assignCandidate.
  destruct (appendRegion _ _ _) as [tasks|] eqn:Happ; [|done].
  unfold appendRegion in Happ.
  destruct (bStoreTaskMap st !! bStore st) as [t|] eqn:Hstore; [|done].
  simplify_eq.
  destruct (dropCandidate _ _ _ _) as [cands total]. simpl in Hpos.
  assert ((0 <? bTotalCandidateCopTaskNum st - 1) = true) as ->
    by (apply Z.ltb_lt; lia).
  destruct (lenRegionInfos _ _); [|done].
  rewrite (reselect_nil _ cands _ (AllStores ri) id); [done|done| |done|].
  - rewrite lookup_insert_ne; [done|]. intros <-. by rewrite Hstore in Hid.
  - rewrite lookup_insert_eq. by eexists.
Qed.

Lemma refreshStore_num (mapOrder : nat -> list nat) (st : balanceState) :
  bTotalCandidateCopTaskNum (refreshStore mapOrder st)
  = bTotalCandidateCopTaskNum st.
Proof.
  unfold refreshStore. destruct (_ =? 0); [|done].
  by destruct (findNextStore _ _ _ _).
Qed.

End BalanceFacts.

(** ** The request sender *)

(** C5.  When [SendRequest] fails with [err]: a cancelled error comes back
    traced, with [retry = false], and neither the region cache nor the
    backoffer is called; otherwise, when [ShuttingDown] is set, the
    shutting-down error comes back with [retry = false]; otherwise the
    region cache is told of the failure, the backoffer is called once with
    [BoTiFlashRPC], and when it returns nil the sender answers
    [retry = true] with no response and no error. *)
Theorem send_failure_classified
    (env : Env) (ss : RegionBatchRequestSender) (bo : Backoffer)
    (rpcCtx : RPCContext) (regionInfos : list RegionInfo) (req : Request)
    (timeout : Z) (tr : list Event) (err : error) :
  envSetContext env req (ctxMeta rpcCtx) (Peer rpcCtx) = None ->
  envSendRequest env
    (EvSendRequest (Addr rpcCtx) (stampRequest req rpcCtx) timeout :: tr)
    = inr err ->
  let tr1 := failedSendTrace ss bo rpcCtx req timeout err tr in
  let tr2 := EvLoadShuttingDown :: tr1 in
  let tr3 :=
    EvOnSendFail (Store rpcCtx) regionInfos
      (envNeedReloadRegion env (EvNeedReloadRegion rpcCtx :: tr2)) err
    :: EvNeedReloadRegion rpcCtx :: tr2 in
  let tr4 :=
    EvBackoff BoTiFlashRPC
      (ErrorString "send tikv request error, try next peer later") :: tr3 in
  SendReqToAddr env ss bo (Some rpcCtx) regionInfos req timeout tr =
    if isCanceled err then
      (Returned (None, false, CancelNothing, Some (Traced (Traced err))), tr1)
    else if 0 <? envShuttingDown env tr2 then
      (Returned (None, false, CancelNothing, Some (Traced ErrTiDBShuttingDown)),
       tr2)
    else
      match envBackoff env tr4 with
      | None => (Returned (None, true, CancelNothing, None), tr4)
      | Some e =>
          (Returned (None, false, CancelNothing, Some (Traced (Traced e))), tr4)
      end.
Proof.
  intros Hset Hsend. simpl.
  unfold SendReqToAddr, failedSendTrace, isCanceled. rewrite Hset.
  unfold bind at 1, call at 1. rewrite Hsend.
  unfold onSendFailForBatchRegions, Backoff, bind, call, emit, ret, runCancel.
  destruct (boHasCanceller bo), (ssHasStats ss); simpl;
    destruct (_ || _); simpl; try reflexivity;
    destruct (0 <? _); simpl; try reflexivity;
    destruct (envBackoff env _); reflexivity.
Qed.

(** ** The stream consumer *)

Lemma handleBatchCopResponse_forwarded (env : Env) (resp : BatchResponse)
    (task : batchCopTask) (tr : list Event) :
  OtherError resp = "" ->
  handleBatchCopResponse env resp task tr =
    (Returned None, snd (handleBatchCopResponse env resp task tr)).
Proof.
  intros Hother. unfold handleBatchCopResponse. rewrite Hother. simpl.
  unfold bind, sendToRespCh, ret. by destruct (envSelectSend env tr).
Qed.

Lemma streamLoop_receive_error (env : Env) (task : batchCopTask)
    (msgs : list BatchResponse) :
  forall (resp : BatchResponse) (e : error) (tr : list Event) (fuel : nat),
  streamDelivers env task resp msgs e tr ->
  (length msgs < fuel)%nat ->
  let tr' := streamTrace env task resp msgs tr in
  let trb :=
    EvBackoff BoTiKVRPC (ErrorString "recv stream response error") :: tr' in
  streamLoop env fuel resp task tr =
    if bool_decide (errorsCause e = IoEOF) then (Returned None, tr')
    else
      (Returned (match envBackoff env trb with
                 | Some _ => Some (Traced e)
                 | None => Some ErrTiFlashServerTimeout
                 end), trb).
Proof.
  induction msgs as [|m msgs IH]; intros resp e tr fuel Hdel Hfuel;
    destruct fuel as [|fuel]; try (simpl in Hfuel; lia);
    destruct Hdel as [Hother Hrecv]; simpl;
    unfold bind at 1; rewrite (handleBatchCopResponse_forwarded _ _ _ _ Hother);
    unfold bind at 1, call at 1.
  - rewrite Hrecv. destruct (bool_decide _); [reflexivity|].
    unfold bind, Backoff, call, ret. by destruct (envBackoff env _).
  - destruct Hrecv as [Hrecv Hdel]. rewrite Hrecv.
    apply IH; [done|]. simpl in Hfuel. lia.
Qed.

(** C6.  Let the stream hand out any number of messages after the first
    and then fail with [e].  At end of stream ([io.EOF]) the consumer
    returns nil.  Otherwise it calls the backoffer once with [BoTiKVRPC];
    if that fails it returns the receive error [e], traced, and if it
    succeeds it returns the server-timeout error.  In both cases nothing is
    received after the failure: the stream is closed and not retried. *)
Theorem stream_receive_error
    (env : Env) (task : batchCopTask) (resp : BatchResponse)
    (msgs : list BatchResponse) (e : error) (tr : list Event) (fuel : nat) :
  streamDelivers env task resp msgs e tr ->
  (length msgs < fuel)%nat ->
  let tr' := streamTrace env task resp msgs tr in
  let trb :=
    EvBackoff BoTiKVRPC (ErrorString "recv stream response error") :: tr' in
  handleStreamedBatchCopResponse env fuel (Some resp) task tr =
    if bool_decide (errorsCause e = IoEOF) then
      (Returned None, EvStreamClose :: tr')
    else
      (Returned (match envBackoff env trb with
                 | Some _ => Some (Traced e)
                 | None => Some ErrTiFlashServerTimeout
                 end), EvStreamClose :: trb).
Proof.
  intros Hdel Hfuel. simpl. unfold handleStreamedBatchCopResponse.
  unfold bind at 1.
  rewrite (streamLoop_receive_error env task msgs resp e tr fuel Hdel Hfuel).
  by destruct (bool_decide _).
Qed.

(** ** Iterator construction *)

(** C8.  A request that asks for order ([KeepOrder] or [Desc]) makes
    [sendBatch] return an error response without any call to the planner,
    the region cache or the runtime: the trace is unchanged, so no task is
    planned and no worker is started.  [Next] on that response returns the
    error. *)
Theorem ordered_request_rejected
    (env : Env) (fuel : nat) (req : kvRequest) (tr : list Event) :
  KeepOrder req = true \/ Desc req = true ->
  exists e,
    sendBatch env fuel req tr = (Returned (copErrorResponse e), tr) /\
    copErrorResponse_Next e = (None, Some e).
Proof.
  intros Hord. eexists. unfold sendBatch.
  assert (KeepOrder req || Desc req = true) as ->
    by (destruct Hord as [-> | ->]; [done|apply orb_true_r]).
  split; reflexivity.
Qed.

(** ** Closing the iterator *)

Section CloseOnce.
Variable env : Env.
Variable tr0 : list Event.

Lemma closeFinishOnce_inv (it : batchCopIterator) (tr : list Event) :
  closeInv tr0 it tr ->
  exists it' tr', closeFinishOnce it tr = (Returned it', tr') /\
                  closed it' <> 0 /\ closeInv tr0 it' tr'.
Proof.
  intros [(Hc & Hf & Hcas & Hfin)|(Hc & Hcas & Hfin)]; unfold closeFinishOnce.
  - rewrite Hc, Hf. simpl. eexists _, _. split; [reflexivity|].
    split; [done|]. right. simpl. split; [done|].
    unfold countCasWins, countFinishCloses in *. simpl. by rewrite Hcas, Hfin.
  - apply Z.eqb_neq in Hc as Hc'. rewrite Hc'. eexists _, _.
    split; [reflexivity|]. split; [done|]. right. by split.
Qed.

Lemma Close_inv (it : batchCopIterator) (tr : list Event) :
  closeInv tr0 it tr ->
  exists it' tr', Close it tr = (Returned (it', None), tr') /\
                  closed it' <> 0 /\ closeInv tr0 it' tr'.
Proof.
  intros Hinv. destruct (closeFinishOnce_inv it tr Hinv)
    as (it' & tr' & Hrun & Hc & Hinv').
  unfold Close, bind. rewrite Hrun. simpl. eexists _, _.
  split; [reflexivity|]. split; [done|].
  destruct Hinv' as [(? & _)|(? & Hcas & Hfin)]; [done|]. right. by split.
Qed.

Lemma setRespChan_inv (it : batchCopIterator) (q : list batchCopResponse)
    (tr : list Event) :
  closeInv tr0 it tr -> closeInv tr0 (setRespChan it q) tr.
Proof. done. Qed.

Lemma recvFromRespCh_inv (choices : list selectCase) (it : batchCopIterator)
    (tr : list Event) :
  closeInv tr0 it tr ->
  recvFromRespCh choices it tr = (OutOfFuel, tr) \/
  (exists it' resp ok exit tr',
     recvFromRespCh choices it tr = (Returned (it', (resp, ok, exit)), tr') /\
     closeInv tr0 it' tr' /\ (ok = true -> is_Some resp)).
Proof.
  intros Hinv. induction choices as [|c choices IH]; simpl.
  - by left.
  - destruct c as [|killed| |].
    + destruct (respChan it) as [|resp q].
      * destruct (respChanClosed it); [|done]. right.
        eexists _, _, _, _, _. split; [reflexivity|]. by split.
      * right. eexists _, _, _, _, _. split; [reflexivity|]. by split.
    + destruct (killed =? 1); [|done]. right.
      eexists _, _, _, _, _. split; [reflexivity|]. by split.
    + destruct (finishChClosed it); [|done]. right.
      eexists _, _, _, _, _. split; [reflexivity|]. by split.
    + destruct (closeFinishOnce_inv it tr Hinv)
        as (it' & tr' & Hrun & _ & Hinv').
      right. unfold bind. rewrite Hrun. simpl.
      eexists _, _, _, _, _. split; [reflexivity|]. by split.
Qed.

Lemma closeInv_cons (it : batchCopIterator) (ev : Event) (tr : list Event) :
  isCasWin ev = false -> isCloseFinishCh ev = false ->
  closeInv tr0 it tr -> closeInv tr0 it (ev :: tr).
Proof.
  intros H1 H2. unfold closeInv, countCasWins, countFinishCloses. simpl.
  by rewrite H1, H2.
Qed.

Lemma Next_inv (choices : list selectCase) (it : batchCopIterator)
    (tr : list Event) :
  closeInv tr0 it tr ->
  Next env choices it tr = (OutOfFuel, tr) \/
  (exists it' res tr',
     Next env choices it tr = (Returned (it', res), tr') /\ closeInv tr0 it' tr').
Proof.
  intros Hinv. unfold Next, bind.
  destruct (recvFromRespCh_inv choices it tr Hinv)
    as [Hrun|(it' & resp & ok & exit & tr' & Hrun & Hinv' & Hok)];
    rewrite Hrun; [by left|right].
  destruct ok; simpl; [|by eexists _, _, _].
  destruct (Hok eq_refl) as [r ->].
  destruct exit; simpl; [by eexists _, _, _|].
  destruct (err r); [by eexists _, _, _|].
  unfold call, ret.
  destruct (envCheckVisibility env _); eexists _, _, _;
    (split; [reflexivity|]); by apply closeInv_cons.
Qed.

Lemma closeInv_bound (it : batchCopIterator) (tr : list Event) :
  closeInv tr0 it tr ->
  (countCasWins tr <= S (countCasWins tr0))%nat /\
  (countFinishCloses tr <= S (countFinishCloses tr0))%nat.
Proof. intros [(_&_&->&->)|(_&->&->)]; lia. Qed.

Lemma runSteps_inv (steps : list iterStep) :
  forall (it : batchCopIterator) (tr : list Event),
  closeInv tr0 it tr ->
  exists out tr', runSteps env steps it tr = (out, tr') /\
    out <> Panicked /\
    (countCasWins tr' <= S (countCasWins tr0))%nat /\
    (countFinishCloses tr' <= S (countFinishCloses tr0))%nat.
Proof.
  induction steps as [|step steps IH]; intros it tr Hinv; simpl.
  - eexists _, _. split; [reflexivity|]. split; [done|].
    by eapply closeInv_bound.
  - destruct step as [|choices|resp|].
    + destruct (Close_inv it tr Hinv) as (it' & tr' & Hrun & _ & Hinv').
      unfold bind. rewrite Hrun. by apply IH.
    + destruct (Next_inv choices it tr Hinv)
        as [Hrun|(it' & res & tr' & Hrun & Hinv')];
        unfold bind; rewrite Hrun.
      * eexists _, _. split; [reflexivity|]. split; [done|].
        by eapply closeInv_bound.
      * by apply IH.
    + by apply IH.
    + by apply IH.
Qed.

End CloseOnce.

(** C9.  On an iterator as [sendBatch] builds it, two calls of [Close] in
    a row both return nil, and [finishCh] is closed once, by the first.
    More generally, whatever the caller and the workers do to the iterator
    and in whatever order, no call panics, the compare-and-swap on [closed]
    succeeds at most once and [finishCh] is closed at most once. *)
Theorem close_twice_closes_once
    (env : Env) (req : kvRequest) (tasks : list batchCopTask)
    (steps : list iterStep) (tr : list Event) :
  (exists it1 tr1 it2 tr2,
     Close (newIterator req tasks) tr = (Returned (it1, None), tr1) /\
     Close it1 tr1 = (Returned (it2, None), tr2) /\
     countFinishCloses tr1 = S (countFinishCloses tr) /\
     countFinishCloses tr2 = S (countFinishCloses tr) /\
     countCasWins tr2 = S (countCasWins tr)) /\
  (exists out tr',
     runSteps env steps (newIterator req tasks) tr = (out, tr') /\
     out <> Panicked /\
     (countCasWins tr' <= S (countCasWins tr))%nat /\
     (countFinishCloses tr' <= S (countFinishCloses tr))%nat).
Proof.
  assert (closeInv tr (newIterator req tasks) tr) as Hinv by (left; done).
  split; [|by apply runSteps_inv].
  destruct (Close_inv tr _ _ Hinv) as (it1 & tr1 & Hrun1 & Hc1 & Hinv1).
  destruct (Close_inv tr _ _ Hinv1) as (it2 & tr2 & Hrun2 & Hc2 & Hinv2).
  exists it1, tr1, it2, tr2. split; [done|]. split; [done|].
  destruct Hinv1 as [(?&_)|(_&_&?)]; [done|].
  destruct Hinv2 as [(?&_)|(_&?&?)]; [done|]. done.
Qed.

(** ** The planner *)

Lemma lookupsOf_app (seg tr : list Event) :
  lookupsOf (seg ++ tr) = lookupsOf tr ++ lookupsOf seg.
Proof.
  induction seg as [|ev seg IH]; simpl.
  - by rewrite app_nil_r.
  - destruct ev; try done. by rewrite IH, app_assoc.
Qed.

Lemma countBackoff_app (ty : BackoffType) (seg tr : list Event) :
  countBackoff ty (seg ++ tr) = (countBackoff ty seg + countBackoff ty tr)%nat.
Proof. unfold countBackoff. by rewrite List.filter_app, length_app. Qed.

Lemma cacheAnswered_app (env : Env) (tr seg1 seg2 : list Event) :
  cacheAnswered env (seg2 ++ tr) seg1 -> cacheAnswered env tr seg2 ->
  cacheAnswered env tr (seg1 ++ seg2).
Proof.
  intros H1 H2. induction seg1 as [|ev seg1 IH]; simpl; [done|].
  destruct H1 as [Hev H1]. split; [|by apply IH].
  by rewrite <- app_assoc.
Qed.

(** The loop over the cop tasks of a pass stops at the first lookup that
    fails and otherwise looks every region up, in order, whether or not
    earlier ones were missing. *)
Lemma resolveTasks_spec (env : Env) (tasks : list copTask) :
  forall (m : gmap string batchCopTask) (retry : bool) (tr : list Event),
  exists res seg,
    resolveTasks env tasks m retry tr = (Returned res, seg ++ tr) /\
    (forall ty, countBackoff ty seg = 0%nat) /\
    cacheAnswered env tr seg /\
    match res with
    | inr e =>
        exists e0 r before,
          e = Traced e0 /\
          lookupsOf seg = before ++ [(r, inr e0)] /\
          (forall r' e', (r', inr e') ∉ before) /\
          map fst (lookupsOf seg) `prefix_of` map ctRegion tasks
    | inl (m', retry') =>
        map fst (lookupsOf seg) = map ctRegion tasks /\
        (forall r e, (r, inr e) ∉ lookupsOf seg) /\
        (retry' = true <->
         retry = true \/ exists r, (r, inl None) ∈ lookupsOf seg)
    end.
Proof.
  induction tasks as [|task tasks IH]; intros m retry tr; simpl.
  - exists (inl (m, retry)), []. split; [done|]. split; [done|].
    split; [done|].
    split; [done|]. split; [by intros r e ?%elem_of_nil|].
    split; [by left|]. intros [?|[r ?%elem_of_nil]]; done.
  - unfold bind at 1, callLogged at 1.
    destruct (envGetTiFlashRPCContext env tr (ctRegion task))
      as [[rpcCtx|]|e] eqn:Hans.
    + unfold bind at 1, call at 1.
      set (ev1 := EvGetTiFlashRPCContext _ _).
      set (ev2 := EvGetAllValidTiFlashStores _ _).
      set (ri := {| Region := _ |}).
      assert (exists m1, match m !! Addr rpcCtx with
                | Some batchCop =>
                    resolveTasks env tasks
                      (<[Addr rpcCtx := addRegionInfo batchCop ri]> m) retry
                | None =>
                    resolveTasks env tasks
                      (<[Addr rpcCtx := {| storeAddr := Addr rpcCtx;
                           cmdType := CmdBatchCop; ctx := Some rpcCtx;
                           regionInfos := [ri] |}]> m) retry
                end = resolveTasks env tasks m1 retry) as [m1 ->]
        by (destruct (m !! Addr rpcCtx); by eexists).
      destruct (IH m1 retry (ev2 :: ev1 :: tr))
        as (res & seg & Hrun & Hbo & Hans' & Hres).
      exists res, (seg ++ [ev2; ev1]).
      rewrite <- app_assoc. split; [done|]. split.
      { intros ty. rewrite countBackoff_app, Hbo. done. }
      split.
      { apply cacheAnswered_app; [done|]. simpl. by rewrite Hans. }
      rewrite lookupsOf_app. simpl.
      destruct res as [[m' retry']|e'].
      * destruct Hres as (Hmap & Hnoerr & Hretry). split; [by rewrite Hmap|].
        split.
        -- intros r e [?|Hin]%elem_of_cons; [done|]. by eapply Hnoerr.
        -- rewrite Hretry. split.
           ++ intros [?|[r Hr]]; [by left|]. right. exists r. by right.
           ++ intros [?|[r [?|Hr]%elem_of_cons]]; [by left|done|].
              right. by exists r.
      * destruct Hres as (e0 & r & before & -> & Hlook & Hnone & Hpre).
        exists e0, r, ((ctRegion task, inl (Some rpcCtx)) :: before).
        split; [done|]. split; [by rewrite Hlook|]. split.
        -- intros r' e' [?|Hin']%elem_of_cons; [done|]. by eapply Hnone.
        -- by apply prefix_cons.
    + destruct (IH m true (EvGetTiFlashRPCContext (ctRegion task) (inl None)
                             :: tr))
        as (res & seg & Hrun & Hbo & Hans' & Hres).
      exists res, (seg ++ [EvGetTiFlashRPCContext (ctRegion task) (inl None)]).
      rewrite <- app_assoc. split; [done|]. split.
      { intros ty. rewrite countBackoff_app, Hbo. done. }
      split.
      { apply cacheAnswered_app; [done|]. simpl. by rewrite Hans. }
      rewrite lookupsOf_app. simpl.
      destruct res as [[m' retry']|e'].
      * destruct Hres as (Hmap & Hnoerr & Hretry). split; [by rewrite Hmap|].
        split.
        -- intros r e [?|Hin]%elem_of_cons; [done|]. by eapply Hnoerr.
        -- split.
           ++ intros _. right. exists (ctRegion task). by left.
           ++ intros _. apply Hretry. by left.
      * destruct Hres as (e0 & r & before & -> & Hlook & Hnone & Hpre).
        exists e0, r, ((ctRegion task, inl None) :: before).
        split; [done|]. split; [by rewrite Hlook|]. split.
        -- intros r' e' [?|Hin']%elem_of_cons; [done|]. by eapply Hnone.
        -- by apply prefix_cons.
    + exists (inr (Traced e)), [EvGetTiFlashRPCContext (ctRegion task) (inr e)].
      split; [done|]. split; [done|]. split; [simpl; by rewrite Hans|].
      exists e, (ctRegion task), [].
      split; [done|]. simpl. split; [done|]. split.
      * by intros r' e' ?%elem_of_nil.
      * apply prefix_cons, prefix_nil.
Qed.

(** C7.  One pass of the planner's loop from the trace [tr], and what the
    loop does after it.  Every lookup of the pass carries the answer of the
    cache.
    - A failure of [SplitKeyRanges] ends the pass with that error.
    - Else the pass looks the located regions up in their order.  A lookup
      that fails is the last one: the pass ends with its error, without
      backoff.
    - When no lookup fails, the pass has looked up every located region,
      whether or not earlier ones resolved to nil.  If some region resolved
      to nil, the pass then calls the backoffer once, with [BoRegionMiss],
      and does nothing after it; it asks for a retry when the backoffer
      returns nil and fails with the backoffer's error otherwise.  If none
      did, the pass does not back off and neither fails nor asks for a
      retry.
    - After a pass that asks for a retry, [buildBatchCopTasks] plans again
      with the same ranges; after a failed pass it returns the error. *)
Theorem planner_pass
    (env : Env) (ranges : KeyRanges) (storeType : StoreType)
    (tr : list Event) :
  exists out seg,
    planPass env ranges storeType tr
      = (out, seg ++ EvSplitKeyRanges ranges :: tr) /\
    cacheAnswered env (EvSplitKeyRanges ranges :: tr) seg /\
    match envSplitKeyRanges env (EvSplitKeyRanges ranges :: tr) with
    | inr e => out = Returned (PassFailed (Traced e)) /\ seg = []
    | inl located =>
        (exists before r e,
           lookupsOf seg = before ++ [(r, inr e)] /\
           (forall r' e', (r', inr e') ∉ before) /\
           map fst (lookupsOf seg) `prefix_of` map fst located /\
           out = Returned (PassFailed (Traced e)) /\
           forall ty, countBackoff ty seg = 0%nat) \/
        (map fst (lookupsOf seg) = map fst located /\
         (forall r e, (r, inr e) ∉ lookupsOf seg) /\
         ((exists r, (r, inl None) ∈ lookupsOf seg) ->
          head seg = Some (EvBackoff BoRegionMiss regionMissError) /\
          countBackoff BoRegionMiss seg = 1%nat /\
          (forall ty, ty <> BoRegionMiss -> countBackoff ty seg = 0%nat) /\
          out = Returned
                  (match envBackoff env
                           (seg ++ EvSplitKeyRanges ranges :: tr) with
                   | None => PassRetry
                   | Some e => PassFailed (Traced e)
                   end)) /\
         ((forall r, (r, inl None) ∉ lookupsOf seg) ->
          (forall ty, countBackoff ty seg = 0%nat) /\
          out <> Returned PassRetry /\
          forall e, out <> Returned (PassFailed e)))
    end /\
    (forall fuel,
       buildBatchCopTasks env (S fuel) ranges storeType tr =
       match out with
       | Returned PassRetry =>
           buildBatchCopTasks env fuel ranges storeType
             (seg ++ EvSplitKeyRanges ranges :: tr)
       | Returned (PassFailed e) =>
           (Returned (inr e), seg ++ EvSplitKeyRanges ranges :: tr)
       | Returned (PassDone tasks) =>
           (Returned (inl tasks), seg ++ EvSplitKeyRanges ranges :: tr)
       | Panicked => (Panicked, seg ++ EvSplitKeyRanges ranges :: tr)
       | OutOfFuel => (OutOfFuel, seg ++ EvSplitKeyRanges ranges :: tr)
       end).
Proof.
  set (tr1 := EvSplitKeyRanges ranges :: tr).
  assert (forall out tr',
            planPass env ranges storeType tr = (out, tr') ->
            forall fuel,
              buildBatchCopTasks env (S fuel) ranges storeType tr =
              match out with
              | Returned PassRetry =>
                  buildBatchCopTasks env fuel ranges storeType tr'
              | Returned (PassFailed e) => (Returned (inr e), tr')
              | Returned (PassDone tasks) => (Returned (inl tasks), tr')
              | Panicked => (Panicked, tr')
              | OutOfFuel => (OutOfFuel, tr')
              end) as Hloop.
  { intros out tr' Hpass fuel. simpl. unfold bind at 1. rewrite Hpass.
    by destruct out as [[]| |]. }
  assert (planPass env ranges storeType tr =
          match envSplitKeyRanges env tr1 with
          | inr e => (Returned (PassFailed (Traced e)), tr1)
          | inl located =>
              match resolveTasks env (copTasksOf storeType located) ∅ false
                      tr1 with
              | (Returned (inr e), tr') => (Returned (PassFailed e), tr')
              | (Returned (inl (m, true)), tr') =>
                  let trb := EvBackoff BoRegionMiss regionMissError :: tr' in
                  (Returned (match envBackoff env trb with
                             | None => PassRetry
                             | Some e => PassFailed (Traced e)
                             end), trb)
              | (Returned (inl (m, false)), tr') => balancePass env m tr'
              | (Panicked, tr') => (Panicked, tr')
              | (OutOfFuel, tr') => (OutOfFuel, tr')
              end
          end) as Hpass.
  { unfold planPass, bind at 1, call at 1. fold tr1.
    destruct (envSplitKeyRanges env tr1) as [located|e]; [|done].
    unfold bind at 1.
    destruct (resolveTasks env _ ∅ false tr1) as [[[[m [|]]|e]| |] tr']; try done.
    unfold bind, Backoff, call, ret. by destruct (envBackoff env _). }
  destruct (envSplitKeyRanges env tr1) as [located|e] eqn:Hsplit.
  - destruct (resolveTasks_spec env (copTasksOf storeType located) ∅ false tr1)
      as (res & seg & Hrun & Hbo & Hans & Hres).
    rewrite Hrun in Hpass.
    assert (map ctRegion (copTasksOf storeType located) = map fst located)
      as Hregions.
    { unfold copTasksOf. rewrite map_map. apply map_ext. by intros [r rs]. }
    destruct res as [[m [|]]|e].
    + (* some region is missing *)
      destruct Hres as (Hmap & Hnoerr & Hretry). simpl in Hpass.
      eexists _, (EvBackoff BoRegionMiss regionMissError :: seg).
      split; [exact Hpass|]. split; [by split|]. split.
      { right. split; [simpl; by rewrite Hmap|]. split; [done|]. split.
        - intros _. split; [done|]. split.
          + unfold countBackoff in *. simpl. by rewrite (Hbo BoRegionMiss).
          + split; [|done]. intros ty Hty. unfold countBackoff in *. simpl.
            rewrite bool_decide_eq_false_2 by (by intros <-). apply Hbo.
        - intros Hnone. exfalso.
          destruct Hretry as [[?|[r Hr]] _]; [done|done|].
          by apply (Hnone r). }
      intros fuel. by rewrite (Hloop _ _ Hpass).
    + (* every region has an RPC context *)
      destruct Hres as (Hmap & Hnoerr & Hretry).
      assert (forall P : Prop, (exists r, (r, inl None) ∈ lookupsOf seg) -> P)
        as Hnomiss.
      { intros P [r Hr]. exfalso.
        assert (false = true) by (apply Hretry; right; by exists r). done. }
      unfold balancePass in Hpass.
      destruct (Balance.balanceBatchCopTask _ _ _ _) as [balanced| |].
      * eexists _, (EvObserveTasks (Balance.lenZ balanced) :: seg).
        split; [exact Hpass|]. split; [by split|]. split.
        { right. split; [simpl; by rewrite Hmap|]. split; [done|]. split.
          - intros Hmiss. by apply Hnomiss.
          - intros _. split; [|done]. intros ty. unfold countBackoff in *.
            simpl. apply Hbo. }
        intros fuel. by rewrite (Hloop _ _ Hpass).
      * eexists _, seg. split; [exact Hpass|]. split; [done|]. split.
        { right. split; [by rewrite Hmap|]. split; [done|]. split.
          - intros Hmiss. by apply Hnomiss.
          - intros _. done. }
        intros fuel. by rewrite (Hloop _ _ Hpass).
      * eexists _, seg. split; [exact Hpass|]. split; [done|]. split.
        { right. split; [by rewrite Hmap|]. split; [done|]. split.
          - intros Hmiss. by apply Hnomiss.
          - intros _. done. }
        intros fuel. by rewrite (Hloop _ _ Hpass).
    + (* a lookup failed *)
      destruct Hres as (e0 & r & before & -> & Hlook & Hnone & Hpre).
      eexists _, seg. split; [exact Hpass|]. split; [done|]. split.
      { left. exists before, r, e0. rewrite <- Hregions. done. }
      intros fuel. by rewrite (Hloop _ _ Hpass).
  - eexists _, []. split; [exact Hpass|]. split; [done|].
    split; [done|].
    intros fuel. by rewrite (Hloop _ _ Hpass).
Qed.

(** ** What reaches the caller *)

Section Sends.
Variable P : batchCopResponse -> Prop.

Lemma sentResponses_cons (ev : Event) (tr : list Event) :
  notSend ev -> sentResponses (ev :: tr) = sentResponses tr.
Proof. by destruct ev. Qed.

Lemma sendsOnly_ret {A : Type} (a : A) : sendsOnly P (ret a).
Proof. intros tr out tr' [= _ <-]. done. Qed.

Lemma sendsOnly_panic {A : Type} : sendsOnly P (@panic A).
Proof. intros tr out tr' [= _ <-]. done. Qed.

Lemma sendsOnly_outOfFuel {A : Type} : sendsOnly P (@outOfFuel A).
Proof. intros tr out tr' [= _ <-]. done. Qed.

Lemma sendsOnly_emit (ev : Event) : notSend ev -> sendsOnly P (emit ev).
Proof. intros Hev tr out tr' [= _ <-]. by rewrite sentResponses_cons. Qed.

Lemma sendsOnly_call {A : Type} (ev : Event) (answer : list Event -> A) :
  notSend ev -> sendsOnly P (call ev answer).
Proof. intros Hev tr out tr' [= _ <-]. by rewrite sentResponses_cons. Qed.

Lemma sendsOnly_callLogged {A : Type} (mk : A -> Event)
    (answer : list Event -> A) :
  (forall a, notSend (mk a)) -> sendsOnly P (callLogged mk answer).
Proof. intros Hev tr out tr' [= _ <-]. by rewrite sentResponses_cons. Qed.

Lemma sendsOnly_bind {A B : Type} (m : M A) (k : A -> M B) :
  sendsOnly P m -> (forall a, sendsOnly P (k a)) -> sendsOnly P (bind m k).
Proof.
  intros Hm Hk tr out tr' Hrun Htr. unfold bind in Hrun.
  destruct (m tr) as [[a| |] tr1] eqn:Hm1.
  - eapply Hk; [done|]. by eapply Hm.
  - simplify_eq. by eapply Hm.
  - simplify_eq. by eapply Hm.
Qed.

Lemma sendsOnly_sendToRespCh (env : Env) (resp : batchCopResponse) :
  P resp -> sendsOnly P (sendToRespCh env resp).
Proof.
  intros Hresp tr out tr' Hrun Htr. unfold sendToRespCh in Hrun.
  destruct (envSelectSend env tr); simplify_eq; simpl; [|done].
  apply Forall_app. split; [done|]. by constructor.
Qed.

End Sends.

Ltac sends_step :=
  match goal with
  | |- sendsOnly _ (ret _) => apply sendsOnly_ret
  | |- sendsOnly _ panic => apply sendsOnly_panic
  | |- sendsOnly _ outOfFuel => apply sendsOnly_outOfFuel
  | |- sendsOnly _ (emit _) => apply sendsOnly_emit; exact I
  | |- sendsOnly _ (call _ _) => apply sendsOnly_call; exact I
  | |- sendsOnly _ (callLogged _ _) =>
      apply sendsOnly_callLogged; intros; exact I
  | |- sendsOnly _ (bind _ _) => apply sendsOnly_bind; [|intros]
  | |- sendsOnly _ (match ?x with _ => _ end) => destruct x
  | |- sendsOnly _ (if ?x then _ else _) => destruct x
  end.

Ltac sends := repeat sends_step.

Section SendsOfTheCode.
Variable P : batchCopResponse -> Prop.
Variable env : Env.

Lemma sendsOnly_Backoff (ty : BackoffType) (e : error) :
  sendsOnly P (Backoff env ty e).
Proof. unfold Backoff. sends. Qed.

Lemma sendsOnly_runCancel (c : cancelFunc) : sendsOnly P (runCancel c).
Proof. unfold runCancel. sends. Qed.

Lemma sendsOnly_onSendFail (bo : Backoffer) (rpcCtx : RPCContext)
    (regionInfos : list RegionInfo) (e : error) :
  sendsOnly P (onSendFailForBatchRegions env bo rpcCtx regionInfos e).
Proof.
  unfold onSendFailForBatchRegions. sends. apply sendsOnly_Backoff.
Qed.

Lemma sendsOnly_SendReqToAddr (ss : RegionBatchRequestSender) (bo : Backoffer)
    (rpcCtx : option RPCContext) (regionInfos : list RegionInfo)
    (req : Request) (timeout : Z) :
  sendsOnly P (SendReqToAddr env ss bo rpcCtx regionInfos req timeout).
Proof.
  unfold SendReqToAddr. sends;
    try first [apply sendsOnly_runCancel | apply sendsOnly_onSendFail].
Qed.

Lemma sendsOnly_resolveTasks (tasks : list copTask) :
  forall (m : gmap string batchCopTask) (retry : bool),
  sendsOnly P (resolveTasks env tasks m retry).
Proof.
  induction tasks as [|task tasks IH]; intros m retry; simpl; sends;
    try apply IH.
Qed.

Lemma sendsOnly_balancePass (m : gmap string batchCopTask) :
  sendsOnly P (balancePass env m).
Proof.
  intros tr out tr' Hrun Htr. unfold balancePass in Hrun.
  destruct (Balance.balanceBatchCopTask _ _ _ _); by simplify_eq.
Qed.

Lemma sendsOnly_planPass (ranges : KeyRanges) (storeType : StoreType) :
  sendsOnly P (planPass env ranges storeType).
Proof.
  unfold planPass. sends;
    try first [apply sendsOnly_resolveTasks | apply sendsOnly_balancePass
              | apply sendsOnly_Backoff].
Qed.

Lemma sendsOnly_buildBatchCopTasks (fuel : nat) (ranges : KeyRanges)
    (storeType : StoreType) :
  sendsOnly P (buildBatchCopTasks env fuel ranges storeType).
Proof.
  induction fuel as [|fuel IH]; simpl; sends;
    try first [apply sendsOnly_planPass | apply IH
              | apply sendsOnly_resolveTasks | apply sendsOnly_balancePass].
Qed.

End SendsOfTheCode.

Section SendsOfTheWorker.
Variable env : Env.

Lemma sendsOnly_handleBatchCopResponse (response : BatchResponse)
    (task : batchCopTask) :
  sendsOnly carriesPayloadOrError (handleBatchCopResponse env response task).
Proof.
  unfold handleBatchCopResponse. destruct (negb _); [apply sendsOnly_ret|].
  intros tr out tr' Hrun Htr.
  unfold bind, sendToRespCh, ret in Hrun.
  destruct (envSelectSend env tr); simplify_eq; simpl; [|done].
  apply Forall_app. split; [done|]. constructor; [|done]. right. by eexists.
Qed.

Lemma sendsOnly_streamLoop (fuel : nat) :
  forall (resp : BatchResponse) (task : batchCopTask),
  sendsOnly carriesPayloadOrError (streamLoop env fuel resp task).
Proof.
  induction fuel as [|fuel IH]; intros resp task; simpl; sends;
    try first [apply sendsOnly_handleBatchCopResponse | apply IH
              | apply sendsOnly_Backoff].
Qed.

Lemma sendsOnly_handleStreamed (fuel : nat) (first : option BatchResponse)
    (task : batchCopTask) :
  sendsOnly carriesPayloadOrError
    (handleStreamedBatchCopResponse env fuel first task).
Proof.
  unfold handleStreamedBatchCopResponse. sends;
    try apply sendsOnly_streamLoop.
Qed.

Lemma sendsOnly_handleTaskOnce (fuel : nat) (cfg : workerConfig)
    (task : batchCopTask) :
  sendsOnly carriesPayloadOrError (handleTaskOnce env fuel cfg task).
Proof.
  unfold handleTaskOnce, retryBatchCopTask. sends;
    try first [apply sendsOnly_SendReqToAddr
              | apply sendsOnly_buildBatchCopTasks
              | apply sendsOnly_handleStreamed
              | apply sendsOnly_runCancel].
Qed.

Lemma sendsOnly_handleTaskLoop (fuel : nat) (cfg : workerConfig) :
  forall (tasks : list batchCopTask) (idx : nat),
  sendsOnly carriesPayloadOrError (handleTaskLoop env fuel cfg tasks idx).
Proof.
  induction fuel as [|fuel IH]; intros tasks idx; simpl; sends;
    try first [apply sendsOnly_handleTaskOnce | apply IH].
  apply sendsOnly_sendToRespCh. left. by eexists.
Qed.

Lemma sendsOnly_handleTask (fuel : nat) (cfg : workerConfig)
    (task : batchCopTask) :
  sendsOnly carriesPayloadOrError (handleTask env fuel cfg task).
Proof. unfold handleTask. sends. apply sendsOnly_handleTaskLoop. Qed.

End SendsOfTheWorker.

Lemma recvFromRespCh_response (choices : list selectCase) :
  forall (it it' : batchCopIterator) (tr tr' : list Event)
         (resp : option batchCopResponse) (ok exit : bool),
  recvFromRespCh choices it tr = (Returned (it', (resp, ok, exit)), tr') ->
  Forall carriesPayloadOrError (respChan it) ->
  Forall carriesPayloadOrError (respChan it') /\
  (if ok then
     exists r, resp = Some r /\ exit = false /\ carriesPayloadOrError r /\
       tr' = tr /\
       (respChan it = r :: respChan it' \/
        (respChan it' = respChan it /\ is_Some (err r)))
   else respChan it' = respChan it).
Proof.
  induction choices as [|c choices IH]; intros it it' tr tr' resp ok exit Hrun Hq;
    simpl in Hrun; [done|].
  destruct c as [|killed| |].
  - destruct (respChan it) as [|r q] eqn:Hchan.
    + destruct (respChanClosed it).
      * unfold ret in Hrun. simplify_eq. by rewrite Hchan.
      * destruct (IH _ _ _ _ _ _ _ Hrun) as [Hq' Hok]; [by rewrite Hchan|].
        by rewrite Hchan in Hok.
    + unfold ret in Hrun. simplify_eq. simpl.
      apply Forall_cons in Hq as [Hr Hq]. split; [done|].
      exists r. repeat split; auto.
  - destruct (killed =? 1); [|by eapply IH].
    unfold ret in Hrun. simplify_eq. split; [done|].
    exists interruptedResponse. split; [done|]. split; [done|].
    split; [left; by eexists|]. split; [done|]. right. split; [done|].
    by eexists.
  - destruct (finishChClosed it); [|by eapply IH].
    unfold ret in Hrun. by simplify_eq.
  - unfold closeFinishOnce in Hrun. unfold bind, emit, ret, panic in Hrun.
    destruct (closed it =? 0); simpl in Hrun.
    + destruct (finishChClosed it); by simplify_eq.
    + by simplify_eq.
Qed.

(** C10.  Every response a worker puts on [respChan] has a payload or an
    error.  From a channel of such responses:
    - a result subset that [Next] returns has no error and has a payload,
      so [GetData] on it returns;
    - a response with an error that [Next] takes off the channel is
      returned as the Go error, traced, with no result subset and without
      a visibility check;
    - when the runtime picks the receive from a channel that holds a
      response, [Next] takes its oldest response. *)
Theorem result_subsets_carry_payload
    (env : Env) (fuel : nat) (cfg : workerConfig) (task : batchCopTask)
    (choices : list selectCase) :
  (forall tr out tr',
     handleTask env fuel cfg task tr = (out, tr') ->
     Forall carriesPayloadOrError (sentResponses tr) ->
     Forall carriesPayloadOrError (sentResponses tr')) /\
  (forall it tr it' rs e tr',
     Forall carriesPayloadOrError (respChan it) ->
     Next env choices it tr = (Returned (it', (rs, e)), tr') ->
     Forall carriesPayloadOrError (respChan it') /\
     (forall r, rs = Some r ->
        e = None /\ err r = None /\ exists data, GetData r = Returned data) /\
     (forall r e0, respChan it = r :: respChan it' -> err r = Some e0 ->
        rs = None /\ e = Some (Traced e0) /\ tr' = tr) /\
     (forall r q rest, choices = SelRespChan :: rest -> respChan it = r :: q ->
        respChan it' = q)).
Proof.
  split; [apply sendsOnly_handleTask|].
  intros it tr it' rs e tr' Hq Hnext. unfold Next, bind in Hnext.
  destruct (recvFromRespCh choices it tr)
    as [[[it1 [[resp ok] exit]]| |] tr1] eqn:Hrecv; try done.
  destruct (recvFromRespCh_response _ _ _ _ _ _ _ _ Hrecv Hq) as [Hq1 Hok].
  assert (forall r q rest, choices = SelRespChan :: rest ->
            respChan it = r :: q -> it1 = setRespChan it q) as Htake.
  { intros r q rest -> Hchan. simpl in Hrecv. rewrite Hchan in Hrecv.
    unfold ret in Hrecv. by simplify_eq. }
  assert (forall r, respChan it = r :: respChan it -> False) as Hlen.
  { intros r Hr. apply (f_equal length) in Hr. simpl in Hr. lia. }
  destruct ok; simpl in Hnext.
  - destruct Hok as (r & -> & -> & Hr & -> & Htaken). simpl in Hnext.
    destruct (err r) as [e0|] eqn:Herr.
    + unfold ret in Hnext. simplify_eq. split; [done|].
      split; [done|]. split.
      * intros r' e1 Hchan Herr'.
        destruct Htaken as [Ht|[Ht _]].
        -- rewrite Hchan in Ht. injection Ht as <-.
           rewrite Herr in Herr'. by simplify_eq.
        -- rewrite Ht in Hchan. by apply Hlen in Hchan.
      * intros r' q rest Hc Hchan.
        by rewrite (Htake _ _ _ Hc Hchan).
    + unfold call, ret in Hnext.
      destruct Htaken as [Ht|[_ [? ?]]]; [|congruence].
      destruct (envCheckVisibility env _); simplify_eq.
      * split; [done|]. split; [done|]. split.
        -- intros r' e1 Hchan Herr'. rewrite Hchan in Ht. simplify_eq.
        -- intros r' q rest Hc Hchan. by rewrite (Htake _ _ _ Hc Hchan).
      * split; [done|]. split.
        { intros r' [= <-]. split; [done|]. split; [done|].
          destruct Hr as [[? Hr]|[d Hd]]; [congruence|].
          unfold GetData. rewrite Hd. by eexists. }
        split.
        -- intros r' e1 Hchan Herr'. rewrite Hchan in Ht. simplify_eq.
        -- intros r' q rest Hc Hchan. by rewrite (Htake _ _ _ Hc Hchan).
  - assert (rs = None /\ e = None /\ it' = it1 /\ tr' = tr1) as (-> & -> & -> & ->)
      by (unfold ret in Hnext; by simplify_eq).
    split; [done|]. split; [done|]. split.
    + intros r e0 Hchan _. rewrite Hok in Hchan. by apply Hlen in Hchan.
    + intros r q rest Hc Hchan. by rewrite (Htake _ _ _ Hc Hchan).
Qed.

(** ** Examples *)

(** C5, at a send that breaks with an I/O error while the process is not
    shutting down: the region cache is told, the backoffer is called once
    and the sender asks for a retry. *)
Lemma send_failure_classified_witness :
  SendReqToAddr brokenSendEnv {| ssHasStats := false |}
    {| boHasCanceller := true |} (Some ctxStore1) (regionInfos taskStore1)
    (batchRequestOf plainWorker taskStore1) ReadTimeoutUltraLong []
  = (Returned (None, true, CancelNothing, None),
     [EvBackoff BoTiFlashRPC
        (ErrorString "send tikv request error, try next peer later");
      EvOnSendFail 1 (regionInfos taskStore1) false (ErrorString "broken pipe");
      EvNeedReloadRegion ctxStore1;
      EvLoadShuttingDown;
      EvSetRPCError (ErrorString "broken pipe");
      EvCancel;
      EvSendRequest "s1"
        (stampRequest (batchRequestOf plainWorker taskStore1) ctxStore1)
        ReadTimeoutUltraLong]).
Proof.
  exact (send_failure_classified brokenSendEnv {| ssHasStats := false |}
           {| boHasCanceller := true |} ctxStore1 (regionInfos taskStore1)
           (batchRequestOf plainWorker taskStore1) ReadTimeoutUltraLong []
           (ErrorString "broken pipe") eq_refl eq_refl).
Defined.

(** C6, at a stream that hands out a second message and then breaks: two
    responses are forwarded, the backoffer is called once, the stream is
    closed and the consumer returns the server-timeout error. *)
Lemma stream_receive_error_witness :
  handleStreamedBatchCopResponse brokenStreamEnv 3 (Some (payload Byte.x01))
    taskStore1 []
  = (Returned (Some ErrTiFlashServerTimeout),
     EvStreamClose
     :: EvBackoff BoTiKVRPC (ErrorString "recv stream response error")
     :: streamTrace brokenStreamEnv taskStore1 (payload Byte.x01)
          [payload Byte.x02] []).
Proof.
  refine (stream_receive_error brokenStreamEnv taskStore1 (payload Byte.x01)
            [payload Byte.x02] (ErrorString "connection reset") [] 3 _ _).
  - repeat split.
  - simpl. lia.
Defined.

(** C8, at a request with [KeepOrder]. *)
Lemma ordered_request_rejected_witness :
  exists e,
    sendBatch brokenSendEnv 3 orderedRequest [] = (Returned (copErrorResponse e), [])
    /\ copErrorResponse_Next e = (None, Some e).
Proof.
  apply (ordered_request_rejected brokenSendEnv 3 orderedRequest []).
  left. reflexivity.
Defined.

(** The planner with a cache that has lost a region once: one backoff for
    the missing region, then a second pass that succeeds. *)
Example planner_retries_after_region_miss :
  exists tasks tr,
    buildBatchCopTasks staleCacheEnv 3 [] TiFlash [] = (Returned (inl tasks), tr)
    /\ tasks = [taskStore1]
    /\ countBackoff BoRegionMiss tr = 1%nat
    /\ map snd (lookupsOf tr) = [inl None; inl (Some ctxStore1)].
Proof. eexists _, _. split; [by vm_compute|]. by vm_compute. Qed.

(** A worker whose stream breaks after two messages puts both on
    [respChan] and then one response with the error; [Next] hands out the
    two payloads and then returns the error. *)
Example stream_error_surfaces_once :
  exists tr r1 r2 r3 it1 it2 it3 tr1 tr2 tr3 e,
    handleTask brokenStreamEnv 5 plainWorker taskStore1 [] = (Returned tt, tr)
    /\ sentResponses tr = [r1; r2; r3]
    /\ Next brokenStreamEnv [SelRespChan]
         (setRespChan (newIterator plainRequest [taskStore1]) [r1; r2; r3]) []
       = (Returned (it1, (Some r1, None)), tr1)
    /\ GetData r1 = Returned [Byte.x01]
    /\ Next brokenStreamEnv [SelRespChan] it1 tr1
       = (Returned (it2, (Some r2, None)), tr2)
    /\ GetData r2 = Returned [Byte.x02]
    /\ Next brokenStreamEnv [SelRespChan] it2 tr2
       = (Returned (it3, (None, Some e)), tr3)
    /\ errorsCause e = ErrTiFlashServerTimeout.
Proof.
  eexists _, _, _, _, _, _, _, _, _, _, _.
  split; [by vm_compute|]. split; [by vm_compute|].
  split; [by vm_compute|]. split; [by vm_compute|].
  split; [by vm_compute|]. split; [by vm_compute|].
  split; by vm_compute.
Qed.

(** ** The planner and the balancer *)

(** The fuel the planner gives the balancer is never used up: a pass does
    not end for lack of fuel. *)
Lemma balancePass_fuel (env : Env) (m : gmap string batchCopTask)
    (tr : list Event) :
  fst (balancePass env m tr) <> OutOfFuel.
Proof.
  unfold balancePass.
  match goal with
  | |- context [Balance.balanceBatchCopTask ?k ?o ?f ?ts] =>
      pose proof (BalanceFacts.balance_fuel_suffices k o ts f) as Hfuel;
      destruct (Balance.balanceBatchCopTask k o f ts)
  end; try done.
  exfalso. apply Hfuel; [|done]. unfold balanceFuel. lia.
Qed.

(** A task without an RPC context makes the task handler dereference nil
    before anything is sent. *)
Theorem task_without_context_panics
    (env : Env) (fuel : nat) (cfg : workerConfig) (task : batchCopTask)
    (tr : list Event) :
  ctx task = None ->
  handleTaskOnce env fuel cfg task tr = (Panicked, tr).
Proof.
  intros Hctx. unfold handleTaskOnce, SendReqToAddr. by rewrite Hctx.
Qed.

(** At [draftWithContexts] the balancer moves two regions to store 2 and
    returns tasks without a context; the handler panics on them. *)
Lemma balanced_tasks_have_no_context_witness :
  [task "s2" [rinfo 20 [2]; rinfo 13 [1; 2]; rinfo 12 [1; 2]];
   task "s1" [rinfo 10 [1]; rinfo 11 [1; 2]]] = draftWithContexts \/
  Forall (fun t => ctx t = None)
    [task "s2" [rinfo 20 [2]; rinfo 13 [1; 2]; rinfo 12 [1; 2]];
     task "s1" [rinfo 10 [1]; rinfo 11 [1; 2]]].
Proof.
  apply (BalanceFacts.balanced_tasks_have_no_context showRegion plainOrder 10
           draftWithContexts).
  vm_compute. reflexivity.
Defined.

Lemma task_without_context_panics_witness :
  handleTaskOnce brokenStreamEnv 5 plainWorker
    (task "s2" [rinfo 20 [2]; rinfo 13 [1; 2]; rinfo 12 [1; 2]]) []
  = (Panicked, []).
Proof.
  apply (task_without_context_panics brokenStreamEnv 5 plainWorker
           (task "s2" [rinfo 20 [2]; rinfo 13 [1; 2]; rinfo 12 [1; 2]]) []).
  reflexivity.
Defined.

(** ** More on the balancer *)

Module BalanceMore.
Import Balance BalanceFacts.

(** *** The second loop gives up only on a repeated insertion *)

Lemma putCandidate_None (k : string) (ri : RegionInfo) (stores : list Z) :
  forall cands : gmap Z (gmap string RegionInfo),
  putCandidate k ri stores cands = None ->
  ~ NoDup stores \/ exists s r, s ∈ stores /\ holds cands s k r.
Proof.
  induction stores as [|s stores IH]; intros cands Hput; simpl in Hput;
    [done|].
  assert (forall m0,
            (forall s' r', s' <> s ->
               holds (<[s := <[k := ri]> m0]> cands) s' k r' ->
               holds cands s' k r') ->
            putCandidate k ri stores (<[s := <[k := ri]> m0]> cands) = None ->
            ~ NoDup (s :: stores) \/
            exists s0 r, s0 ∈ s :: stores /\ holds cands s0 k r) as Hstep.
  { intros m0 Hne Hrec. apply IH in Hrec as [Hdup|(s' & r' & Hs' & Hh)].
    - left. intros [_ ?]%NoDup_cons. done.
    - destruct (decide (s' = s)) as [->|Hdiff].
      + left. intros [? _]%NoDup_cons. done.
      + right. exists s', r'. split; [by right|]. by apply Hne. }
  assert (forall m0 s' r', s' <> s ->
            holds (<[s := m0]> cands) s' k r' -> holds cands s' k r') as Hne.
  { intros m0 s' r' Hdiff (m1 & Hm1 & Hk).
    rewrite lookup_insert_ne in Hm1 by done. by exists m1. }
  destruct (cands !! s) as [m|] eqn:Hs.
  - destruct (m !! k) as [r|] eqn:Hk.
    + right. exists s, r. split; [by left|]. by exists m.
    + apply (Hstep m); [|done]. intros s' r'. apply Hne.
  - apply (Hstep ∅); [|by rewrite insert_empty]. intros s' r'. apply Hne.
Qed.

Lemma NoDup_insertions_snoc (regionKey : RegionVerID -> string)
    (rem : list RegionInfo) (ri : RegionInfo)
    (cands : gmap Z (gmap string RegionInfo)) :
  candInv regionKey rem cands ->
  putCandidate (regionKey (Region ri)) ri (AllStores ri) cands = None ->
  ~ NoDup (flat_map (insertionsOf regionKey) (rem ++ [ri])).
Proof.
  intros [_ Hiff] Hput Hnd. rewrite flat_map_app in Hnd. simpl in Hnd.
  rewrite app_nil_r in Hnd. apply NoDup_app in Hnd as (_ & Hdisj & Hri).
  apply putCandidate_None in Hput as [Hdup|(s & r & Hs & Hh)].
  - apply Hdup. unfold insertionsOf in Hri.
    eapply NoDup_fmap_1. exact Hri.
  - apply Hiff in Hh as (Hr & Hk & Hsr).
    apply (Hdisj (s, regionKey (Region ri))).
    + apply elem_of_insertions. by exists r.
    + by apply elem_of_insertionsOf.
Qed.

Lemma placeRegions_GiveUp (regionKey : RegionVerID -> string)
    (tasks : list batchCopTask) (p : Z) (ris : list RegionInfo) :
  forall (visited : list RegionInfo) (st : collectState),
  placeRegions regionKey p ris st = GiveUp ->
  collectInv regionKey tasks visited st ->
  ~ NoDup (flat_map (insertionsOf regionKey)
             (filter (fun ri => validStoreCount tasks ri <> 1)
                (visited ++ ris))).
Proof.
  induction ris as [|ri ris IH]; intros visited st Hpl Hinv; simpl in Hpl;
    [done|].
  destruct (placeRegion regionKey p ri st) as [| |st1] eqn:H1; try done.
  - clear Hpl IH. destruct Hinv as (Hk & Hc & _).
    unfold placeRegion in H1.
    rewrite (validStoreNumOf_keysOf tasks) in H1 by done.
    destruct (validStoreCount tasks ri =? 1) eqn:Hv.
    { by destruct (appendRegion _ _ _). }
    apply Z.eqb_neq in Hv.
    destruct (putCandidate _ _ _ _) eqn:Hput; [done|].
    rewrite filter_app, filter_cons_True by done.
    intros Hnd. rewrite flat_map_app in Hnd. simpl in Hnd.
    rewrite app_assoc in Hnd. apply NoDup_app in Hnd as (Hnd & _).
    eapply NoDup_insertions_snoc; [done|done|].
    rewrite flat_map_app. simpl. by rewrite app_nil_r.
  - replace (visited ++ ri :: ris) with ((visited ++ [ri]) ++ ris)
      by by rewrite <- app_assoc.
    eapply IH; [done|].
    eapply (placeRegions_inv regionKey tasks p [ri] visited st); [|done].
    simpl. by rewrite H1.
Qed.

Lemma collectTasks_GiveUp (regionKey : RegionVerID -> string)
    (tasks rest : list batchCopTask) :
  forall (visited : list RegionInfo) (st : collectState),
  collectTasks regionKey rest st = GiveUp ->
  collectInv regionKey tasks visited st ->
  ~ NoDup (flat_map (insertionsOf regionKey)
             (filter (fun ri => validStoreCount tasks ri <> 1)
                (visited ++ nonPinnedRegions rest))).
Proof.
  induction rest as [|t rest IH]; intros visited st Hco Hinv; simpl in Hco;
    [done|].
  destruct (primaryStore t) as [p|]; [|done].
  unfold nonPinnedRegions; simpl.
  destruct (placeRegions regionKey p _ st) as [| |st1] eqn:H1; try done.
  - intros Hnd. eapply placeRegions_GiveUp; [done|done|].
    rewrite app_assoc, filter_app, flat_map_app in Hnd.
    by apply NoDup_app in Hnd as (Hnd & _).
  - rewrite app_assoc. eapply IH; [done|].
    by eapply placeRegions_inv.
Qed.

(** Without a repeated insertion the second loop runs to its end or
    dereferences nil. *)
Lemma collectTasks_not_GiveUp (regionKey : RegionVerID -> string)
    (tasks : list batchCopTask) (m : gmap Z batchCopTask) :
  pinTasks tasks ∅ = Some m ->
  NoDup (candidateInsertions regionKey tasks) ->
  collectTasks regionKey tasks
    {| cStoreTaskMap := m; cCandidates := ∅;
       cTotalCandidateStoreNum := 0; cTotalCandidateCopTaskNum := 0 |}
  <> GiveUp.
Proof.
  intros Hpin Hnd Hco.
  eapply (collectTasks_GiveUp regionKey tasks tasks []) in Hco;
    [by apply Hco|by apply collectInv_start].
Qed.

(** What the second loop has built when it is done. *)
Lemma collectTasks_done (regionKey : RegionVerID -> string)
    (tasks : list batchCopTask) (m : gmap Z batchCopTask) (c : collectState) :
  pinTasks tasks ∅ = Some m ->
  collectTasks regionKey tasks
    {| cStoreTaskMap := m; cCandidates := ∅;
       cTotalCandidateStoreNum := 0; cTotalCandidateCopTaskNum := 0 |}
  = Collected c ->
  keysOf tasks (cStoreTaskMap c) /\
  candInv regionKey (candidateRegions tasks) (cCandidates c) /\
  cTotalCandidateStoreNum c
    = sumZ (validStoreCount tasks) (candidateRegions tasks) /\
  cTotalCandidateCopTaskNum c = lenZ (candidateRegions tasks).
Proof.
  intros Hpin Hco.
  eapply (collectTasks_inv regionKey tasks tasks []) in Hco;
    [done|by apply collectInv_start].
Qed.

Lemma validStoreCount_nonneg (tasks : list batchCopTask) (r : RegionInfo) :
  0 <= validStoreCount tasks r.
Proof.
  unfold validStoreCount, lenZ. destruct (_ <=? _)%nat; lia.
Qed.

Lemma sumZ_elem (f : RegionInfo -> Z) (l : list RegionInfo) (r : RegionInfo) :
  (forall x, x ∈ l -> 0 <= f x) -> r ∈ l -> f r <= sumZ f l.
Proof.
  induction l as [|x l IH]; intros Hall Hr; [by apply elem_of_nil in Hr|].
  simpl.
  assert (0 <= sumZ f l) as Hsum.
  { pose proof (sumZ_lower f 0 l) as Hlow. simpl in Hlow. apply Hlow.
    intros y Hy. apply Hall. by right. }
  assert (0 <= f x) by (apply Hall; by left).
  apply elem_of_cons in Hr as [->|Hr]; [lia|].
  assert (f r <= sumZ f l); [|lia].
  apply IH; [|done]. intros y Hy. apply Hall. by right.
Qed.

Lemma two_elements {A : Type} (l : list A) (x y : A) :
  x ∈ l -> y ∈ l -> x <> y -> (2 <= length l)%nat.
Proof.
  intros Hx Hy Hne. destruct l as [|a [|b l]]; simpl; [|exfalso|lia].
  - by apply elem_of_nil in Hx.
  - apply list_elem_of_singleton in Hx, Hy. congruence.
Qed.

(** *** No region is duplicated or made up *)

(** The regions of the tasks the balancer returns are regions of the
    draft, each at most as often as there, provided the primary stores of
    the draft are pairwise different. *)
Theorem balance_never_duplicates
    (regionKey : RegionVerID -> string) (mapOrder : nat -> list nat)
    (fuel : nat) (tasks ret : list batchCopTask) :
  NoDup (participating tasks) ->
  balanceBatchCopTask regionKey mapOrder fuel tasks = Returned ret ->
  exists dropped, allRegions ret ++ dropped ≡ₚ allRegions tasks.
Proof.
  intros Hnd Hbal. unfold balanceBatchCopTask in Hbal.
  destruct (pinTasks tasks ∅) as [m|] eqn:Hpin; [|done].
  pose proof (pinTasks_Some_wellFormed _ _ _ Hpin) as Hwf.
  destruct (collectTasks regionKey tasks _) as [| |c] eqn:Hco; try done.
  { exists []. simplify_eq. by rewrite app_nil_r. }
  destruct (_ =? 0).
  { exists []. simplify_eq. by rewrite app_nil_r. }
  pose proof (fun avg possible store n =>
      loopInv_start regionKey tasks m c avg possible store n Hpin Hco)
    as Hstart.
  destruct (findNextStore _ _ _ _) as [store possible].
  destruct (balanceLoop mapOrder fuel _) as [st'| |] eqn:Hloop; try done.
  injection Hbal as <-.
  eapply balanceLoop_assigns in Hloop
    as (assigned & left & Hrem & Hregions & _); [|apply Hstart].
  simpl in Hregions. exists left.
  rewrite allRegions_of_map, Hregions, <- app_assoc, <- Hrem.
  rewrite (collectTasks_regions regionKey tasks tasks _ c Hco)
    by (by apply pinTasks_keysOf).
  simpl. rewrite (pinTasks_regions tasks ∅ m Hpin Hnd)
    by (intros; apply lookup_empty).
  unfold regionsOf at 1. rewrite map_to_list_empty. simpl.
  by rewrite allRegions_split.
Qed.

(** *** A draft with nothing to balance *)

(** When no region behind the first of its task has a valid store to
    choose from (each has exactly one valid store, or none), the balancer
    returns the draft as it is. *)
Theorem balance_without_choice_is_identity
    (regionKey : RegionVerID -> string) (mapOrder : nat -> list nat)
    (fuel : nat) (tasks : list batchCopTask) :
  wellFormedDraft tasks ->
  (forall r, r ∈ candidateRegions tasks -> validStoreCount tasks r = 0) ->
  balanceBatchCopTask regionKey mapOrder fuel tasks = Returned tasks.
Proof.
  intros Hwf Hnone. unfold balanceBatchCopTask.
  destruct (pinTasks_wellFormed tasks ∅ Hwf) as [m Hpin]. rewrite Hpin.
  destruct (collectTasks regionKey tasks _) as [| |c] eqn:Hco; [done| |].
  - exfalso. eapply (collectTasks_no_nil regionKey tasks tasks) in Hco;
      [done|done|done|]. by apply pinTasks_keysOf.
  - destruct (collectTasks_done regionKey tasks m c Hpin Hco)
      as (_ & _ & Htot & _).
    rewrite (sumZ_const (validStoreCount tasks) 0) in Htot by done.
    by rewrite Htot.
Qed.

(** *** A draft that cannot be indexed *)

(** A draft with a task that has no region, or whose first region has no
    store, makes the first loop index out of range. *)
Theorem balance_panics_on_ill_formed_draft
    (regionKey : RegionVerID -> string) (mapOrder : nat -> list nat)
    (fuel : nat) (tasks : list batchCopTask) :
  ~ wellFormedDraft tasks ->
  balanceBatchCopTask regionKey mapOrder fuel tasks = Panicked.
Proof.
  intros Hwf. unfold balanceBatchCopTask.
  destruct (pinTasks tasks ∅) as [m|] eqn:Hpin; [|done].
  exfalso. apply Hwf. by eapply pinTasks_Some_wellFormed.
Qed.

(** *** The nil dereference of line 202 *)

(** Let no insertion into a candidate map be repeated, let some candidate
    have a valid store, and let every candidate have a store without a
    task that is also a store of another candidate.  Then the balancer
    panics in the first iteration of its main loop, whatever the order of
    map iteration: the region it assigns leaves another candidate in the
    map of a store that has no task, and line 202 reads
    [storeTaskMap[id].regionInfos] for that store. *)
Theorem balance_panics_on_shared_idle_store
    (regionKey : RegionVerID -> string) (mapOrder : nat -> list nat)
    (fuel : nat) (tasks : list batchCopTask) :
  NoDup (candidateInsertions regionKey tasks) ->
  (exists r, r ∈ candidateRegions tasks /\ 0 < validStoreCount tasks r) ->
  (forall r, r ∈ candidateRegions tasks ->
     exists s r', s ∈ AllStores r /\ (s ∉ participating tasks) /\
       r' ∈ candidateRegions tasks /\ r' <> r /\ s ∈ AllStores r') ->
  balanceBatchCopTask regionKey mapOrder (S fuel) tasks = Panicked.
Proof.
  intros Hnd (r0 & Hr0 & Hv0) Hidle. unfold balanceBatchCopTask.
  destruct (pinTasks tasks ∅) as [m|] eqn:Hpin; [|done].
  destruct (collectTasks regionKey tasks _) as [| |c] eqn:Hco; [|done|].
  { exfalso. by eapply collectTasks_not_GiveUp. }
  destruct (collectTasks_done regionKey tasks m c Hpin Hco)
    as (Hk & Hc & Htot & Hnum).
  pose proof (fun avg possible store n =>
      loopInv_start regionKey tasks m c avg possible store n Hpin Hco)
    as Hstart.
  assert (0 < cTotalCandidateStoreNum c) as Hpos.
  { rewrite Htot.
    pose proof (sumZ_elem (validStoreCount tasks) (candidateRegions tasks) r0
                  (fun x _ => validStoreCount_nonneg tasks x) Hr0). lia. }
  destruct (cTotalCandidateStoreNum c =? 0) eqn:Hz;
    [apply Z.eqb_eq in Hz; lia|].
  destruct (findNextStore _ _ _ _) as [store possible].
  specialize (Hstart
    (float64 (cTotalCandidateStoreNum c)
     / float64 (cTotalCandidateCopTaskNum c))%float possible store 1%nat).
  simpl. apply Z.ltb_lt in Hpos as Hposb. rewrite Hposb.
  match goal with
  | |- context [refreshStore mapOrder ?st] => set (st0 := st) in *
  end.
  pose proof (refreshStore_finds regionKey mapOrder tasks _ st0 Hstart Hpos)
    as Hfind.
  destruct (refreshStore_maps mapOrder st0) as [Em Ec].
  pose proof (refreshStore_total mapOrder st0) as Et.
  pose proof (refreshStore_num mapOrder st0) as En.
  destruct (firstCandidate_is_Some mapOrder (refreshStore mapOrder st0) Hfind)
    as [[k ri] Hfirst].
  rewrite Hfirst.
  apply firstCandidate_elem in Hfirst as (mc & Hmc & Hkri).
  rewrite Ec in Hmc. simpl in Hmc.
  assert (holds (cCandidates c) (bStore (refreshStore mapOrder st0)) k ri)
    as Hholds by (by exists mc).
  pose proof Hc as [_ Hiff].
  apply Hiff in Hholds as (Hri & -> & Hs).
  destruct (Hidle ri Hri) as (s & r' & Hsri & Hsidle & Hr' & Hne & Hsr').
  rewrite (assignCandidate_nil (regionKey (Region ri)) ri _ s); [done| |done| |].
  - rewrite En. simpl. rewrite Hnum. unfold lenZ.
    pose proof (two_elements _ _ _ Hri Hr' (not_eq_sym Hne)). lia.
  - rewrite Em. simpl. destruct (cStoreTaskMap c !! s) eqn:Hcs; [|done].
    exfalso. apply Hsidle, Hk. by eexists.
  - rewrite Ec, Et. simpl.
    destruct (dropCandidate_candInv regionKey _ ri (cCandidates c)
                (cTotalCandidateStoreNum c) Hc Hri)
      as (l1 & l2 & Hsplit & [_ Hiff'] & _).
    { destruct (candidate_stores tasks ri Hri) as [? _]. lia. }
    eapply (holds_lenCandidates _ s (regionKey (Region r')) r').
    apply Hiff'. split; [|done].
    rewrite Hsplit in Hr'.
    apply elem_of_app in Hr' as [?|[?|?]%elem_of_cons];
      [apply elem_of_app; by left|done|apply elem_of_app; by right].
Qed.

(** *** One returned task per draft task *)

Lemma pinsOf_insert_fresh (m : gmap Z batchCopTask) (s : Z) (t : batchCopTask) :
  m !! s = None -> pinsOf (<[s := t]> m) ≡ₚ pinOf t :: pinsOf m.
Proof.
  intros Hs. unfold pinsOf. by rewrite map_to_list_insert.
Qed.

Lemma pinsOf_update (m : gmap Z batchCopTask) (s : Z) (t t' : batchCopTask) :
  m !! s = Some t -> pinOf t' = pinOf t -> pinsOf (<[s := t']> m) ≡ₚ pinsOf m.
Proof.
  intros Hs Hpin. unfold pinsOf.
  rewrite <- (insert_delete_eq m s t') .
  rewrite map_to_list_insert by apply lookup_delete_eq.
  rewrite <- (insert_id m s t Hs) at 2.
  rewrite <- (insert_delete_eq m s t).
  rewrite map_to_list_insert by apply lookup_delete_eq.
  simpl. by rewrite Hpin.
Qed.

Lemma pinTasks_pins (tasks : list batchCopTask) :
  forall m m' : gmap Z batchCopTask,
  pinTasks tasks m = Some m' ->
  NoDup (participating tasks) ->
  (forall s, s ∈ participating tasks -> m !! s = None) ->
  allPinned m ->
  pinsOf m' ≡ₚ pinsOf m ++ map pinOf tasks /\ allPinned m'.
Proof.
  induction tasks as [|t tasks IH]; intros m m' Hpin Hnd Hfresh Hall;
    simpl in Hpin.
  - simplify_eq. simpl. by rewrite app_nil_r.
  - unfold participating, primaryStore in *. simpl in *.
    destruct (regionInfos t) as [|ri0 ris] eqn:Hris; [done|].
    destruct (AllStores ri0) as [|s0 ss]; [done|]. simpl in *.
    apply NoDup_cons in Hnd as [Hs0 Hnd].
    destruct (IH _ _ Hpin Hnd) as [Hp Hall'].
    + intros s Hs. rewrite lookup_insert_ne; [apply Hfresh; by right|].
      intros <-. done.
    + apply map_Forall_insert_2; [by eexists|done].
    + split; [|done]. rewrite Hp, pinsOf_insert_fresh by (apply Hfresh; by left).
      replace (pinOf {| storeAddr := storeAddr t; cmdType := cmdType t;
                        ctx := None; regionInfos := [ri0] |})
        with (pinOf t) by (unfold pinOf; simpl; by rewrite Hris).
      simpl. apply Permutation_middle.
Qed.

Lemma appendRegion_pins (id : Z) (ri : RegionInfo)
    (m m' : gmap Z batchCopTask) :
  appendRegion id ri m = Some m' -> allPinned m ->
  pinsOf m' ≡ₚ pinsOf m /\ allPinned m'.
Proof.
  unfold appendRegion. destruct (m !! id) as [t|] eqn:Hid; [|done].
  intros ? Hall; simplify_eq.
  destruct (Hall id t Hid) as [ri0 Hhead]. simpl in Hhead.
  assert (head (regionInfos t ++ [ri]) = head (regionInfos t)) as Hsame
    by (destruct (regionInfos t); done).
  split.
  - eapply pinsOf_update; [done|]. unfold pinOf. simpl. by rewrite Hsame.
  - apply map_Forall_insert_2; [|done]. simpl. rewrite Hsame. by eexists.
Qed.

Section Pins.
Variable regionKey : RegionVerID -> string.
Variable mapOrder : nat -> list nat.

Lemma placeRegions_pins (p : Z) (ris : list RegionInfo) :
  forall st st' : collectState,
  placeRegions regionKey p ris st = Collected st' ->
  allPinned (cStoreTaskMap st) ->
  pinsOf (cStoreTaskMap st') ≡ₚ pinsOf (cStoreTaskMap st) /\
  allPinned (cStoreTaskMap st').
Proof.
  induction ris as [|ri ris IH]; intros st st' Hpl Hall; simpl in Hpl.
  - by simplify_eq.
  - destruct (placeRegion regionKey p ri st) as [| |st1] eqn:H1; try done.
    assert (pinsOf (cStoreTaskMap st1) ≡ₚ pinsOf (cStoreTaskMap st) /\
            allPinned (cStoreTaskMap st1)) as [Hp1 Hall1].
    { unfold placeRegion in H1. destruct (_ =? 1).
      - destruct (appendRegion _ _ _) eqn:Happ; [|done]. simplify_eq; simpl.
        by eapply appendRegion_pins.
      - destruct (putCandidate _ _ _ _); [|done]. by simplify_eq. }
    destruct (IH _ _ Hpl Hall1) as [Hp Hall']. split; [|done].
    by rewrite Hp.
Qed.

Lemma collectTasks_pins (tasks : list batchCopTask) :
  forall st st' : collectState,
  collectTasks regionKey tasks st = Collected st' ->
  allPinned (cStoreTaskMap st) ->
  pinsOf (cStoreTaskMap st') ≡ₚ pinsOf (cStoreTaskMap st) /\
  allPinned (cStoreTaskMap st').
Proof.
  induction tasks as [|t tasks IH]; intros st st' Hco Hall; simpl in Hco.
  - by simplify_eq.
  - destruct (primaryStore t) as [p|]; [|done].
    destruct (placeRegions regionKey p _ st) as [| |st1] eqn:H1; try done.
    destruct (placeRegions_pins _ _ _ _ H1 Hall) as [Hp1 Hall1].
    destruct (IH _ _ Hco Hall1) as [Hp Hall']. split; [|done].
    by rewrite Hp.
Qed.

Lemma assignCandidate_pins (k : string) (ri : RegionInfo)
    (st st' : balanceState) :
  assignCandidate k ri st = Some st' ->
  allPinned (bStoreTaskMap st) ->
  pinsOf (bStoreTaskMap st') ≡ₚ pinsOf (bStoreTaskMap st) /\
  allPinned (bStoreTaskMap st').
Proof.
  unfold assignCandidate. intros Has Hall.
  destruct (appendRegion _ _ _) as [tasks|] eqn:Happ; [|done].
  apply appendRegion_pins in Happ; [|done].
  destruct (dropCandidate _ _ _ _) as [cands total].
  destruct (0 <? _).
  - destruct (lenRegionInfos _ _); [|done].
    destruct (reselect _ _ _ _ _ _) as [[store possible]|]; [|done].
    by simplify_eq.
  - by simplify_eq.
Qed.

Lemma balanceLoop_pins (fuel : nat) :
  forall st st' : balanceState,
  balanceLoop mapOrder fuel st = Returned st' ->
  allPinned (bStoreTaskMap st) ->
  pinsOf (bStoreTaskMap st') ≡ₚ pinsOf (bStoreTaskMap st).
Proof.
  induction fuel as [|fuel IH]; intros st st' Hloop Hall; simpl in Hloop;
    [done|].
  destruct (0 <? _); [|by simplify_eq].
  destruct (refreshStore_maps mapOrder st) as [Em _].
  destruct (firstCandidate mapOrder _) as [[k ri]|].
  - destruct (assignCandidate k ri _) as [st2|] eqn:Has; [|done].
    apply assignCandidate_pins in Has as [Hp Hall2]; [|by rewrite Em].
    rewrite (IH _ _ Hloop Hall2), Hp. by rewrite Em.
  - rewrite (IH _ _ Hloop); simpl; by rewrite Em.
Qed.

End Pins.

(** When the primary stores of the draft are pairwise different, the
    balancer returns as many tasks as the draft has, and they carry, up to
    order, the store addresses, command types and first regions of the
    draft tasks. *)
Theorem balance_keeps_tasks
    (regionKey : RegionVerID -> string) (mapOrder : nat -> list nat)
    (fuel : nat) (tasks ret : list batchCopTask) :
  NoDup (participating tasks) ->
  balanceBatchCopTask regionKey mapOrder fuel tasks = Returned ret ->
  map pinOf ret ≡ₚ map pinOf tasks /\ length ret = length tasks.
Proof.
  intros Hnd Hbal.
  assert (map pinOf ret ≡ₚ map pinOf tasks) as Hp; cycle 1.
  { split; [done|]. apply Permutation_length in Hp.
    by rewrite !length_map in Hp. }
  unfold balanceBatchCopTask in Hbal.
  destruct (pinTasks tasks ∅) as [m|] eqn:Hpin; [|done].
  destruct (collectTasks regionKey tasks _) as [| |c] eqn:Hco; try done.
  { by simplify_eq. }
  destruct (_ =? 0); [by simplify_eq|].
  destruct (findNextStore _ _ _ _) as [store possible].
  destruct (balanceLoop mapOrder fuel _) as [st'| |] eqn:Hloop; try done.
  injection Hbal as <-.
  destruct (pinTasks_pins tasks ∅ m Hpin Hnd) as [Hp0 Hall0];
    [intros; apply lookup_empty|apply map_Forall_empty|].
  destruct (collectTasks_pins regionKey tasks _ c Hco Hall0) as [Hp1 Hall1].
  apply balanceLoop_pins in Hloop; [|done]. simpl in Hloop.
  rewrite map_map.
  rewrite (Permutation_map _ (shuffle_Permutation _ _)).
  fold (pinsOf (bStoreTaskMap st')).
  rewrite Hloop, Hp1, Hp0. unfold pinsOf at 1.
  by rewrite map_to_list_empty.
Qed.

(** The draft [draftSettled] has no candidate. *)
Lemma balance_without_choice_is_identity_witness :
  balanceBatchCopTask showRegion plainOrder 1 draftSettled
  = Returned draftSettled.
Proof.
  apply (balance_without_choice_is_identity showRegion plainOrder 1
           draftSettled).
  - repeat constructor; by eexists.
  - intros r Hr. vm_compute in Hr. by apply elem_of_nil in Hr.
Defined.

(** The second task of [draftEmptyTask] has no region. *)
Lemma balance_panics_on_ill_formed_draft_witness :
  balanceBatchCopTask showRegion plainOrder 1 draftEmptyTask = Panicked.
Proof.
  apply (balance_panics_on_ill_formed_draft showRegion plainOrder 1
           draftEmptyTask).
  intros Hwf. apply Forall_cons in Hwf as [_ Hwf].
  apply Forall_cons in Hwf as [[p Hp] _]. done.
Defined.

(** At [draftSharedThird] store 3 has no task and holds replicas of the
    three candidates. *)
Lemma balance_panics_on_shared_idle_store_witness :
  balanceBatchCopTask showRegion plainOrder 1 draftSharedThird = Panicked.
Proof.
  apply (balance_panics_on_shared_idle_store showRegion plainOrder 0
           draftSharedThird).
  - apply (bool_decide_unpack _). vm_compute. exact I.
  - exists (rinfo 11 [1; 2; 3]). split; [|by vm_compute].
    apply (bool_decide_unpack _). vm_compute. exact I.
  - intros r Hr. exists 3.
    assert (3 ∉ participating draftSharedThird) as Hidle
      by (apply (bool_decide_unpack _); vm_compute; exact I).
    vm_compute in Hr.
    apply elem_of_cons in Hr as [->|Hr];
      [exists (rinfo 12 [1; 2; 3])|
       apply elem_of_cons in Hr as [->|Hr];
         [exists (rinfo 11 [1; 2; 3])|
          apply elem_of_cons in Hr as [->|Hr];
            [exists (rinfo 11 [1; 2; 3])|by apply elem_of_nil in Hr]]];
      (split; [apply (bool_decide_unpack _); vm_compute; exact I|]);
      (split; [exact Hidle|]);
      (split; [apply (bool_decide_unpack _); vm_compute; exact I|]);
      (split; [done|apply (bool_decide_unpack _); vm_compute; exact I]).
Defined.

(** Region 12 of [draftThirdReplica] is dropped, none is added. *)
Lemma balance_never_duplicates_witness :
  exists dropped,
    allRegions [task "s2" [rinfo 20 [2]; rinfo 13 [1; 2; 5]];
                task "s1" [rinfo 10 [1]; rinfo 11 [1; 2; 3]]] ++ dropped
    ≡ₚ allRegions draftThirdReplica.
Proof.
  apply (balance_never_duplicates showRegion plainOrder 10 draftThirdReplica).
  - apply (bool_decide_unpack _). vm_compute. exact I.
  - vm_compute. reflexivity.
Defined.

(** At [draftTwoStores] both tasks come back, with their first regions. *)
Lemma balance_keeps_tasks_witness :
  map pinOf [task "s2" [rinfo 20 [2]; rinfo 13 [1; 2]; rinfo 12 [1; 2]];
             task "s1" [rinfo 10 [1]; rinfo 11 [1; 2]]]
  ≡ₚ map pinOf draftTwoStores /\
  length [task "s2" [rinfo 20 [2]; rinfo 13 [1; 2]; rinfo 12 [1; 2]];
          task "s1" [rinfo 10 [1]; rinfo 11 [1; 2]]]
  = length draftTwoStores.
Proof.
  apply (balance_keeps_tasks showRegion plainOrder 10 draftTwoStores).
  - apply (bool_decide_unpack _). vm_compute. exact I.
  - vm_compute. reflexivity.
Defined.

End BalanceMore.

(** ** Footprints *)

Section Footprint.
Context {Q : Event -> Prop}.

Lemma onlyEvents_ret {A : Type} (a : A) : onlyEvents Q (ret a).
Proof. intros tr out tr' [= _ <-]. by exists []. Qed.

Lemma onlyEvents_panic {A : Type} : onlyEvents Q (@panic A).
Proof. intros tr out tr' [= _ <-]. by exists []. Qed.

Lemma onlyEvents_outOfFuel {A : Type} : onlyEvents Q (@outOfFuel A).
Proof. intros tr out tr' [= _ <-]. by exists []. Qed.

Lemma onlyEvents_emit (ev : Event) : Q ev -> onlyEvents Q (emit ev).
Proof. intros Hev tr out tr' [= _ <-]. exists [ev]. by repeat constructor. Qed.

Lemma onlyEvents_call {A : Type} (ev : Event) (answer : list Event -> A) :
  Q ev -> onlyEvents Q (call ev answer).
Proof. intros Hev tr out tr' [= _ <-]. exists [ev]. by repeat constructor. Qed.

Lemma onlyEvents_callLogged {A : Type} (mk : A -> Event)
    (answer : list Event -> A) :
  (forall a, Q (mk a)) -> onlyEvents Q (callLogged mk answer).
Proof.
  intros Hev tr out tr' [= _ <-]. exists [mk (answer tr)].
  by repeat constructor.
Qed.

Lemma onlyEvents_bind {A B : Type} (m : M A) (k : A -> M B) :
  onlyEvents Q m -> (forall a, onlyEvents Q (k a)) -> onlyEvents Q (bind m k).
Proof.
  intros Hm Hk tr out tr' Hrun. unfold bind in Hrun.
  destruct (m tr) as [[a| |] tr1] eqn:Hm1;
    destruct (Hm _ _ _ Hm1) as (seg1 & -> & H1).
  - destruct (Hk _ _ _ _ Hrun) as (seg2 & -> & H2).
    exists (seg2 ++ seg1). rewrite app_assoc. split; [done|].
    by apply Forall_app.
  - simplify_eq. by exists seg1.
  - simplify_eq. by exists seg1.
Qed.

Lemma onlyEvents_sendToRespCh (env : Env) (resp : batchCopResponse) :
  Q (EvSendToRespCh resp) -> Q EvFinishSeen ->
  onlyEvents Q (sendToRespCh env resp).
Proof.
  intros Hsend Hfin tr out tr' Hrun. unfold sendToRespCh in Hrun.
  destruct (envSelectSend env tr); simplify_eq;
    [exists [EvSendToRespCh resp]|exists [EvFinishSeen]];
    by repeat constructor.
Qed.

End Footprint.

Lemma onlyEvents_mono {A : Type} (Q Q' : Event -> Prop) (m : M A) :
  (forall ev, Q ev -> Q' ev) -> onlyEvents Q m -> onlyEvents Q' m.
Proof.
  intros Hsub Hm tr out tr' Hrun.
  destruct (Hm _ _ _ Hrun) as (seg & -> & Hseg). exists seg. split; [done|].
  eapply Forall_impl; [done|]. done.
Qed.

Ltac events_step :=
  match goal with
  | |- onlyEvents _ (ret _) => apply onlyEvents_ret
  | |- onlyEvents _ panic => apply onlyEvents_panic
  | |- onlyEvents _ outOfFuel => apply onlyEvents_outOfFuel
  | |- onlyEvents _ (emit _) => apply onlyEvents_emit; exact I
  | |- onlyEvents _ (call _ _) => apply onlyEvents_call; exact I
  | |- onlyEvents _ (callLogged _ _) =>
      apply onlyEvents_callLogged; intros; exact I
  | |- onlyEvents _ (bind _ _) => apply onlyEvents_bind; [|intros]
  | |- onlyEvents _ (match ?x with _ => _ end) => destruct x
  | |- onlyEvents _ (if ?x then _ else _) => destruct x
  end.

Ltac events := repeat events_step.

(** *** The planner *)

Section PlannerFootprint.
Variable env : Env.

Lemma resolveTasks_events (tasks : list copTask) :
  forall (m : gmap string batchCopTask) (retry : bool),
  onlyEvents lookupEvent (resolveTasks env tasks m retry).
Proof.
  induction tasks as [|task tasks IH]; intros m retry; simpl; events;
    try apply IH.
Qed.

Lemma balancePass_events (m : gmap string batchCopTask) :
  onlyEvents (fun ev => exists n, ev = EvObserveTasks n) (balancePass env m).
Proof.
  intros tr out tr' Hrun. unfold balancePass in Hrun.
  destruct (Balance.balanceBatchCopTask _ _ _ _); simplify_eq;
    [|by exists []|by exists []].
  eexists [_]. split; [done|]. repeat constructor. by eexists.
Qed.

Lemma planPass_events (ranges : KeyRanges) (storeType : StoreType) :
  onlyEvents plannerEvent (planPass env ranges storeType).
Proof.
  unfold planPass, Backoff. events.
  - eapply onlyEvents_mono; [|apply resolveTasks_events]. by intros [].
  - eapply onlyEvents_mono; [|apply balancePass_events].
    by intros ev [n ->].
Qed.

Lemma buildBatchCopTasks_events (fuel : nat) (ranges : KeyRanges)
    (storeType : StoreType) :
  onlyEvents plannerEvent (buildBatchCopTasks env fuel ranges storeType).
Proof.
  induction fuel as [|fuel IH]; simpl; events;
    try first [apply planPass_events | apply IH].
Qed.

End PlannerFootprint.

(** *** The draft of a pass *)

Lemma allRegions_draftOf_fresh (m : gmap string batchCopTask) (a : string)
    (t : batchCopTask) :
  m !! a = None ->
  Balance.allRegions (draftOf (<[a := t]> m))
  ≡ₚ regionInfos t ++ Balance.allRegions (draftOf m).
Proof.
  intros Ha. unfold Balance.allRegions, draftOf.
  rewrite !flat_map_concat_map, !map_map, <- !flat_map_concat_map.
  by rewrite map_to_list_insert.
Qed.

Lemma allRegions_draftOf_update (m : gmap string batchCopTask) (a : string)
    (t : batchCopTask) (ri : RegionInfo) :
  m !! a = Some t ->
  Balance.allRegions (draftOf (<[a := addRegionInfo t ri]> m))
  ≡ₚ Balance.allRegions (draftOf m) ++ [ri].
Proof.
  intros Ha.
  rewrite <- (insert_delete_eq m a (addRegionInfo t ri)).
  rewrite allRegions_draftOf_fresh by apply lookup_delete_eq.
  rewrite <- (insert_id m a t Ha) at 2.
  rewrite <- (insert_delete_eq m a t).
  rewrite allRegions_draftOf_fresh by apply lookup_delete_eq.
  simpl. rewrite <- !app_assoc. apply Permutation_app_head, Permutation_app_comm.
Qed.

Lemma resolveTasks_retry_sticky (env : Env) (tasks : list copTask) :
  forall (m m' : gmap string batchCopTask) (retry' : bool)
         (tr tr' : list Event),
  resolveTasks env tasks m true tr = (Returned (inl (m', retry')), tr') ->
  retry' = true.
Proof.
  induction tasks as [|task tasks IH]; intros m m' retry' tr tr' Hrun;
    simpl in Hrun.
  - unfold ret in Hrun. by simplify_eq.
  - unfold bind at 1, callLogged at 1 in Hrun.
    destruct (envGetTiFlashRPCContext env tr (ctRegion task))
      as [[rpcCtx|]|e]; [|by eapply IH|by unfold ret in Hrun].
    unfold bind at 1, call at 1 in Hrun.
    destruct (m !! Addr rpcCtx); by eapply IH.
Qed.

(** The loop over the cop tasks of a pass that ends without a region
    miss: every task of the map is bound to its address and has the RPC
    context found for it, and the regions of the map are those it had
    plus the regions of the cop tasks, with their ranges. *)
Lemma resolveTasks_draft (env : Env) (tasks : list copTask) :
  forall (m m' : gmap string batchCopTask) (retry : bool)
         (tr tr' : list Event),
  resolveTasks env tasks m retry tr = (Returned (inl (m', false)), tr') ->
  (forall a t, m !! a = Some t -> plannedFor a t) ->
  (forall a t, m' !! a = Some t -> plannedFor a t) /\
  map locatedOf (Balance.allRegions (draftOf m'))
  ≡ₚ map locatedOf (Balance.allRegions (draftOf m))
     ++ map (fun t => (ctRegion t, ctRanges t)) tasks.
Proof.
  induction tasks as [|task tasks IH]; intros m m' retry tr tr' Hrun Hm;
    simpl in Hrun.
  - unfold ret in Hrun. simplify_eq. split; [done|]. simpl.
    by rewrite app_nil_r.
  - unfold bind at 1, callLogged at 1 in Hrun.
    destruct (envGetTiFlashRPCContext env tr (ctRegion task))
      as [[rpcCtx|]|e]; [| |by unfold ret in Hrun].
    + unfold bind at 1, call at 1 in Hrun.
      set (ri := {| Region := ctRegion task; Meta := ctxMeta rpcCtx;
                    Ranges := ctRanges task; AllStores := _ |}) in Hrun.
      destruct (m !! Addr rpcCtx) as [t|] eqn:Ha.
      * apply IH in Hrun as [Hm' Hp].
        -- split; [done|]. rewrite Hp.
           rewrite (allRegions_draftOf_update m _ t ri Ha).
           rewrite map_app, <- app_assoc. done.
        -- intros a t' Hat'.
           destruct (decide (Addr rpcCtx = a)) as [<-|Hne].
           ++ rewrite lookup_insert_eq in Hat'. simplify_eq.
              destruct (Hm _ _ Ha) as (? & ? & ? & ?).
              repeat split; [done|done| |done]. simpl.
              intros [? ?]%app_eq_nil. done.
           ++ rewrite lookup_insert_ne in Hat' by done. by apply Hm.
      * apply IH in Hrun as [Hm' Hp].
        -- split; [done|]. rewrite Hp.
           rewrite (allRegions_draftOf_fresh m _ _ Ha). simpl.
           apply (Permutation_middle _ _ (locatedOf ri)).
        -- intros a t' Hat'.
           destruct (decide (Addr rpcCtx = a)) as [<-|Hne].
           ++ rewrite lookup_insert_eq in Hat'. simplify_eq.
              repeat split; [done|]. by exists rpcCtx.
           ++ rewrite lookup_insert_ne in Hat' by done. by apply Hm.
    + by apply resolveTasks_retry_sticky in Hrun.
Qed.

(** A pass that hands tasks to the balancer has found a context for
    every region [SplitKeyRanges] located.  The draft it hands over has one
    task per store address, each with the RPC context of that address, and
    its regions are the located regions with their ranges, each once. *)
Theorem planner_draft_keeps_regions
    (env : Env) (ranges : KeyRanges) (storeType : StoreType)
    (tr tr' : list Event) (balanced : list batchCopTask) :
  planPass env ranges storeType tr = (Returned (PassDone balanced), tr') ->
  exists located draft mapOrder,
    envSplitKeyRanges env (EvSplitKeyRanges ranges :: tr) = inl located /\
    map locatedOf (Balance.allRegions draft) ≡ₚ located /\
    NoDup (map storeAddr draft) /\
    Forall (fun t => plannedFor (storeAddr t) t) draft /\
    Balance.balanceBatchCopTask (envRegionKey env) mapOrder
      (balanceFuel draft) draft = Returned balanced.
Proof.
  intros Hrun. unfold planPass in Hrun.
  unfold bind at 1, call at 1 in Hrun.
  destruct (envSplitKeyRanges env _) as [located|e] eqn:Hsplit;
    [|by unfold ret in Hrun].
  unfold bind at 1 in Hrun.
  destruct (resolveTasks env _ ∅ false _)
    as [[[[m [|]]|e]| |] tr1] eqn:Hres; try done.
  { unfold bind, Backoff, call, ret in Hrun.
    destruct (envBackoff env _); by simplify_eq. }
  apply resolveTasks_draft in Hres as [Hm Hp];
    [|by intros a t ?%lookup_empty_Some].
  unfold balancePass in Hrun.
  set (order := envMapOrder env tr1) in Hrun.
  destruct (Balance.balanceBatchCopTask _ _ _ _) as [ret| |] eqn:Hbal;
    try done.
  simplify_eq.
  exists located, (map snd (shuffle (order O) (map_to_list m))),
    (fun k => order (S k)).
  split; [done|]. split; [|split; [|split; [|done]]].
  - unfold draftOf in Hp. rewrite map_to_list_empty in Hp. simpl in Hp.
    unfold copTasksOf in Hp. rewrite map_map in Hp.
    assert (map (fun x : RegionVerID * KeyRanges =>
                   (ctRegion (let '(region, rs) := x in
                      {| ctRegion := region; ctRanges := rs;
                         ctCmdType := CmdBatchCop;
                         ctStoreType := storeType |}),
                    ctRanges (let '(region, rs) := x in
                      {| ctRegion := region; ctRanges := rs;
                         ctCmdType := CmdBatchCop;
                         ctStoreType := storeType |}))) located = located)
      as Hid.
    { clear. induction located as [|[r rs] l IH]; [done|]. simpl.
      by rewrite IH. }
    rewrite Hid in Hp. rewrite <- Hp.
    apply Permutation_map. unfold Balance.allRegions.
    apply Permutation_flat_map, Permutation_map, shuffle_Permutation.
  - assert (map storeAddr (map snd (map_to_list m)) = map fst (map_to_list m))
      as Hkeys.
    { rewrite map_map. apply map_ext_in. intros [a t] Hin. simpl.
      apply list_elem_of_In, elem_of_map_to_list in Hin.
      by destruct (Hm _ _ Hin) as [? _]. }
    assert (map storeAddr (map snd (shuffle (order O) (map_to_list m)))
            ≡ₚ map fst (map_to_list m)) as ->.
    { rewrite <- Hkeys.
      apply Permutation_map, Permutation_map, shuffle_Permutation. }
    apply NoDup_fst_map_to_list.
  - apply Forall_forall. intros t Ht.
    apply list_elem_of_fmap in Ht as ([a t'] & -> & Hin).
    apply elem_of_shuffle, elem_of_map_to_list in Hin. simpl.
    destruct (Hm _ _ Hin) as [Ha ?]. rewrite Ha. by apply Hm.
Qed.

(** *** Passes and backoffs *)

Lemma countSplits_app (seg tr : list Event) :
  countSplits (seg ++ tr) = (countSplits seg + countSplits tr)%nat.
Proof. unfold countSplits. by rewrite List.filter_app, length_app. Qed.

Lemma lookups_count (seg : list Event) :
  Forall lookupEvent seg ->
  countSplits seg = 0%nat /\ forall ty, countBackoff ty seg = 0%nat.
Proof.
  induction 1 as [|ev seg Hev _ [IH1 IH2]]; [done|].
  destruct ev; try done.
Qed.

Lemma countBackoff_cons (ty : BackoffType) (ev : Event) (tr : list Event) :
  countBackoff ty (ev :: tr)
  = ((if isBackoff ty ev then 1 else 0) + countBackoff ty tr)%nat.
Proof. unfold countBackoff. simpl. by destruct (isBackoff ty ev). Qed.

Lemma countSplits_cons (ev : Event) (tr : list Event) :
  countSplits (ev :: tr)
  = ((if isSplit ev then 1 else 0) + countSplits tr)%nat.
Proof. unfold countSplits. simpl. by destruct (isSplit ev). Qed.

(** One pass: a call of [SplitKeyRanges], then lookups, then at most one
    backoff, with [BoRegionMiss]; exactly one when the pass asks for a
    retry and none when it hands tasks to the balancer. *)
Lemma planPass_counts (env : Env) (ranges : KeyRanges) (storeType : StoreType)
    (tr tr' : list Event) (p : pass) :
  planPass env ranges storeType tr = (Returned p, tr') ->
  exists seg, tr' = seg ++ tr /\
    countSplits seg = 1%nat /\
    (forall ty, ty <> BoRegionMiss -> countBackoff ty seg = 0%nat) /\
    match p with
    | PassRetry => countBackoff BoRegionMiss seg = 1%nat
    | PassDone _ => countBackoff BoRegionMiss seg = 0%nat
    | PassFailed _ => (countBackoff BoRegionMiss seg <= 1)%nat
    end.
Proof.
  intros Hrun. unfold planPass in Hrun.
  unfold bind at 1, call at 1 in Hrun.
  destruct (envSplitKeyRanges env _) as [located|e].
  2:{ unfold ret in Hrun. simplify_eq. exists [EvSplitKeyRanges ranges].
      split; [done|]. split; [done|]. split; [done|].
      rewrite countBackoff_cons. simpl. unfold countBackoff. simpl. lia. }
  unfold bind at 1 in Hrun.
  destruct (resolveTasks env _ ∅ false _) as [[res| |] tr1] eqn:Hres;
    try done.
  destruct (resolveTasks_events env _ _ _ _ _ _ Hres) as (seg1 & -> & Hseg1).
  apply lookups_count in Hseg1 as [Hs1 Hb1].
  assert (forall ty, countBackoff ty [EvSplitKeyRanges ranges] = 0%nat)
    as Hb0 by done.
  assert (countSplits [EvSplitKeyRanges ranges] = 1%nat) as Hs0 by done.
  destruct res as [[m [|]]|e].
  - unfold bind, Backoff, call, ret in Hrun.
    exists ((EvBackoff BoRegionMiss regionMissError :: seg1)
            ++ [EvSplitKeyRanges ranges]).
    assert (countSplits ((EvBackoff BoRegionMiss regionMissError :: seg1)
                         ++ [EvSplitKeyRanges ranges]) = 1%nat) as Hs.
    { by rewrite countSplits_app, countSplits_cons, Hs1, Hs0. }
    assert (forall ty, ty <> BoRegionMiss ->
              countBackoff ty ((EvBackoff BoRegionMiss regionMissError :: seg1)
                               ++ [EvSplitKeyRanges ranges]) = 0%nat) as Hb.
    { intros ty Hty. rewrite countBackoff_app, countBackoff_cons, Hb1, Hb0.
      simpl. by rewrite bool_decide_eq_false_2 by done. }
    assert (countBackoff BoRegionMiss
              ((EvBackoff BoRegionMiss regionMissError :: seg1)
               ++ [EvSplitKeyRanges ranges]) = 1%nat) as Hb'.
    { by rewrite countBackoff_app, countBackoff_cons, Hb1, Hb0. }
    destruct (envBackoff env _); simplify_eq;
      (split; [by rewrite <- app_assoc|]); (split; [done|]);
      (split; [done|]); [lia|done].
  - unfold balancePass in Hrun.
    destruct (Balance.balanceBatchCopTask _ _ _ _) as [ret| |]; try done.
    simplify_eq.
    eexists ((EvObserveTasks _ :: seg1) ++ [EvSplitKeyRanges ranges]).
    split; [by rewrite <- app_assoc|].
    split; [by rewrite countSplits_app, countSplits_cons, Hs1, Hs0|].
    split.
    + intros ty Hty. by rewrite countBackoff_app, countBackoff_cons, Hb1, Hb0.
    + by rewrite countBackoff_app, countBackoff_cons, Hb1, Hb0.
  - unfold ret in Hrun. simplify_eq.
    exists (seg1 ++ [EvSplitKeyRanges ranges]).
    split; [by rewrite <- app_assoc|].
    split; [by rewrite countSplits_app, Hs1, Hs0|].
    split.
    + intros ty Hty. by rewrite countBackoff_app, Hb1, Hb0.
    + rewrite countBackoff_app, Hb1, Hb0. lia.
Qed.

(** The planner backs off once for every pass it repeats, always with
    [BoRegionMiss]: when it returns tasks it has made one pass more than
    backoffs, and when it returns an error the failed pass may have ended
    in one more backoff. *)
Theorem planner_backs_off_once_per_retry
    (env : Env) (fuel : nat) (ranges : KeyRanges) (storeType : StoreType)
    (tr tr' : list Event) (r : list batchCopTask + error) :
  buildBatchCopTasks env fuel ranges storeType tr = (Returned r, tr') ->
  exists seg, tr' = seg ++ tr /\
    (forall ty, ty <> BoRegionMiss -> countBackoff ty seg = 0%nat) /\
    match r with
    | inl _ => countSplits seg = S (countBackoff BoRegionMiss seg)
    | inr _ =>
        countSplits seg = S (countBackoff BoRegionMiss seg) \/
        countSplits seg = countBackoff BoRegionMiss seg
    end.
Proof.
  revert tr; induction fuel as [|fuel IH]; intros tr Hrun; simpl in Hrun;
    [done|].
  unfold bind at 1 in Hrun.
  destruct (planPass env ranges storeType tr) as [[p| |] tr1] eqn:Hpass;
    try done.
  apply planPass_counts in Hpass as (seg1 & -> & Hs1 & Hb1 & Hp).
  destruct p as [e| |tasks].
  - unfold ret in Hrun. simplify_eq. exists seg1. split; [done|].
    split; [done|]. lia.
  - apply IH in Hrun as (seg2 & -> & Hb2 & Hr).
    exists (seg2 ++ seg1). split; [by rewrite app_assoc|].
    rewrite countSplits_app, countBackoff_app. split.
    + intros ty Hty. by rewrite countBackoff_app, Hb1, Hb2.
    + destruct r; lia.
  - unfold ret in Hrun. simplify_eq. exists seg1. split; [done|].
    split; [done|]. lia.
Qed.

(** The planner talks to the region cache, to its backoffer and to the
    histogram of task counts, and to nothing else: it sends no request and
    puts nothing on [respChan]. *)
Theorem planner_calls_only_the_cache
    (env : Env) (fuel : nat) (ranges : KeyRanges) (storeType : StoreType)
    (tr tr' : list Event) (out : outcome (list batchCopTask + error)) :
  buildBatchCopTasks env fuel ranges storeType tr = (out, tr') ->
  exists seg, tr' = seg ++ tr /\ Forall plannerEvent seg.
Proof. apply buildBatchCopTasks_events. Qed.

(** The planner at a cache that knows region 10: one pass. *)
Lemma planner_draft_keeps_regions_witness :
  exists located draft mapOrder,
    envSplitKeyRanges brokenSendEnv [EvSplitKeyRanges []] = inl located /\
    map locatedOf (Balance.allRegions draft) ≡ₚ located /\
    NoDup (map storeAddr draft) /\
    Forall (fun t => plannedFor (storeAddr t) t) draft /\
    Balance.balanceBatchCopTask (envRegionKey brokenSendEnv) mapOrder
      (balanceFuel draft) draft = Returned [taskStore1].
Proof.
  apply (planner_draft_keeps_regions brokenSendEnv [] TiFlash []
           (planPass brokenSendEnv [] TiFlash []).2 [taskStore1]).
  vm_compute. reflexivity.
Defined.

(** The planner at a cache that has lost region 10 once: two splits, one
    backoff. *)
Lemma planner_backs_off_once_per_retry_witness :
  exists seg,
    (buildBatchCopTasks staleCacheEnv 3 [] TiFlash []).2 = seg ++ [] /\
    (forall ty, ty <> BoRegionMiss -> countBackoff ty seg = 0%nat) /\
    countSplits seg = S (countBackoff BoRegionMiss seg).
Proof.
  apply (planner_backs_off_once_per_retry staleCacheEnv 3 [] TiFlash []
           (buildBatchCopTasks staleCacheEnv 3 [] TiFlash []).2
           (inl [taskStore1])).
  vm_compute. reflexivity.
Defined.

Lemma planner_calls_only_the_cache_witness :
  exists seg,
    (buildBatchCopTasks staleCacheEnv 3 [] TiFlash []).2 = seg ++ [] /\
    Forall plannerEvent seg.
Proof.
  apply (planner_calls_only_the_cache staleCacheEnv 3 [] TiFlash []
           (buildBatchCopTasks staleCacheEnv 3 [] TiFlash []).2
           (Returned (inl [taskStore1]))).
  vm_compute. reflexivity.
Defined.

(** ** The request sender *)

Lemma onSendFail_returns (env : Env) (bo : Backoffer) (rpcCtx : RPCContext)
    (regionInfos : list RegionInfo) (e : error) (tr : list Event) :
  exists e1 tr1,
    onSendFailForBatchRegions env bo rpcCtx regionInfos e tr
    = (Returned e1, tr1).
Proof.
  unfold onSendFailForBatchRegions. destruct (_ || _); [by eexists _, _|].
  unfold bind at 1, call at 1. destruct (0 <? _); [by eexists _, _|].
  unfold bind, call, emit, Backoff, ret. by eexists _, _.
Qed.

(** With an RPC context [SendReqToAddr] returns, and it returns one of
    three things: a response, after it has sent the request stamped with
    region and peer once and done nothing else but record statistics; or
    [retry]; or an error.  With [retry] or an error the [cancel] it hands
    back does nothing. *)
Theorem SendReqToAddr_returns_one_of_three
    (env : Env) (ss : RegionBatchRequestSender) (bo : Backoffer)
    (rpcCtx : RPCContext) (regionInfos : list RegionInfo) (req : Request)
    (timeout : Z) (tr : list Event) :
  exists resp retry cancel e tr',
    SendReqToAddr env ss bo (Some rpcCtx) regionInfos req timeout tr
    = (Returned (resp, retry, cancel, e), tr') /\
    ((is_Some resp /\ retry = false /\ e = None /\
      cancel = (if boHasCanceller bo then CancelRPC else CancelNothing) /\
      tr' = (if ssHasStats ss then [EvRecordStats (rpcType req)] else [])
            ++ EvSendRequest (Addr rpcCtx) (stampRequest req rpcCtx) timeout
            :: tr) \/
     (resp = None /\ retry = true /\ e = None /\ cancel = CancelNothing) \/
     (resp = None /\ retry = false /\ is_Some e /\ cancel = CancelNothing)).
Proof.
  unfold SendReqToAddr.
  destruct (envSetContext env req _ _) as [e0|].
  { eexists _, _, _, _, _. split; [reflexivity|]. right. right.
    repeat split. by eexists. }
  unfold bind at 1, call at 1.
  destruct (envSendRequest env _) as [resp|e0] eqn:Hsend.
  - exists (Some resp), false,
      (if boHasCanceller bo then CancelRPC else CancelNothing), None,
      ((if ssHasStats ss then [EvRecordStats (rpcType req)] else [])
       ++ EvSendRequest (Addr rpcCtx) (stampRequest req rpcCtx) timeout :: tr).
    split.
    + unfold bind, emit, ret. by destruct (ssHasStats ss).
    + left. split; [by eexists|]. done.
  - destruct (ssHasStats ss), (boHasCanceller bo);
      unfold bind, emit, runCancel, ret; simpl;
      match goal with
      | |- context [onSendFailForBatchRegions ?a ?b ?c ?d ?e ?t] =>
          destruct (onSendFail_returns a b c d e t) as (e1 & tr1 & Hfail);
          rewrite Hfail
      end;
      destruct e1 as [e1|]; eexists _, _, _, _, _;
      (split; [reflexivity|]); right; [right|left|right|left|right|left
                                      |right|left];
      repeat split; by eexists.
Qed.

(** ** Footprints of the worker *)

Section WorkerFootprint.
Variable env : Env.

Lemma onSendFail_events (bo : Backoffer) (rpcCtx : RPCContext)
    (regionInfos : list RegionInfo) (e : error) :
  onlyEvents senderEvent
    (onSendFailForBatchRegions env bo rpcCtx regionInfos e).
Proof. unfold onSendFailForBatchRegions, Backoff. events. Qed.

Lemma SendReqToAddr_events (ss : RegionBatchRequestSender) (bo : Backoffer)
    (rpcCtx : option RPCContext) (regionInfos : list RegionInfo)
    (req : Request) (timeout : Z) :
  onlyEvents senderEvent
    (SendReqToAddr env ss bo rpcCtx regionInfos req timeout).
Proof.
  unfold SendReqToAddr, runCancel. events; apply onSendFail_events.
Qed.

(** The loop over the backoff types keeps the total sleep and gives
    [BackoffSleep] and [BackoffTimes] the same keys. *)
Lemma fillBackoff_dom (times sleepMS : list (BackoffType * Z)) :
  forall stats : CopRuntimeStats,
  dom (BackoffSleep stats) = dom (BackoffTimes stats) ->
  BackoffTime (fillBackoff times sleepMS stats) = BackoffTime stats /\
  dom (BackoffSleep (fillBackoff times sleepMS stats))
  = dom (BackoffTimes (fillBackoff times sleepMS stats)).
Proof.
  induction times as [|[backoff n] times IH]; intros stats Hdom; simpl;
    [done|].
  match goal with
  | |- context [fillBackoff times sleepMS ?st] =>
      destruct (IH st) as [Ht Hd]; [|by rewrite Ht]
  end.
  simpl. rewrite !dom_insert_L. by rewrite Hdom.
Qed.

(** What [handleBatchCopResponse] does with a message. *)
Lemma handleBatchCopResponse_cases (resp : BatchResponse) (task : batchCopTask)
    (tr tr' : list Event) (out : outcome (option error)) :
  handleBatchCopResponse env resp task tr = (out, tr') ->
  (OtherError resp <> "" /\ tr' = tr /\
   out = Returned (Some (Traced (ErrorString
           (String.append "other error: " (OtherError resp)))))) \/
  (OtherError resp = "" /\ out = Returned None /\
   (tr' = EvFinishSeen :: tr \/
    exists r, tr' = EvSendToRespCh r :: tr /\
      pbResp r = Some resp /\ err r = None /\
      exists d, detail r = Some d /\ CalleeAddress d = storeAddr task /\
        BackoffTime d = durationOfMS (envTotalSleep env tr) /\
        dom (BackoffSleep d) = dom (BackoffTimes d))).
Proof.
  unfold handleBatchCopResponse.
  destruct (String.eqb (OtherError resp) "") eqn:Hother; simpl.
  - apply String.eqb_eq in Hother. intros Hrun. right. split; [done|].
    unfold bind, sendToRespCh, ret in Hrun.
    destruct (envSelectSend env tr); simplify_eq; (split; [done|]);
      [right|by left].
    eexists. split; [done|]. simpl. split; [done|]. split; [done|].
    eexists. split; [done|]. simpl. split; [done|].
    by apply fillBackoff_dom.
  - apply String.eqb_neq in Hother. unfold ret. intros [= <- <-].
    left. done.
Qed.

Lemma handleBatchCopResponse_events (resp : BatchResponse)
    (task : batchCopTask) :
  onlyEvents consumeEvent (handleBatchCopResponse env resp task).
Proof.
  intros tr out tr' Hrun.
  apply handleBatchCopResponse_cases in Hrun
    as [(_ & -> & _)|(_ & _ & [->|(r & -> & Hp & He & d & Hd & _)])].
  - by exists [].
  - exists [EvFinishSeen]. by repeat constructor.
  - exists [EvSendToRespCh r]. split; [done|]. repeat constructor; [done| |].
    + rewrite Hp. by eexists.
    + rewrite Hd. by eexists.
Qed.

Lemma streamLoop_events (fuel : nat) :
  forall (resp : BatchResponse) (task : batchCopTask),
  onlyEvents consumeEvent (streamLoop env fuel resp task).
Proof.
  induction fuel as [|fuel IH]; intros resp task; simpl; unfold Backoff;
    events; try first [apply handleBatchCopResponse_events | apply IH].
Qed.

Lemma handleStreamed_events (fuel : nat) (first : option BatchResponse)
    (task : batchCopTask) :
  onlyEvents attemptEvent (handleStreamedBatchCopResponse env fuel first task).
Proof.
  unfold handleStreamedBatchCopResponse.
  destruct first as [resp|].
  - apply onlyEvents_bind; [|intros e; apply onlyEvents_bind; [|intros]].
    + eapply onlyEvents_mono; [|apply streamLoop_events].
      intros ev Hev. right. right. by left.
    + apply onlyEvents_emit. by repeat right.
    + apply onlyEvents_ret.
  - apply onlyEvents_bind; [|intros; apply onlyEvents_ret].
    apply onlyEvents_emit. by repeat right.
Qed.

Lemma handleTaskOnce_events (fuel : nat) (cfg : workerConfig)
    (task : batchCopTask) :
  onlyEvents attemptEvent (handleTaskOnce env fuel cfg task).
Proof.
  unfold handleTaskOnce, retryBatchCopTask.
  apply onlyEvents_bind.
  { eapply onlyEvents_mono; [|apply SendReqToAddr_events].
    intros ev Hev. by left. }
  intros [[[resp retry] cancel] e]. destruct retry.
  - apply onlyEvents_bind.
    + eapply onlyEvents_mono; [|apply buildBatchCopTasks_events].
      intros ev Hev. right. by left.
    + intros [tasks|e']; apply onlyEvents_ret.
  - destruct e as [e'|]; [apply onlyEvents_ret|].
    destruct resp as [[first|]|]; try apply onlyEvents_panic.
    apply onlyEvents_bind; [apply handleStreamed_events|]. intros e'.
    apply onlyEvents_bind; [|intros; apply onlyEvents_ret].
    destruct cancel; [apply onlyEvents_ret|].
    apply onlyEvents_emit. by left.
Qed.

End WorkerFootprint.

Lemma sentResponses_app (seg tr : list Event) :
  sentResponses (seg ++ tr) = sentResponses tr ++ sentResponses seg.
Proof.
  induction seg as [|ev seg IH]; simpl; [by rewrite app_nil_r|].
  destruct ev; try done. by rewrite IH, app_assoc.
Qed.

Lemma attempt_sends_payloads (seg : list Event) :
  Forall attemptEvent seg -> Forall isPayload (sentResponses seg).
Proof.
  induction 1 as [|ev seg Hev _ IH]; [constructor|].
  destruct ev; try done. simpl. apply Forall_app. split; [done|].
  constructor; [|done].
  destruct Hev as [?|[?|[?|?]]]; done.
Qed.

(** ** The task handler *)

Lemma handleTaskLoop_responses (env : Env) (fuel : nat) (cfg : workerConfig) :
  forall (tasks : list batchCopTask) (idx : nat) (tr tr' : list Event)
         (out : outcome unit),
  handleTaskLoop env fuel cfg tasks idx tr = (out, tr') ->
  exists seg payloads failure,
    tr' = seg ++ tr /\
    sentResponses seg = payloads ++ failure /\
    Forall isPayload payloads /\
    (failure = [] \/ exists r, failure = [r] /\ isFailure r).
Proof.
  induction fuel as [|fuel IH]; intros tasks idx tr tr' out Hrun;
    simpl in Hrun.
  { unfold outOfFuel in Hrun. simplify_eq. exists [], [], []. auto. }
  destruct (tasks !! idx) as [t|].
  2:{ unfold ret in Hrun. simplify_eq. exists [], [], []. auto. }
  unfold bind at 1 in Hrun.
  destruct (handleTaskOnce env fuel cfg t tr) as [[[more e]| |] tr1] eqn:Honce;
    destruct (handleTaskOnce_events env _ _ _ _ _ _ Honce)
      as (seg1 & -> & Hseg1);
    apply attempt_sends_payloads in Hseg1.
  - destruct e as [e'|].
    + unfold bind, sendToRespCh, ret in Hrun.
      destruct (envSelectSend env _); simplify_eq.
      * eexists (_ :: seg1), (sentResponses seg1), [_].
        split; [done|]. split; [done|]. split; [done|]. right.
        eexists. split; [done|]. repeat split; by eexists.
      * exists (EvFinishSeen :: seg1), (sentResponses seg1), [].
        split; [done|]. simpl. rewrite app_nil_r. auto.
    + apply IH in Hrun as (seg2 & payloads & failure & -> & Hsent & Hp & Hf).
      exists (seg2 ++ seg1), (sentResponses seg1 ++ payloads), failure.
      split; [by rewrite app_assoc|].
      rewrite sentResponses_app, Hsent, app_assoc. split; [done|].
      split; [by apply Forall_app|done].
  - simplify_eq. exists seg1, (sentResponses seg1), [].
    rewrite app_nil_r. auto.
  - simplify_eq. exists seg1, (sentResponses seg1), [].
    rewrite app_nil_r. auto.
Qed.

(** What a worker puts on [respChan]: responses with a payload,
    statistics and no error, and after them at most one response with an
    error, statistics and no payload; nothing follows that one.  When the
    worker returns, its last act is [wg.Done()]. *)
Theorem worker_sends_payloads_then_one_failure
    (env : Env) (fuel : nat) (cfg : workerConfig) (task : batchCopTask)
    (tr tr' : list Event) (out : outcome unit) :
  handleTask env fuel cfg task tr = (out, tr') ->
  exists seg payloads failure,
    tr' = seg ++ tr /\
    sentResponses tr' = sentResponses tr ++ payloads ++ failure /\
    Forall isPayload payloads /\
    (failure = [] \/ exists r, failure = [r] /\ isFailure r) /\
    (out = Returned tt -> head seg = Some EvWgDone).
Proof.
  unfold handleTask, bind. intros Hrun.
  destruct (handleTaskLoop env fuel cfg [task] 0 tr) as [[[]| |] tr1] eqn:Hloop;
    apply handleTaskLoop_responses in Hloop
      as (seg & payloads & failure & -> & Hsent & Hp & Hf);
    unfold emit in Hrun; simplify_eq.
  - exists (EvWgDone :: seg), payloads, failure. split; [done|].
    simpl. rewrite sentResponses_app, Hsent. done.
  - exists seg, payloads, failure. split; [done|].
    rewrite sentResponses_app, Hsent. done.
  - exists seg, payloads, failure. split; [done|].
    rewrite sentResponses_app, Hsent. done.
Qed.

(** ** The stream consumer, on every path *)

Lemma countStreamCloses_consume (seg : list Event) :
  Forall consumeEvent seg -> countStreamCloses seg = 0%nat.
Proof.
  induction 1 as [|ev seg Hev _ IH]; [done|]. by destruct ev.
Qed.

Lemma streamLoop_outcome (env : Env) (fuel : nat) :
  forall (resp : BatchResponse) (task : batchCopTask) (tr tr' : list Event)
         (e : option error),
  streamLoop env fuel resp task tr = (Returned e, tr') ->
  exists seg, tr' = seg ++ tr /\ Forall consumeEvent seg /\
    match e with
    | None => countBackoff BoTiKVRPC seg = 0%nat
    | Some err' =>
        (countBackoff BoTiKVRPC seg = 0%nat /\
         exists msg, msg <> "" /\ err' = otherError msg) \/
        (countBackoff BoTiKVRPC seg = 1%nat /\
         (err' = ErrTiFlashServerTimeout \/
          exists e0, err' = Traced e0 /\ errorsCause e0 <> IoEOF))
    end.
Proof.
  induction fuel as [|fuel IH]; intros resp task tr tr' e Hrun;
    simpl in Hrun; [done|].
  unfold bind at 1 in Hrun.
  destruct (handleBatchCopResponse env resp task tr) as [out tr1] eqn:Hh.
  apply handleBatchCopResponse_cases in Hh
    as [(Hother & -> & ->)|(_ & -> & Htr1)].
  { unfold ret in Hrun. simplify_eq. exists []. split; [done|].
    split; [done|]. left. split; [done|]. by eexists. }
  assert (exists ev, tr1 = ev :: tr /\ consumeEvent ev /\
            isBackoff BoTiKVRPC ev = false) as (ev & -> & Hev & Hnb).
  { destruct Htr1 as [->|(r & -> & Hp & He & d & Hd & _)].
    - by exists EvFinishSeen.
    - exists (EvSendToRespCh r). split; [done|]. split; [|done].
      split; [done|]. rewrite Hp, Hd. split; by eexists. }
  unfold bind at 1, call at 1 in Hrun.
  destruct (envRecv env _) as [resp'|e'] eqn:Hrecv.
  - apply IH in Hrun as (seg2 & -> & Hseg2 & He).
    exists (seg2 ++ [EvRecv; ev]).
    split; [by rewrite <- app_assoc|].
    split; [apply Forall_app; split; [done|by repeat constructor]|].
    rewrite countBackoff_app, !countBackoff_cons, Hnb. simpl.
    unfold countBackoff at 2 4 6. simpl. rewrite !Nat.add_0_r. done.
  - destruct (bool_decide (errorsCause e' = IoEOF)) eqn:Heof.
    + unfold ret in Hrun. simplify_eq. exists [EvRecv; ev].
      split; [done|]. split; [by repeat constructor|].
      by rewrite !countBackoff_cons, Hnb.
    + apply bool_decide_eq_false in Heof.
      unfold bind, Backoff, call, ret in Hrun.
      exists [EvBackoff BoTiKVRPC (ErrorString "recv stream response error");
              EvRecv; ev].
      assert (countBackoff BoTiKVRPC
                [EvBackoff BoTiKVRPC
                   (ErrorString "recv stream response error");
                 EvRecv; ev] = 1%nat) as Hb
        by (by rewrite !countBackoff_cons, Hnb).
      destruct (envBackoff env _); simplify_eq;
        (split; [done|]); (split; [by repeat constructor|]);
        right; (split; [done|]); [right; by eexists|by left].
Qed.

(** Whenever the stream consumer returns, it has closed the stream, once
    and as its last act.  Before that it has received messages, offered
    responses with payloads to [respChan] and called the backoffer at most
    once.  It returns nil without a backoff; an error it returns is the
    other-error of a message, without a backoff, or follows the one
    backoff and is the server-timeout error or the receive error. *)
Theorem stream_consumer_closes_once
    (env : Env) (fuel : nat) (first : option BatchResponse)
    (task : batchCopTask) (tr tr' : list Event) (e : option error) :
  handleStreamedBatchCopResponse env fuel first task tr = (Returned e, tr') ->
  exists seg,
    tr' = EvStreamClose :: seg ++ tr /\
    Forall consumeEvent seg /\
    countStreamCloses seg = 0%nat /\
    (first = None -> seg = [] /\ e = None) /\
    match e with
    | None => countBackoff BoTiKVRPC seg = 0%nat
    | Some err' =>
        (countBackoff BoTiKVRPC seg = 0%nat /\
         exists msg, msg <> "" /\ err' = otherError msg) \/
        (countBackoff BoTiKVRPC seg = 1%nat /\
         (err' = ErrTiFlashServerTimeout \/
          exists e0, err' = Traced e0 /\ errorsCause e0 <> IoEOF))
    end.
Proof.
  unfold handleStreamedBatchCopResponse. intros Hrun.
  destruct first as [resp|].
  - unfold bind at 1 in Hrun.
    destruct (streamLoop env fuel resp task tr) as [[e1| |] tr1] eqn:Hloop;
      try done.
    apply streamLoop_outcome in Hloop as (seg & -> & Hseg & He).
    unfold bind, emit, ret in Hrun. simplify_eq. exists seg.
    split; [done|]. split; [done|].
    split; [by apply countStreamCloses_consume|]. done.
  - unfold bind, emit, ret in Hrun. simplify_eq. exists [].
    repeat split; done.
Qed.

(** A response [handleBatchCopResponse] forwards carries the message as
    its payload and no error; its statistics name the store of the task,
    give the total sleep of the backoffer as a [time.Duration]
    (milliseconds times [time.Millisecond], in [int64]) and list sleep and
    count for the same backoff types.  A message with
    an other-error is not forwarded: the error is returned and nothing
    else happens. *)
Theorem forwarded_response_carries_message
    (env : Env) (resp : BatchResponse) (task : batchCopTask)
    (tr tr' : list Event) (out : outcome (option error)) :
  handleBatchCopResponse env resp task tr = (out, tr') ->
  (OtherError resp <> "" /\ tr' = tr /\
   out = Returned (Some (Traced (ErrorString
           (String.append "other error: " (OtherError resp)))))) \/
  (OtherError resp = "" /\ out = Returned None /\
   (tr' = EvFinishSeen :: tr \/
    exists r, tr' = EvSendToRespCh r :: tr /\
      pbResp r = Some resp /\ err r = None /\
      exists d, detail r = Some d /\ CalleeAddress d = storeAddr task /\
        BackoffTime d = durationOfMS (envTotalSleep env tr) /\
        dom (BackoffSleep d) = dom (BackoffTimes d))).
Proof. apply handleBatchCopResponse_cases. Qed.

(** A worker at a stream that hands out two messages and then breaks. *)
Lemma worker_sends_payloads_then_one_failure_witness :
  exists seg payloads failure,
    (handleTask brokenStreamEnv 3 plainWorker taskStore1 []).2 = seg ++ [] /\
    sentResponses (handleTask brokenStreamEnv 3 plainWorker taskStore1 []).2
    = sentResponses [] ++ payloads ++ failure /\
    Forall isPayload payloads /\
    (failure = [] \/ exists r, failure = [r] /\ isFailure r) /\
    (Returned tt = Returned tt -> head seg = Some EvWgDone).
Proof.
  apply (worker_sends_payloads_then_one_failure brokenStreamEnv 3 plainWorker
           taskStore1 []
           (handleTask brokenStreamEnv 3 plainWorker taskStore1 []).2
           (Returned tt)).
  vm_compute. reflexivity.
Defined.

(** The stream consumer at the same stream. *)
Lemma stream_consumer_closes_once_witness :
  exists seg,
    (handleStreamedBatchCopResponse brokenStreamEnv 3
       (Some (payload Byte.x01)) taskStore1 []).2
    = EvStreamClose :: seg ++ [] /\
    Forall consumeEvent seg /\
    countStreamCloses seg = 0%nat /\
    (Some (payload Byte.x01) = None ->
     seg = [] /\ Some ErrTiFlashServerTimeout = None) /\
    ((countBackoff BoTiKVRPC seg = 0%nat /\
      exists msg, msg <> "" /\ ErrTiFlashServerTimeout = otherError msg) \/
     (countBackoff BoTiKVRPC seg = 1%nat /\
      (ErrTiFlashServerTimeout = ErrTiFlashServerTimeout \/
       exists e0, ErrTiFlashServerTimeout = Traced e0 /\
                  errorsCause e0 <> IoEOF))).
Proof.
  apply (stream_consumer_closes_once brokenStreamEnv 3
           (Some (payload Byte.x01)) taskStore1 []
           (handleStreamedBatchCopResponse brokenStreamEnv 3
              (Some (payload Byte.x01)) taskStore1 []).2
           (Some ErrTiFlashServerTimeout)).
  vm_compute. reflexivity.
Defined.

(** One message with a payload, forwarded. *)
Lemma forwarded_response_carries_message_witness :
  (OtherError (payload Byte.x01) <> "" /\
   (handleBatchCopResponse brokenStreamEnv (payload Byte.x01) taskStore1 []).2
   = [] /\
   Returned (@None error)
   = Returned (Some (Traced (ErrorString
               (String.append "other error: "
                  (OtherError (payload Byte.x01))))))) \/
  (OtherError (payload Byte.x01) = "" /\
   Returned (@None error) = Returned None /\
   ((handleBatchCopResponse brokenStreamEnv (payload Byte.x01) taskStore1 []).2
    = [EvFinishSeen] \/
    exists r,
      (handleBatchCopResponse brokenStreamEnv (payload Byte.x01) taskStore1
         []).2
      = [EvSendToRespCh r] /\
      pbResp r = Some (payload Byte.x01) /\ err r = None /\
      exists d, detail r = Some d /\ CalleeAddress d = storeAddr taskStore1 /\
        BackoffTime d = durationOfMS (envTotalSleep brokenStreamEnv []) /\
        dom (BackoffSleep d) = dom (BackoffTimes d))).
Proof.
  apply (forwarded_response_carries_message brokenStreamEnv
           (payload Byte.x01) taskStore1 []
           (handleBatchCopResponse brokenStreamEnv (payload Byte.x01)
              taskStore1 []).2
           (Returned None)).
  vm_compute. reflexivity.
Defined.

(** ** [Next], one call *)

Lemma closeFinishOnce_fields (it it' : batchCopIterator)
    (tr tr' : list Event) :
  closeFinishOnce it tr = (Returned it', tr') ->
  itReq it' = itReq it /\ itTasks it' = itTasks it /\
  respChan it' = respChan it /\ respChanClosed it' = respChanClosed it /\
  (finishChClosed it' = true \/ closed it <> 0).
Proof.
  unfold closeFinishOnce. destruct (closed it =? 0) eqn:Hc.
  - unfold bind, emit, ret, panic. destruct (finishChClosed it); [done|].
    intros ?; simplify_eq. simpl. repeat split; auto.
  - apply Z.eqb_neq in Hc. unfold bind, emit, ret. intros ?; simplify_eq.
    repeat split; auto.
Qed.

(** What [recvFromRespCh] hands to [Next]: the oldest response of
    [respChan], taken off the channel; or the response made up for a killed
    query; or nothing, when [respChan] is closed and empty, [finishCh] is
    closed or the context is done. *)
Lemma recvFromRespCh_cases (choices : list selectCase) :
  forall (it it' : batchCopIterator) (tr tr' : list Event)
         (resp : option batchCopResponse) (ok exit : bool),
  recvFromRespCh choices it tr = (Returned (it', (resp, ok, exit)), tr') ->
  itReq it' = itReq it /\ itTasks it' = itTasks it /\
  respChanClosed it' = respChanClosed it /\
  ((exists r, resp = Some r /\ ok = true /\ exit = false /\ tr' = tr /\
      respChan it = r :: respChan it') \/
   (resp = Some interruptedResponse /\ ok = true /\ exit = false /\
    tr' = tr /\ it' = it) \/
   (resp = None /\ ok = false /\ respChan it' = respChan it /\
    ((exit = false /\ respChan it = [] /\ respChanClosed it = true) \/
     (exit = true /\ (finishChClosed it' = true \/ closed it <> 0))))).
Proof.
  induction choices as [|c choices IH]; intros it it' tr tr' resp ok exit Hrun;
    simpl in Hrun; [done|].
  destruct c as [|killed| |].
  - destruct (respChan it) as [|r q] eqn:Hchan.
    + destruct (respChanClosed it) eqn:Hcl.
      * unfold ret in Hrun. simplify_eq.
        repeat split; try done. right. right. repeat split; try done.
        left. done.
      * apply IH in Hrun. by rewrite Hchan, Hcl in Hrun.
    + unfold ret in Hrun. simplify_eq. simpl.
      repeat split; try done. left. by exists r.
  - destruct (killed =? 1); [|by apply IH].
    unfold ret in Hrun. simplify_eq. repeat split; try done.
    right. left. done.
  - destruct (finishChClosed it) eqn:Hfin; [|by apply IH].
    unfold ret in Hrun. simplify_eq. repeat split; try done.
    right. right. repeat split; try done. right. split; [done|]. by left.
  - unfold bind at 1 in Hrun.
    destruct (closeFinishOnce it tr) as [[it1| |] tr1] eqn:Hclose; try done.
    unfold ret in Hrun. simplify_eq.
    apply closeFinishOnce_fields in Hclose as (? & ? & ? & ? & ?).
    repeat split; try done. right. right. repeat split; try done.
    right. by split.
Qed.

(** One call of [Next] takes at most one response off [respChan], the
    oldest.  A result subset it returns is that response, which has no
    error.  An error it returns is the error of that response, traced; or
    the error of [CheckVisibility], in which case the response is taken
    off the channel and not returned; or [ErrQueryInterrupted] when the
    query was killed, with the channel left as it was.  It returns nil and
    nil only when [respChan] is closed and empty, [finishCh] is closed, or
    [closed] was set before. *)
Theorem Next_takes_the_oldest_response
    (env : Env) (choices : list selectCase) (it it' : batchCopIterator)
    (tr tr' : list Event) (rs : option batchCopResponse) (e : option error) :
  Next env choices it tr = (Returned (it', (rs, e)), tr') ->
  itReq it' = itReq it /\ itTasks it' = itTasks it /\
  respChanClosed it' = respChanClosed it /\
  ((exists r, respChan it = r :: respChan it' /\
      match err r with
      | Some e0 => rs = None /\ e = Some (Traced e0) /\ tr' = tr
      | None =>
          tr' = EvCheckVisibility (reqStartTs (itReq it)) :: tr /\
          match envCheckVisibility env tr' with
          | Some e1 => rs = None /\ e = Some (Traced e1)
          | None => rs = Some r /\ e = None
          end
      end) \/
   (respChan it' = respChan it /\ rs = None /\
    e = Some (Traced ErrQueryInterrupted) /\ tr' = tr) \/
   (respChan it' = respChan it /\ rs = None /\ e = None /\
    ((respChan it = [] /\ respChanClosed it = true) \/
     finishChClosed it' = true \/ closed it <> 0))).
Proof.
  unfold Next, bind. intros Hrun.
  destruct (recvFromRespCh choices it tr)
    as [[[it1 [[resp ok] exit]]| |] tr1] eqn:Hrecv; try done.
  apply recvFromRespCh_cases in Hrecv
    as (Hreq & Htasks & Hcl &
        [(r & -> & -> & -> & -> & Hchan)
        |[(-> & -> & -> & -> & ->)
         |(-> & -> & Hchan & Hend)]]); simpl in Hrun.
  - destruct (err r) as [e0|] eqn:Herr.
    + unfold ret in Hrun. simplify_eq. repeat split; try done.
      left. exists r. by rewrite Herr.
    + unfold call, ret in Hrun.
      destruct (envCheckVisibility env _) as [e1|] eqn:Hvis; simplify_eq;
        (repeat split; try done); left; exists r; rewrite Herr, <- Hreq;
        (split; [done|]); (split; [done|]); by rewrite Hvis.
  - unfold ret in Hrun. simplify_eq. repeat split; try done.
    right. left. done.
  - unfold ret in Hrun. simplify_eq. repeat split; try done.
    right. right. repeat split; try done.
    destruct Hend as [(_ & ? & ?)|(_ & [?|?])]; auto.
Qed.

(** ** [MemSize] *)

(** [MemSize] computes the size once and keeps it in [respSize]: a second
    call returns the same number and leaves the response as the first
    call left it.  No call changes a field other than [respSize] or reads
    [err]. *)
Theorem MemSize_is_cached
    (sizeofExecDetails : Z) (pbSize : BatchResponse -> Z) (capStartKey : Z)
    (rs : batchCopResponse) :
  let first := MemSize sizeofExecDetails pbSize capStartKey rs in
  MemSize sizeofExecDetails pbSize capStartKey (fst first) = first /\
  fst first = setRespSize rs (snd first) /\
  forall e, MemSize sizeofExecDetails pbSize capStartKey
              {| pbResp := pbResp rs; detail := detail rs;
                 startKey := startKey rs; err := e;
                 respSize := respSize rs; respTime := respTime rs |}
            = ({| pbResp := pbResp rs; detail := detail rs;
                  startKey := startKey rs; err := e;
                  respSize := snd first; respTime := respTime rs |},
               snd first).
Proof.
  simpl. unfold MemSize.
  destruct (respSize rs =? 0) eqn:Hz; simpl.
  - apply Z.eqb_eq in Hz. rewrite Hz. simpl.
    remember (match pbResp rs with Some r => _ | None => _ end) as s3
      eqn:Hdef.
    split; [|split; [done|]].
    + destruct (s3 =? 0) eqn:Hs3; simpl; [|done].
      apply Z.eqb_eq in Hs3. unfold setRespSize. simpl.
      rewrite Hs3. rewrite Hs3 in Hdef. by rewrite <- Hdef.
    + done.
  - rewrite Hz. simpl. split; [done|]. split; [by destruct rs|done].
Qed.

(** [Next] at an iterator with two responses waiting: the first one is
    returned, the second one stays. *)
Lemma Next_takes_the_oldest_response_witness :
  exists it' tr',
    Next brokenSendEnv [SelRespChan] iteratorWithResponses []
    = (Returned (it', (Some (responseOf Byte.x01), None)), tr') /\
    exists r, respChan iteratorWithResponses = r :: respChan it'.
Proof.
  exists (setRespChan iteratorWithResponses [responseOf Byte.x02]),
    [EvCheckVisibility 42].
  assert (Next brokenSendEnv [SelRespChan] iteratorWithResponses []
          = (Returned
               (setRespChan iteratorWithResponses [responseOf Byte.x02],
                (Some (responseOf Byte.x01), None)),
             [EvCheckVisibility 42])) as Hrun by (vm_compute; reflexivity).
  destruct (Next_takes_the_oldest_response brokenSendEnv [SelRespChan]
              iteratorWithResponses _ [] _ _ _ Hrun)
    as (_ & _ & _ & Hcases).
  split; [exact Hrun|].
  destruct Hcases as [(r & Hr & _)|[(_ & Hn & _)|(_ & Hn & _)]];
    [|discriminate Hn|discriminate Hn].
  by exists r.
Defined.

(** * Label rules *)

Module LabelRuleFacts.
Import LabelRule.

(** ** Slices *)

Lemma elems_length (arrs : gmap nat (list Label)) (s : LabelSlice) :
  wfSlice arrs s -> length (elems arrs s) = len s.
Proof.
  unfold wfSlice, elems, arrayOf. destruct (base s) as [b|].
  - intros (a & -> & Hlen). simpl. rewrite length_take. lia.
  - intros ->. done.
Qed.

Lemma writeBack_spec (arrs : gmap nat (list Label)) (s : LabelSlice)
    (ls : list Label) :
  wfSlice arrs s -> length ls = len s ->
  elems (writeBack arrs s ls) s = ls /\
  wfSlice (writeBack arrs s ls) s /\
  forall t, wfSlice (writeBack arrs s ls) t <-> wfSlice arrs t.
Proof.
  unfold wfSlice, writeBack, elems, arrayOf. intros Hwf Hlen.
  destruct (base s) as [b|] eqn:Hb.
  - destruct Hwf as (a & Ha & Hle). rewrite Ha. simpl.
    rewrite lookup_insert_eq. simpl.
    assert (length (ls ++ drop (len s) a) = length a) as Hsame.
    { rewrite length_app, length_drop. lia. }
    split; [|split].
    + rewrite take_app_length'; done.
    + eexists. split; [done|]. lia.
    + intros t. destruct (base t) as [b2|]; [|done].
      destruct (decide (b = b2)) as [<-|Hne].
      * rewrite lookup_insert_eq, Ha. split.
        -- intros (a' & ? & ?); simplify_eq. exists a. split; [done|]. lia.
        -- intros (a' & ? & ?); simplify_eq. eexists. split; [done|]. lia.
      * by rewrite lookup_insert_ne.
  - rewrite Hwf in Hlen. destruct ls; [|done]. rewrite Hwf. done.
Qed.

Section Append.
Variable spare : nat -> nat.

(** [append] adds the element at the end of the slice.  Another slice
    keeps its elements, unless it shares the array and reaches beyond the
    length of the slice appended to. *)
Lemma appendLabel_grows (arrs arrs' : gmap nat (list Label))
    (s s' : LabelSlice) (x : Label) :
  wfSlice arrs s ->
  appendLabel spare arrs s x = (arrs', s') ->
  grows arrs s arrs' s' [x].
Proof.
  unfold grows, appendLabel, wfSlice, elems, arrayOf. intros Hwf Happ.
  assert (forall (b' : nat) (a' : list Label) (t : LabelSlice),
            b' ∉ dom arrs ->
            match base t with
            | Some b => exists a, arrs !! b = Some a /\ (len t <= length a)%nat
            | None => len t = 0%nat
            end ->
            take (len t)
              match base t with
              | Some b => default [] (<[b' := a']> arrs !! b)
              | None => []
              end
            = take (len t)
                match base t with
                | Some b => default [] (arrs !! b)
                | None => []
                end /\
            match base t with
            | Some b =>
                exists a, <[b' := a']> arrs !! b = Some a /\
                          (len t <= length a)%nat
            | None => len t = 0%nat
            end /\
            (base t = Some b' -> (len t <= S (len s))%nat)) as Hfresh.
  { intros b' a' t Hb' Ht. destruct (base t) as [b2|]; [|done].
    destruct Ht as (a2 & Ha2 & Hle2).
    assert (b' <> b2) as Hne
      by (intros ->; apply Hb', elem_of_dom; by eexists).
    rewrite lookup_insert_ne by done. split; [done|].
    split; [by exists a2|]. intros ?; by simplify_eq. }
  destruct (base s) as [b|] eqn:Hb.
  - destruct Hwf as (a & Ha & Hle). rewrite Ha in Happ. simpl in Happ.
    destruct (len s <? length a)%nat eqn:Hroom.
    + apply Nat.ltb_lt in Hroom. simplify_eq. simpl.
      rewrite lookup_insert_eq, Ha. simpl.
      split; [|split].
      * rewrite (take_S_r _ _ x)
          by (by rewrite list_lookup_insert_eq).
        by rewrite take_insert_ge.
      * eexists. split; [done|]. rewrite length_insert. lia.
      * intros t Ht Hshare. destruct (base t) as [b2|]; [|done].
        destruct Ht as (a2 & Ha2 & Hle2).
        destruct (decide (b = b2)) as [<-|Hne].
        -- rewrite Ha in Ha2. injection Ha2 as <-.
           rewrite lookup_insert_eq, Ha. simpl.
           rewrite take_insert_ge by (by apply Hshare).
           split; [done|]. split.
           ++ eexists. split; [done|]. rewrite length_insert. lia.
           ++ intros _. specialize (Hshare eq_refl). lia.
        -- rewrite lookup_insert_ne, Ha2 by done. split; [done|].
           split; [by exists a2|]. intros ?; by simplify_eq.
    + apply Nat.ltb_ge in Hroom. simplify_eq. simpl.
      rewrite lookup_insert_eq, Ha. simpl.
      split; [|split].
      * assert (length (take (len s) a) = len s) as Hlen
          by (rewrite length_take; lia).
        rewrite (take_S_r _ _ x).
        -- f_equal. rewrite take_app_length'; done.
        -- rewrite lookup_app_r by lia. by rewrite Hlen, Nat.sub_diag.
      * eexists. split; [done|].
        rewrite length_app, length_take. simpl. lia.
      * intros t Ht _. apply Hfresh; [apply is_fresh|done].
  - simplify_eq. simpl. rewrite lookup_insert_eq. simpl. rewrite Hwf. simpl.
    split; [done|]. split.
    + eexists. split; [done|]. simpl. lia.
    + intros t Ht _.
      destruct (Hfresh (fresh (dom arrs))
                  (x :: replicate (spare 0) {| Key := ""; Value := "" |}) t)
        as (? & ? & Hle); [apply is_fresh|done|].
      rewrite Hwf in Hle. done.
Qed.

End Append.

Lemma grows_refl (arrs : gmap nat (list Label)) (s : LabelSlice) :
  wfSlice arrs s -> grows arrs s arrs s [].
Proof.
  intros Hwf. split; [by rewrite app_nil_r|]. split; [done|].
  intros t Ht Hshare. done.
Qed.

Lemma grows_trans (arrs1 arrs2 arrs3 : gmap nat (list Label))
    (s1 s2 s3 : LabelSlice) (xs ys : list Label) :
  grows arrs1 s1 arrs2 s2 xs -> grows arrs2 s2 arrs3 s3 ys ->
  grows arrs1 s1 arrs3 s3 (xs ++ ys).
Proof.
  intros (He1 & Hwf1 & Ht1) (He2 & Hwf2 & Ht2).
  split; [by rewrite He2, He1, app_assoc|]. split; [done|].
  intros t Ht Hshare.
  destruct (Ht1 t Ht Hshare) as (Het1 & Hwt1 & Hsh1).
  destruct (Ht2 t Hwt1 Hsh1) as (Het2 & Hwt2 & Hsh2).
  split; [by rewrite Het2|done].
Qed.

(** ** The loop of [Reset] *)

Section Relabel.
Variable dbKey tableKey partitionKey : string.
Variable isPartition : bool.
Variable dbName tableName partName0 : string.

Abbreviation relabelOne :=
  (relabelOne dbKey tableKey partitionKey isPartition dbName tableName
     partName0).
Abbreviation relabel :=
  (relabel dbKey tableKey partitionKey isPartition dbName tableName
     partName0).

Abbreviation newValue :=
  (newValue dbKey tableKey partitionKey isPartition dbName tableName
     partName0).

Lemma relabel_labels (ls : list Label) :
  forall f, (relabel ls f).1
            = map (fun l => {| Key := Key l; Value := newValue l |}) ls.
Proof.
  induction ls as [|l ls IH]; intros f; simpl; [done|].
  destruct (relabelOne l f) as [l' f1] eqn:H1.
  specialize (IH f1). destruct (relabel ls f1) as [rest f2]. simpl in *.
  rewrite IH. f_equal.
  unfold LabelRule.relabelOne, LabelRule.newValue in *.
  destruct (bool_decide (Key l = dbKey)); [by simplify_eq|].
  destruct (bool_decide (Key l = tableKey)); [by simplify_eq|].
  destruct (bool_decide (Key l = partitionKey)); simpl;
    [destruct isPartition|]; simplify_eq; try done;
    match goal with |- ?x = _ => by destruct x end.
Qed.

Lemma relabel_length (ls : list Label) (f : seen) :
  length (relabel ls f).1 = length ls.
Proof. by rewrite relabel_labels, length_map. Qed.

(** The flags after the loop: a flag is set when it was set before or a
    label took the case of its key. *)
Lemma relabel_flags (ls : list Label) :
  forall f,
  (hasDBKey (relabel ls f).2 = true <->
   hasDBKey f = true \/ exists l, l ∈ ls /\ Key l = dbKey) /\
  (hasTableKey (relabel ls f).2 = true <->
   hasTableKey f = true \/
   exists l, l ∈ ls /\ Key l <> dbKey /\ Key l = tableKey) /\
  (hasPartitionKey (relabel ls f).2 = true <->
   hasPartitionKey f = true \/
   (isPartition = true /\
    exists l, l ∈ ls /\ Key l <> dbKey /\ Key l <> tableKey /\
              Key l = partitionKey)).
Proof.
  induction ls as [|l ls IH]; intros f; simpl.
  { split; [|split]; (split; [by left|]); intros [?|H]; try done.
    - by destruct H as (l & ?%elem_of_nil & _).
    - by destruct H as (l & ?%elem_of_nil & _).
    - by destruct H as (_ & l & ?%elem_of_nil & _). }
  destruct (relabelOne l f) as [l' f1] eqn:H1.
  specialize (IH f1). destruct (relabel ls f1) as [rest f2]. simpl in *.
  destruct IH as (IHd & IHt & IHp).
  rewrite IHd, IHt, IHp. clear IHd IHt IHp.
  unfold LabelRule.relabelOne in H1.
  assert (forall P : Label -> Prop,
            (exists x, x ∈ l :: ls /\ P x) <->
            P l \/ exists x, x ∈ ls /\ P x) as Hex.
  { intros P. split.
    - intros (x & [->|Hx]%elem_of_cons & HP); [by left|right; by exists x].
    - intros [HP|(x & Hx & HP)];
        [exists l; split; [by left|done]|exists x; split; [by right|done]]. }
  rewrite !Hex. clear Hex.
  destruct (bool_decide (Key l = dbKey)) eqn:Hd.
  { apply bool_decide_eq_true in Hd. simplify_eq. simpl. tauto. }
  apply bool_decide_eq_false in Hd.
  destruct (bool_decide (Key l = tableKey)) eqn:Ht.
  { apply bool_decide_eq_true in Ht. simplify_eq. simpl. tauto. }
  apply bool_decide_eq_false in Ht.
  destruct (bool_decide (Key l = partitionKey)) eqn:Hp.
  - apply bool_decide_eq_true in Hp.
    destruct isPartition; simplify_eq; simpl; intuition congruence.
  - apply bool_decide_eq_false in Hp. simplify_eq. tauto.
Qed.

End Relabel.

(** ** [Reset] *)

Section ResetFacts.
Variable dbKey tableKey partitionKey : string.
Variable recordPrefixHex : Z -> string.
Variable spare : nat -> nat.

Abbreviation Reset_ :=
  (Reset dbKey tableKey partitionKey recordPrefixHex spare).
Abbreviation relabelled_ := (relabelled dbKey tableKey partitionKey).
Abbreviation resetLabels_ := (resetLabels dbKey tableKey partitionKey).
Abbreviation newValue_ := (newValue dbKey tableKey partitionKey).

Lemma relabel_relabelled (isPartition : bool)
    (dbName tableName partName0 : string) (ls : list Label) (f : seen) :
  (relabel dbKey tableKey partitionKey isPartition dbName tableName partName0
     ls f).1
  = map (relabelled_ isPartition dbName tableName partName0) ls.
Proof. apply relabel_labels. Qed.

(** The in-place writes of the loop, seen through another slice. *)
Lemma writeBack_shared (arrs : gmap nat (list Label)) (s t : LabelSlice)
    (ls : list Label) :
  wfSlice arrs s -> length ls = len s -> wfSlice arrs t ->
  (base t = base s -> (len t <= len s)%nat) ->
  elems (writeBack arrs s ls) t
  = if decide (base t = base s) then take (len t) ls else elems arrs t.
Proof.
  unfold wfSlice, writeBack, elems, arrayOf. intros Hwf Hlen Ht Hshare.
  destruct (base s) as [b|] eqn:Hb.
  - destruct Hwf as (a & Ha & Hle). rewrite Ha. simpl.
    destruct (base t) as [b2|] eqn:Hb2.
    + destruct (decide (Some b2 = Some b)) as [[= ->]|Hne].
      * rewrite lookup_insert_eq. simpl.
        rewrite take_app_le; [done|]. specialize (Hshare eq_refl). lia.
      * rewrite lookup_insert_ne; [done|]. intros ->. done.
    + by destruct (decide (None = Some b)).
  - destruct (base t) as [b2|]; [by destruct (decide (Some b2 = None))|].
    rewrite Ht. by destruct (decide (None = None)).
Qed.

(** What [Reset] does to a rule with labels, slice by slice. *)
Lemma Reset_spec (st : Store) (r : nat) (v : Rule) (id : Z)
    (dbName tableName : string) (partName : list string) :
  rules st !! r = Some v ->
  wfSlice (arrays st) (Labels v) ->
  len (Labels v) <> 0%nat ->
  let isPartition := negb (length partName =? 0)%nat in
  let partName0 := hd "" partName in
  exists arrs' s',
    Reset_ st r id dbName tableName partName
    = Returned
        ({| rules := <[r := resetRule recordPrefixHex id dbName tableName
                               partName s']> (rules st);
            arrays := arrs' |}, r) /\
    wfSlice arrs' s' /\
    elems arrs' s'
    = resetLabels_ isPartition dbName tableName partName0
        (elems (arrays st) (Labels v)) /\
    forall t, wfSlice (arrays st) t ->
      (base t = base (Labels v) -> (len t <= len (Labels v))%nat) ->
      wfSlice arrs' t /\
      elems arrs' t
      = if decide (base t = base (Labels v))
        then map (relabelled_ isPartition dbName tableName partName0)
               (elems (arrays st) t)
        else elems (arrays st) t.
Proof.
  intros Hv Hwf Hlen isPartition partName0.
  unfold LabelRule.Reset. rewrite Hv.
  apply Nat.eqb_neq in Hlen as Hlenb. rewrite Hlenb.
  fold isPartition. fold partName0.
  pose proof (relabel_relabelled isPartition dbName tableName partName0
                (elems (arrays st) (Labels v))
                {| hasDBKey := false; hasTableKey := false;
                   hasPartitionKey := false |}) as Hls.
  unfold resetLabels.
  destruct (relabel dbKey tableKey partitionKey isPartition dbName tableName
              partName0 (elems (arrays st) (Labels v)) _) as [ls f].
  simpl in Hls.
  assert (length ls = len (Labels v)) as Hlsl
    by (by rewrite Hls, length_map, elems_length).
  destruct (writeBack_spec (arrays st) (Labels v) ls Hwf Hlsl)
    as (He1 & Hwf1 & Hiff).
  set (arrs1 := writeBack (arrays st) (Labels v) ls) in *.
  set (xs1 := if hasDBKey f then []
              else [{| Key := dbKey; Value := dbName |}]).
  set (xs2 := if hasTableKey f then []
              else [{| Key := tableKey; Value := tableName |}]).
  set (xs3 := if isPartition && negb (hasPartitionKey f)
              then [{| Key := partitionKey; Value := partName0 |}] else []).
  assert (exists arrs2 s2,
            (if hasDBKey f then (arrs1, Labels v)
             else appendLabel spare arrs1 (Labels v)
                    {| Key := dbKey; Value := dbName |}) = (arrs2, s2) /\
            grows arrs1 (Labels v) arrs2 s2 xs1) as (arrs2 & s2 & -> & G1).
  { subst xs1. destruct (hasDBKey f).
    - eexists _, _. split; [done|]. by apply grows_refl.
    - destruct (appendLabel _ _ _ _) as [arrs2 s2] eqn:Happ.
      eexists _, _. split; [done|]. by eapply appendLabel_grows. }
  pose proof G1 as (_ & Hwf2 & _).
  assert (exists arrs3 s3,
            (if hasTableKey f then (arrs2, s2)
             else appendLabel spare arrs2 s2
                    {| Key := tableKey; Value := tableName |}) = (arrs3, s3) /\
            grows arrs2 s2 arrs3 s3 xs2) as (arrs3 & s3 & -> & G2).
  { subst xs2. destruct (hasTableKey f).
    - eexists _, _. split; [done|]. by apply grows_refl.
    - destruct (appendLabel _ _ _ _) as [arrs3 s3] eqn:Happ.
      eexists _, _. split; [done|]. by eapply appendLabel_grows. }
  pose proof G2 as (_ & Hwf3 & _).
  assert (exists arrs4 s4,
            (if isPartition && negb (hasPartitionKey f)
             then appendLabel spare arrs3 s3
                    {| Key := partitionKey; Value := partName0 |}
             else (arrs3, s3)) = (arrs4, s4) /\
            grows arrs3 s3 arrs4 s4 xs3) as (arrs4 & s4 & -> & G3).
  { subst xs3. destruct (isPartition && negb (hasPartitionKey f)).
    - destruct (appendLabel _ _ _ _) as [arrs4 s4] eqn:Happ.
      eexists _, _. split; [done|]. by eapply appendLabel_grows.
    - eexists _, _. split; [done|]. by apply grows_refl. }
  pose proof (grows_trans _ _ _ _ _ _ _ _ G1 (grows_trans _ _ _ _ _ _ _ _ G2 G3))
    as (He & Hwf4 & Ht).
  exists arrs4, s4. split; [done|]. split; [done|].
  split; [by rewrite He, He1|].
  intros t Hwt Hshare.
  destruct (Ht t) as (Het & Hwt4 & _); [by apply Hiff|done|].
  split; [done|]. rewrite Het.
  subst arrs1. rewrite writeBack_shared by done.
  destruct (decide (base t = base (Labels v))) as [Heq|]; [|done].
  rewrite Hls. unfold elems at 1 2.
  rewrite <- fmap_take, take_take.
  unfold arrayOf. rewrite Heq.
  f_equal. f_equal. specialize (Hshare Heq). lia.
Qed.

Lemma labelsOf_lookup (st : Store) (r : nat) (v : Rule) :
  rules st !! r = Some v -> labelsOf st r = elems (arrays st) (Labels v).
Proof. unfold labelsOf. by intros ->. Qed.

Lemma Reset_lists
    (st : Store) (r : nat) (v : Rule) (id : Z) (dbName tableName : string)
    (partName : list string) :
  rules st !! r = Some v ->
  wfSlice (arrays st) (Labels v) ->
  len (Labels v) <> 0%nat ->
  exists st' s',
    Reset_ st r id dbName tableName partName = Returned (st', r) /\
    rules st' !! r
    = Some (resetRule recordPrefixHex id dbName tableName partName s') /\
    labelsOf st' r
    = resetLabels_ (negb (length partName =? 0)%nat) dbName tableName
        (hd "" partName) (labelsOf st r) /\
    forall q, q <> r -> rules st' !! q = rules st !! q.
Proof.
  intros Hv Hwf Hlen.
  destruct (Reset_spec st r v id dbName tableName partName Hv Hwf Hlen)
    as (arrs' & s' & Hrun & Hwf' & He & _).
  eexists _, s'. split; [exact Hrun|]. simpl.
  split; [by rewrite lookup_insert_eq|].
  split.
  - unfold labelsOf at 1. simpl. rewrite lookup_insert_eq. simpl.
    by rewrite He, (labelsOf_lookup st r v).
  - intros q Hq. by rewrite lookup_insert_ne.
Qed.

(** [Reset] on a rule with labels, read as lists: the labels become
    [resetLabels] of what they were, the rule gets its ID, the rule type
    [key-range] and the key range of the table or partition [id], and the
    other rules keep their fields. *)
Theorem Reset_rewrites_labels
    (st : Store) (r : nat) (v : Rule) (id : Z) (dbName tableName : string)
    (partName : list string) :
  rules st !! r = Some v ->
  wfSlice (arrays st) (Labels v) ->
  len (Labels v) <> 0%nat ->
  exists st' s',
    Reset_ st r id dbName tableName partName = Returned (st', r) /\
    rules st' !! r
    = Some (resetRule recordPrefixHex id dbName tableName partName s') /\
    labelsOf st' r
    = resetLabels_ (negb (length partName =? 0)%nat) dbName tableName
        (hd "" partName) (labelsOf st r) /\
    forall q, q <> r -> rules st' !! q = rules st !! q.
Proof. apply Reset_lists. Qed.

Section Values.
Variable isPartition : bool.
Variable dbName tableName partName0 : string.
Hypothesis db_table : dbKey <> tableKey.
Hypothesis db_partition : dbKey <> partitionKey.
Hypothesis table_partition : tableKey <> partitionKey.

Abbreviation relabelled' :=
  (relabelled_ isPartition dbName tableName partName0).
Abbreviation resetLabels' :=
  (resetLabels_ isPartition dbName tableName partName0).

(** The labels after [Reset], without the flags. *)
Lemma resetLabels_eq (ls : list Label) :
  exists fdb ftable fpart : bool,
    (fdb = true <-> exists l, l ∈ ls /\ Key l = dbKey) /\
    (ftable = true <-> exists l, l ∈ ls /\ Key l = tableKey) /\
    (fpart = true <->
     isPartition = true /\ exists l, l ∈ ls /\ Key l = partitionKey) /\
    resetLabels' ls
    = map relabelled' ls
      ++ (if fdb then [] else [{| Key := dbKey; Value := dbName |}])
      ++ (if ftable then []
          else [{| Key := tableKey; Value := tableName |}])
      ++ (if isPartition && negb fpart
          then [{| Key := partitionKey; Value := partName0 |}] else []).
Proof.
  unfold resetLabels.
  pose proof (relabel_labels dbKey tableKey partitionKey isPartition dbName
                tableName partName0 ls
                {| hasDBKey := false; hasTableKey := false;
                   hasPartitionKey := false |}) as Hls.
  pose proof (relabel_flags dbKey tableKey partitionKey isPartition dbName
                tableName partName0 ls
                {| hasDBKey := false; hasTableKey := false;
                   hasPartitionKey := false |}) as (Hd & Ht & Hp).
  destruct (relabel _ _ _ _ _ _ _ ls _) as [ls' f]. simpl in *.
  exists (hasDBKey f), (hasTableKey f), (hasPartitionKey f).
  split; [|split; [|split]].
  - rewrite Hd. split; [intros [?|?]; done|by right].
  - rewrite Ht. split.
    + intros [?|(l & ? & _ & ?)]; [done|by exists l].
    + intros (l & ? & Hk). right. exists l. split; [done|]. split; [|done].
      rewrite Hk. done.
  - rewrite Hp. split.
    + intros [?|(? & l & ? & _ & _ & ?)]; [done|]. split; [done|by exists l].
    + intros (? & l & ? & Hk). right. split; [done|]. exists l.
      split; [done|]. rewrite Hk. done.
  - by rewrite Hls.
Qed.

Lemma relabelled_key (l : Label) : Key (relabelled' l) = Key l.
Proof. done. Qed.

Lemma relabelled_value (l : Label) :
  (Key l = dbKey -> Value (relabelled' l) = dbName) /\
  (Key l = tableKey -> Value (relabelled' l) = tableName) /\
  (isPartition = true -> Key l = partitionKey ->
   Value (relabelled' l) = partName0) /\
  ((Key l <> dbKey /\ Key l <> tableKey /\
    (Key l = partitionKey -> isPartition = false)) ->
   relabelled' l = l).
Proof.
  unfold relabelled, newValue. simpl.
  destruct (decide (Key l = dbKey)) as [Hd|Hd].
  { rewrite bool_decide_eq_true_2 by done. repeat split; try done.
    - intros Ht. congruence.
    - intros _ Hp. congruence.
    - intros (? & _). done. }
  rewrite bool_decide_eq_false_2 by done.
  destruct (decide (Key l = tableKey)) as [Ht|Ht].
  { rewrite bool_decide_eq_true_2 by done. repeat split; try done.
    - intros _ Hp. congruence.
    - intros (_ & ? & _). done. }
  rewrite bool_decide_eq_false_2 by done.
  destruct (decide (Key l = partitionKey)) as [Hp|Hp].
  - rewrite bool_decide_eq_true_2 by done. simpl.
    destruct isPartition; repeat split; try done.
    + intros (_ & _ & Hf). by specialize (Hf Hp).
    + intros _. by destruct l.
  - rewrite bool_decide_eq_false_2 by done. simpl.
    repeat split; try done. intros _. by destruct l.
Qed.

Lemma relabelled_idem (l : Label) :
  relabelled' (relabelled' l) = relabelled' l.
Proof.
  unfold relabelled, newValue. simpl.
  destruct (bool_decide (Key l = dbKey)); [done|].
  destruct (bool_decide (Key l = tableKey)); [done|].
  by destruct (bool_decide (Key l = partitionKey) && isPartition).
Qed.

Lemma appended_fixed :
  relabelled' {| Key := dbKey; Value := dbName |}
  = {| Key := dbKey; Value := dbName |} /\
  relabelled' {| Key := tableKey; Value := tableName |}
  = {| Key := tableKey; Value := tableName |} /\
  relabelled' {| Key := partitionKey; Value := partName0 |}
  = {| Key := partitionKey; Value := partName0 |}.
Proof.
  unfold relabelled, newValue. simpl.
  rewrite (bool_decide_eq_true_2 (dbKey = dbKey)) by done.
  rewrite (bool_decide_eq_false_2 (tableKey = dbKey))
    by (by apply not_eq_sym).
  rewrite (bool_decide_eq_true_2 (tableKey = tableKey)) by done.
  rewrite (bool_decide_eq_false_2 (partitionKey = dbKey))
    by (by apply not_eq_sym).
  rewrite (bool_decide_eq_false_2 (partitionKey = tableKey))
    by (by apply not_eq_sym).
  repeat split. by destruct (_ && _).
Qed.

(** A second pass of the loop over the labels [Reset] has left finds
    every key and changes no value. *)
Lemma resetLabels_stable (ls : list Label) :
  relabel dbKey tableKey partitionKey isPartition dbName tableName partName0
    (resetLabels' ls)
    {| hasDBKey := false; hasTableKey := false; hasPartitionKey := false |}
  = (resetLabels' ls,
     {| hasDBKey := true; hasTableKey := true;
        hasPartitionKey := isPartition |}).
Proof.
  pose proof (relabel_labels dbKey tableKey partitionKey isPartition dbName
                tableName partName0 (resetLabels' ls)
                {| hasDBKey := false; hasTableKey := false;
                   hasPartitionKey := false |}) as Hls.
  pose proof (relabel_flags dbKey tableKey partitionKey isPartition dbName
                tableName partName0 (resetLabels' ls)
                {| hasDBKey := false; hasTableKey := false;
                   hasPartitionKey := false |}) as (Hd & Ht & Hp).
  destruct (relabel _ _ _ _ _ _ _ (resetLabels' ls) _) as [ls' f].
  simpl in *.
  destruct (resetLabels_eq ls) as (fdb & ftable & fpart & Fd & Ft & Fp & Heq).
  assert (exists l, l ∈ resetLabels' ls /\ Key l = dbKey) as Hdb.
  { rewrite Heq. destruct fdb.
    - destruct Fd as [(l & Hl & Hk) _]; [done|].
      exists (relabelled' l). split; [|done].
      apply elem_of_app. left. apply list_elem_of_fmap. by exists l.
    - exists {| Key := dbKey; Value := dbName |}. split; [|done].
      apply elem_of_app. right. by left. }
  assert (exists l, l ∈ resetLabels' ls /\ Key l <> dbKey /\ Key l = tableKey)
    as Htb.
  { rewrite Heq. destruct ftable.
    - destruct Ft as [(l & Hl & Hk) _]; [done|].
      exists (relabelled' l). split; [|simpl; split; [congruence|done]].
      apply elem_of_app. left. apply list_elem_of_fmap. by exists l.
    - exists {| Key := tableKey; Value := tableName |}.
      split; [|simpl; split; [by apply not_eq_sym|done]].
      apply elem_of_app. right. apply elem_of_app. right. by left. }
  assert (isPartition = true ->
          exists l, l ∈ resetLabels' ls /\ Key l <> dbKey /\
                    Key l <> tableKey /\ Key l = partitionKey) as Hpt.
  { intros Hip. rewrite Heq. destruct fpart.
    - destruct Fp as [(_ & l & Hl & Hk) _]; [done|].
      exists (relabelled' l).
      split; [|simpl; split; [congruence|split; [congruence|done]]].
      apply elem_of_app. left. apply list_elem_of_fmap. by exists l.
    - exists {| Key := partitionKey; Value := partName0 |}.
      split; [|simpl; split; [by apply not_eq_sym|
                              split; [by apply not_eq_sym|done]]].
      apply elem_of_app. right. apply elem_of_app. right.
      apply elem_of_app. right. rewrite Hip. by left. }
  assert (ls' = resetLabels' ls) as ->.
  { rewrite Hls, Heq, !map_app.
    rewrite map_map. f_equal.
    { apply map_ext. intros l. apply relabelled_idem. }
    destruct appended_fixed as (Adb & Atable & Apart).
    f_equal; [|f_equal].
    - destruct fdb; [done|]. exact (f_equal (fun x => [x]) Adb).
    - destruct ftable; [done|]. exact (f_equal (fun x => [x]) Atable).
    - destruct (isPartition && negb fpart); [|done]. exact (f_equal (fun x => [x]) Apart). }
  f_equal. destruct f as [fd ft fp]. simpl in *.
  assert (fd = true) as -> by (apply Hd; by right).
  assert (ft = true) as -> by (apply Ht; by right).
  f_equal. destruct isPartition.
  - apply Hp. right. split; [done|]. by apply Hpt.
  - destruct fp; [|done]. destruct Hp as [[?|[? _]] _]; done.
Qed.

Lemma filter_relabelled (P : Label -> Prop) `{!forall l, Decision (P l)}
    (ls : list Label) :
  (forall l, P (relabelled' l) <-> P l) ->
  (forall l, P l -> relabelled' l = l) ->
  filter P (map relabelled' ls) = filter P ls.
Proof.
  intros Hkey Hfix. induction ls as [|l ls IH]; [done|].
  simpl. rewrite !filter_cons.
  destruct (decide (P (relabelled' l))) as [Hp|Hp];
    destruct (decide (P l)) as [Hq|Hq].
  - rewrite IH. f_equal. by apply Hfix.
  - destruct Hq. by apply (Hkey l).
  - destruct Hp. by apply (Hkey l).
  - done.
Qed.

End Values.

Section Distinct.
Hypothesis db_table : dbKey <> tableKey.
Hypothesis db_partition : dbKey <> partitionKey.
Hypothesis table_partition : tableKey <> partitionKey.

(** The labels [Reset] leaves, property by property. *)
Lemma resetLabels_values (isPartition : bool)
    (dbName tableName partName0 : string) (ls : list Label) :
  let ls' := resetLabels_ isPartition dbName tableName partName0 ls in
  (forall l, l ∈ ls' ->
     (Key l = dbKey -> Value l = dbName) /\
     (Key l = tableKey -> Value l = tableName) /\
     (isPartition = true -> Key l = partitionKey -> Value l = partName0)) /\
  (exists l, l ∈ ls' /\ Key l = dbKey) /\
  (exists l, l ∈ ls' /\ Key l = tableKey) /\
  (isPartition = true -> exists l, l ∈ ls' /\ Key l = partitionKey) /\
  filter (fun l => Key l <> dbKey /\ Key l <> tableKey /\
                   Key l <> partitionKey) ls'
  = filter (fun l => Key l <> dbKey /\ Key l <> tableKey /\
                     Key l <> partitionKey) ls /\
  (isPartition = false ->
   filter (fun l => Key l = partitionKey) ls'
   = filter (fun l => Key l = partitionKey) ls).
Proof.
  intros ls'. subst ls'.
  destruct (resetLabels_eq isPartition dbName tableName partName0 db_table
              db_partition table_partition ls)
    as (fdb & ftable & fpart & Fd & Ft & Fp & Heq).
  rewrite Heq.
  pose proof (relabelled_value isPartition dbName tableName partName0
                db_table db_partition table_partition) as Hval.
  split; [|split; [|split; [|split; [|split]]]].
  - intros l Hl. apply elem_of_app in Hl as [Hl|Hl].
    { apply list_elem_of_fmap in Hl as (l0 & -> & _).
      destruct (Hval l0) as (H1 & H2 & H3 & _). simpl. auto. }
    apply elem_of_app in Hl as [Hl|Hl].
    { destruct fdb; [by apply elem_of_nil in Hl|].
      apply list_elem_of_singleton in Hl as ->. simpl.
      repeat split; try done; intros; congruence. }
    apply elem_of_app in Hl as [Hl|Hl].
    { destruct ftable; [by apply elem_of_nil in Hl|].
      apply list_elem_of_singleton in Hl as ->. simpl.
      repeat split; try done; intros; congruence. }
    destruct (isPartition && negb fpart); [|by apply elem_of_nil in Hl].
    apply list_elem_of_singleton in Hl as ->. simpl.
    repeat split; try done; intros; congruence.
  - destruct fdb.
    + destruct Fd as [(l & Hl & Hk) _]; [done|].
      exists (relabelled_ isPartition dbName tableName partName0 l).
      split; [|done]. apply elem_of_app. left.
      apply list_elem_of_fmap. by exists l.
    + exists {| Key := dbKey; Value := dbName |}. split; [|done].
      apply elem_of_app. right. by left.
  - destruct ftable.
    + destruct Ft as [(l & Hl & Hk) _]; [done|].
      exists (relabelled_ isPartition dbName tableName partName0 l).
      split; [|done]. apply elem_of_app. left.
      apply list_elem_of_fmap. by exists l.
    + exists {| Key := tableKey; Value := tableName |}. split; [|done].
      apply elem_of_app. right. apply elem_of_app. right. by left.
  - intros Hip. destruct fpart.
    + destruct Fp as [(_ & l & Hl & Hk) _]; [done|].
      exists (relabelled_ isPartition dbName tableName partName0 l).
      split; [|done]. apply elem_of_app. left.
      apply list_elem_of_fmap. by exists l.
    + exists {| Key := partitionKey; Value := partName0 |}. split; [|done].
      apply elem_of_app. right. apply elem_of_app. right.
      apply elem_of_app. right. rewrite Hip. by left.
  - rewrite !filter_app.
    rewrite (filter_relabelled isPartition dbName tableName partName0).
    + replace (filter _ (if fdb then _ else _)) with (@nil Label).
      2:{ destruct fdb; [done|]. rewrite filter_cons.
          destruct (decide _) as [(? & _)|]; done. }
      replace (filter _ (if ftable then _ else _)) with (@nil Label).
      2:{ destruct ftable; [done|]. rewrite filter_cons.
          destruct (decide _) as [(_ & ? & _)|]; done. }
      replace (filter _ (if isPartition && negb fpart then _ else _))
        with (@nil Label).
      2:{ destruct (isPartition && negb fpart); [|done]. rewrite filter_cons.
          destruct (decide _) as [(_ & _ & ?)|]; done. }
      by rewrite !app_nil_r.
    + done.
    + intros l (? & ? & ?). apply Hval. repeat split; try done.
  - intros Hip. rewrite !filter_app.
    rewrite (filter_relabelled isPartition dbName tableName partName0).
    + replace (filter _ (if fdb then _ else _)) with (@nil Label).
      2:{ destruct fdb; [done|]. rewrite filter_cons.
          destruct (decide _) as [?|]; [simpl in *; congruence|done]. }
      replace (filter _ (if ftable then _ else _)) with (@nil Label).
      2:{ destruct ftable; [done|]. rewrite filter_cons.
          destruct (decide _) as [?|]; [simpl in *; congruence|done]. }
      rewrite Hip. simpl. by rewrite !app_nil_r.
    + done.
    + intros l Hk. apply Hval. repeat split; try done; congruence.
Qed.

(** After [Reset] on a rule with labels, every label with the database,
    table or (for a partition) partition key carries the name given,
    each of these keys is present, and the labels with other keys are as
    they were, in their order.  Without a partition name the labels with
    the partition key stay as they were. *)
Theorem Reset_sets_the_three_keys
    (st : Store) (r : nat) (v : Rule) (id : Z) (dbName tableName : string)
    (partName : list string) :
  rules st !! r = Some v ->
  wfSlice (arrays st) (Labels v) ->
  len (Labels v) <> 0%nat ->
  exists st',
    Reset_ st r id dbName tableName partName = Returned (st', r) /\
    (forall l, l ∈ labelsOf st' r ->
       (Key l = dbKey -> Value l = dbName) /\
       (Key l = tableKey -> Value l = tableName) /\
       (partName <> [] -> Key l = partitionKey ->
        Value l = hd "" partName)) /\
    (exists l, l ∈ labelsOf st' r /\ Key l = dbKey) /\
    (exists l, l ∈ labelsOf st' r /\ Key l = tableKey) /\
    (partName <> [] -> exists l, l ∈ labelsOf st' r /\ Key l = partitionKey) /\
    filter (fun l => Key l <> dbKey /\ Key l <> tableKey /\
                     Key l <> partitionKey) (labelsOf st' r)
    = filter (fun l => Key l <> dbKey /\ Key l <> tableKey /\
                       Key l <> partitionKey) (labelsOf st r) /\
    (partName = [] ->
     filter (fun l => Key l = partitionKey) (labelsOf st' r)
     = filter (fun l => Key l = partitionKey) (labelsOf st r)).
Proof.
  intros Hv Hwf Hlen.
  destruct (Reset_lists st r v id dbName tableName partName Hv Hwf Hlen)
    as (st' & s' & Hrun & _ & Hlabels & _).
  exists st'. split; [exact Hrun|]. rewrite Hlabels.
  destruct (resetLabels_values (negb (length partName =? 0)%nat) dbName
              tableName (hd "" partName) (labelsOf st r))
    as (H1 & H2 & H3 & H4 & H5 & H6).
  assert (partName <> [] -> negb (length partName =? 0)%nat = true) as Hp
    by (by destruct partName).
  assert (partName = [] -> negb (length partName =? 0)%nat = false) as Hn
    by (by intros ->).
  split; [|split; [|split; [|split; [|split]]]]; auto.
  intros l Hl. destruct (H1 l Hl) as (? & ? & ?). auto.
Qed.

(** The writes of the loop with the values already in place. *)
Lemma writeBack_id (arrs : gmap nat (list Label)) (s : LabelSlice) :
  wfSlice arrs s -> writeBack arrs s (elems arrs s) = arrs.
Proof.
  unfold wfSlice, writeBack, elems, arrayOf.
  destruct (base s) as [b|]; [|done].
  intros (a & Ha & _). rewrite Ha. simpl.
  rewrite take_drop. by apply insert_id.
Qed.

(** [Reset] twice with the same arguments: the second call changes
    nothing, neither in the rule nor in the arrays. *)
Theorem Reset_twice_changes_nothing
    (st : Store) (r : nat) (v : Rule) (id : Z) (dbName tableName : string)
    (partName : list string) :
  rules st !! r = Some v ->
  wfSlice (arrays st) (Labels v) ->
  exists st',
    Reset_ st r id dbName tableName partName = Returned (st', r) /\
    Reset_ st' r id dbName tableName partName = Returned (st', r).
Proof.
  intros Hv Hwf.
  destruct (decide (len (Labels v) = 0%nat)) as [Hz|Hlen].
  - unfold LabelRule.Reset at 1. rewrite Hv.
    apply Nat.eqb_eq in Hz as Hzb. rewrite Hzb.
    eexists. split; [done|].
    unfold LabelRule.Reset. simpl. rewrite lookup_insert_eq. simpl.
    rewrite Hzb. by rewrite insert_insert_eq.
  - destruct (Reset_spec st r v id dbName tableName partName Hv Hwf Hlen)
      as (arrs' & s' & Hrun & Hwf' & He & _).
    eexists. split; [exact Hrun|].
    unfold LabelRule.Reset. simpl. rewrite lookup_insert_eq. simpl.
    assert (len s' <> 0%nat) as Hlen'.
    { intros Hz.
      assert (elems arrs' s' = []) as Hnil by (unfold elems; by rewrite Hz).
      destruct (resetLabels_values (negb (length partName =? 0)%nat) dbName
                  tableName (hd "" partName) (elems (arrays st) (Labels v)))
        as (_ & (l & Hl & _) & _).
      rewrite <- He, Hnil in Hl. by apply elem_of_nil in Hl. }
    apply Nat.eqb_neq in Hlen' as Hlenb. rewrite Hlenb.
    rewrite He.
    rewrite (resetLabels_stable (negb (length partName =? 0)%nat) dbName
               tableName (hd "" partName) db_table db_partition
               table_partition).
    simpl. rewrite andb_negb_r.
    rewrite <- He, (writeBack_id arrs' s' Hwf').
    by rewrite insert_insert_eq.
Qed.

End Distinct.

(** [Reset] on a clone: the clone shares the array of its labels with
    the rule it was cloned from, so the loop of [Reset] rewrites the values
    of the labels of that rule too, while its other fields stay as they
    were. *)
Theorem Reset_on_clone_rewrites_original
    (st st1 st2 : Store) (r c : nat) (v : Rule) (id : Z)
    (dbName tableName : string) (partName : list string) :
  rules st !! r = Some v ->
  wfSlice (arrays st) (Labels v) ->
  len (Labels v) <> 0%nat ->
  Clone st r = Returned (st1, c) ->
  Reset_ st1 c id dbName tableName partName = Returned (st2, c) ->
  c <> r /\
  rules st2 !! r = Some v /\
  labelsOf st2 r
  = map (relabelled_ (negb (length partName =? 0)%nat) dbName tableName
           (hd "" partName)) (labelsOf st r).
Proof.
  intros Hv Hwf Hlen Hclone Hreset.
  unfold Clone in Hclone. rewrite Hv in Hclone.
  injection Hclone as <- <-.
  set (c := fresh (dom (rules st))) in *.
  assert (c <> r) as Hcr.
  { intros Heq. pose proof (is_fresh (dom (rules st))) as Hfresh.
    fold c in Hfresh. rewrite Heq in Hfresh.
    apply Hfresh. apply elem_of_dom. by exists v. }
  set (st1 := {| rules := <[c := v]> (rules st); arrays := arrays st |}) in *.
  assert (rules st1 !! c = Some v) as Hc by apply lookup_insert_eq.
  destruct (Reset_spec st1 c v id dbName tableName partName Hc Hwf Hlen)
    as (arrs' & s' & Hrun & Hwf' & He & Hother).
  rewrite Hrun in Hreset. injection Hreset as <-.
  split; [done|]. simpl.
  assert (<[c := resetRule recordPrefixHex id dbName tableName partName s']>
            (<[c := v]> (rules st)) !! r = Some v) as Hr.
  { rewrite !lookup_insert_ne by done. done. }
  split; [exact Hr|].
  unfold labelsOf at 1. simpl. rewrite Hr.
  destruct (Hother (Labels v) Hwf (fun _ => le_n _)) as (_ & ->).
  rewrite decide_True by done.
  by rewrite (labelsOf_lookup st r v Hv).
Qed.

End ResetFacts.

(** [ApplyAttributesSpec] with the default attributes, then [Reset]: the
    rule has its ID and no labels, and [Reset] has returned before it
    sets the rule type and the key range, which stay as they were. *)
Theorem default_attributes_leave_the_key_range_unset
    (dbKey tableKey partitionKey : string) (recordPrefixHex : Z -> string)
    (spare : nat -> nat)
    (yamlUnmarshalStrict : string -> list string + error)
    (NewLabels : gmap nat (list Label) -> list string ->
                 gmap nat (list Label) * LabelSlice * option error)
    (st : Store) (r : nat) (v : Rule) (spec : AttributesSpec) (id : Z)
    (dbName tableName : string) (partName : list string) :
  rules st !! r = Some v ->
  Default spec = true ->
  exists st1 st2,
    ApplyAttributesSpec yamlUnmarshalStrict NewLabels st r spec
    = Returned (st1, None) /\
    Reset dbKey tableKey partitionKey recordPrefixHex spare st1 r id dbName
      tableName partName
    = Returned (st2, r) /\
    rules st2 !! r
    = Some {| ID := if negb (length partName =? 0)%nat
                    then partitionID dbName tableName (hd "" partName)
                    else tableID dbName tableName;
              Labels := {| base := None; len := 0 |};
              RuleType := RuleType v;
              Rule_ := Rule_ v |} /\
    labelsOf st2 r = [] /\
    arrays st2 = arrays st.
Proof.
  intros Hv Hdef.
  unfold ApplyAttributesSpec. rewrite Hv, Hdef.
  eexists _, _. split; [done|].
  unfold Reset. simpl. rewrite lookup_insert_eq. simpl.
  split; [done|]. simpl.
  unfold labelsOf. simpl. rewrite lookup_insert_eq. by simpl.
Qed.

(** [exampleStore]: a table, so no partition name. *)
Lemma Reset_rewrites_labels_witness :
  exists st' s',
    Reset "db" "table" "partition" exampleKeyHex exampleSpare exampleStore
      0%nat 7 "test" "t1" []
    = Returned (st', 0%nat) /\
    rules st' !! 0%nat = Some (resetRule exampleKeyHex 7 "test" "t1" [] s') /\
    labelsOf st' 0%nat
    = resetLabels "db" "table" "partition" false "test" "t1" ""
        (labelsOf exampleStore 0%nat) /\
    forall q, q <> 0%nat -> rules st' !! q = rules exampleStore !! q.
Proof.
  apply (Reset_rewrites_labels "db" "table" "partition" exampleKeyHex
           exampleSpare exampleStore 0%nat exampleRule 7 "test" "t1" []).
  - reflexivity.
  - eexists. split; [reflexivity|simpl; lia].
  - simpl. lia.
Defined.

(** [exampleStore], reset for the partition [p0]: a label with the
    partition key is there afterwards. *)
Lemma Reset_sets_the_three_keys_witness :
  exists st',
    Reset "db" "table" "partition" exampleKeyHex exampleSpare exampleStore
      0%nat 7 "test" "t1" ["p0"]
    = Returned (st', 0%nat) /\
    exists l, l ∈ labelsOf st' 0%nat /\ Key l = "partition".
Proof.
  destruct (Reset_sets_the_three_keys "db" "table" "partition" exampleKeyHex
              exampleSpare ltac:(done) ltac:(done) ltac:(done) exampleStore
              0%nat exampleRule 7 "test" "t1" ["p0"])
    as (st' & Hrun & _ & _ & _ & Hpart & _).
  - reflexivity.
  - eexists. split; [reflexivity|simpl; lia].
  - simpl. lia.
  - exists st'. split; [exact Hrun|]. by apply Hpart.
Defined.

Lemma Reset_twice_changes_nothing_witness :
  exists st',
    Reset "db" "table" "partition" exampleKeyHex exampleSpare exampleStore
      0%nat 7 "test" "t1" ["p0"]
    = Returned (st', 0%nat) /\
    Reset "db" "table" "partition" exampleKeyHex exampleSpare st'
      0%nat 7 "test" "t1" ["p0"]
    = Returned (st', 0%nat).
Proof.
  apply (Reset_twice_changes_nothing "db" "table" "partition" exampleKeyHex
           exampleSpare ltac:(done) ltac:(done) ltac:(done) exampleStore
           0%nat exampleRule 7 "test" "t1" ["p0"]).
  - reflexivity.
  - eexists. split; [reflexivity|simpl; lia].
Defined.

(** The clone of the rule of [exampleStore] is at 1; after [Reset] on
    it the rule at 0 has the database name [test] in its second label. *)
Lemma Reset_on_clone_rewrites_original_witness :
  1%nat <> 0%nat /\
  rules (storeOf
           (Reset "db" "table" "partition" exampleKeyHex exampleSpare
              (storeOf (Clone exampleStore 0%nat)) 1%nat 7 "test" "t1" []))
    !! 0%nat
  = Some exampleRule /\
  labelsOf (storeOf
              (Reset "db" "table" "partition" exampleKeyHex exampleSpare
                 (storeOf (Clone exampleStore 0%nat)) 1%nat 7 "test" "t1" []))
    0%nat
  = map (relabelled "db" "table" "partition" false "test" "t1" "")
      (labelsOf exampleStore 0%nat).
Proof.
  apply (Reset_on_clone_rewrites_original "db" "table" "partition"
           exampleKeyHex exampleSpare exampleStore
           (storeOf (Clone exampleStore 0%nat))
           (storeOf
              (Reset "db" "table" "partition" exampleKeyHex exampleSpare
                 (storeOf (Clone exampleStore 0%nat)) 1%nat 7 "test" "t1" []))
           0%nat 1%nat exampleRule 7 "test" "t1" []).
  - reflexivity.
  - eexists. split; [reflexivity|simpl; lia].
  - simpl. lia.
  - vm_compute. reflexivity.
  - vm_compute. reflexivity.
Defined.

Lemma default_attributes_leave_the_key_range_unset_witness :
  exists st1 st2,
    ApplyAttributesSpec (fun _ => inl [])
      (fun arrs _ => (arrs, {| base := None; len := 0 |}, None))
      exampleStore 0%nat {| Default := true; Attributes := "" |}
    = Returned (st1, None) /\
    Reset "db" "table" "partition" exampleKeyHex exampleSpare st1 0%nat 7
      "test" "t1" []
    = Returned (st2, 0%nat) /\
    rules st2 !! 0%nat
    = Some {| ID := tableID "test" "t1";
              Labels := {| base := None; len := 0 |};
              RuleType := ""; Rule_ := BodyNil |} /\
    labelsOf st2 0%nat = [] /\
    arrays st2 = arrays exampleStore.
Proof.
  apply (default_attributes_leave_the_key_range_unset "db" "table"
           "partition" exampleKeyHex exampleSpare (fun _ => inl [])
           (fun arrs _ => (arrs, {| base := None; len := 0 |}, None))
           exampleStore 0%nat exampleRule
           {| Default := true; Attributes := "" |} 7 "test" "t1" []).
  - reflexivity.
  - reflexivity.
Defined.

End LabelRuleFacts.
